(** * Pluggable discovery: the client (client.go) and the dummy discovery
    (dummy-discovery/main.go)

    The Go code is embedded as functions over an explicit [World]: the
    [Client] struct, the channels the Go runtime holds for it, the
    subprocesses it spawned and the answers of the operating system.

    Three goroutines meet at a [Client]: the caller of its methods,
    [jsonDecodeLoop] and the consumer of the event channel.  A method
    blocks in [waitMessage] while the loop runs, so every method is given by
    two transitions, [X_begin] (up to the [select] of [waitMessage]) and
    [X_end] (from the [select] on), and the loop by [jsonDecodeLoop_iter],
    one iteration of its [for].  A transition is taken when it can run to
    its end: one that cannot complete in a world (a held mutex, a [select]
    case that is not ready, a send on a channel without room) has outcome
    [Blocked].

    What runs under [statusMutex] is one transition.  [Quit] calls
    [stopSync] without the mutex, so the statements of that call are
    transitions of their own, and so are the check and the send of the
    critical section of the loop, between which they can come. *)

From Stdlib Require Import ZArith String Ascii List Bool Lia DecimalString DecimalZ.
From stdpp Require Import base tactics option list.
Import ListNotations.
Local Open Scope Z_scope.
Local Open Scope string_scope.

(** ** Go values *)

(** [error] values.  [Wrapf p e] is [fmt.Errorf(p + "%w", e)]; [ErrorsNew] is
    [errors.New] and [fmt.Errorf] without [%w]; [Foreign] is an error made
    outside these packages (os, pipe, JSON decoder). *)
Inductive error : Type :=
| EOF
| Foreign (text : string)
| ErrorsNew (text : string)
| Wrapf (prefix : string) (err : error).

Fixpoint Error_text (e : error) : string :=
  match e with
  | EOF => "EOF"
  | Foreign t => t
  | ErrorsNew t => t
  | Wrapf p e' => p ++ Error_text e'
  end.

(** [errors.Is(err, io.EOF)]: [err] is [io.EOF] or wraps it. *)
Fixpoint errors_Is_EOF (err : error) : bool :=
  match err with
  | EOF => true
  | Wrapf _ err' => errors_Is_EOF err'
  | _ => false
  end.

(** [fmt.Sprintf("%d", z)]. *)
Definition Sprintf_d (z : Z) : string := NilZero.string_of_int (Z.to_int z).

(** Go's [int] is 64 bits wide and wraps around. *)
Definition wrap64 (z : Z) : Z := (z + 2 ^ 63) mod 2 ^ 64 - 2 ^ 63.

(** [strings.ToUpper].  On an ASCII string Go maps [a]..[z] bytewise.  A string
    with other bytes goes through [unicode.ToUpper] rune by rune; the model
    leaves those bytes as they are.  The code only compares the result with
    ["OK"], and no rune outside ASCII has [O] or [K] as its upper case, so
    that comparison is the same in both. *)
Definition upper_ascii (c : ascii) : ascii :=
  let n := nat_of_ascii c in
  if (97 <=? n)%nat && (n <=? 122)%nat then ascii_of_nat (n - 32) else c.

Fixpoint ToUpper (s : string) : string :=
  match s with
  | EmptyString => EmptyString
  | String c s' => String (upper_ascii c) (ToUpper s')
  end.

(** The double quote and the line feed of Go string literals. *)
Definition dquote : string := String (ascii_of_nat 34) EmptyString.
Definition newline : string := String (ascii_of_nat 10) EmptyString.

(** [data[:n]] and [data[n:]] for [n <= len(data)]. *)
Fixpoint str_take (n : nat) (s : string) : string :=
  match n, s with
  | S n', String c s' => String c (str_take n' s')
  | _, _ => EmptyString
  end.

Fixpoint str_drop (n : nat) (s : string) : string :=
  match n, s with
  | S n', String _ s' => str_drop n' s'
  | _, _ => s
  end.

(** ** Data model *)

(** Modelled from the spec: the [Port] struct is declared in a file of the
    package that is not among the sources; its fields are the ones the spec
    lists and [CreateDummyPort] fills.  [Properties] is an ordered map,
    kept as an association list.  A [*Port] is an [option Port], [None]
    for [nil]. *)
Record Port : Type := {
  Address : string;
  AddressLabel : string;
  Protocol : string;
  ProtocolLabel : string;
  Properties : list (string * string)
}.

Record discoveryMessage : Type := {
  m_EventType : string;
  m_Message : string;
  m_Error : bool;
  m_ProtocolVersion : Z;
  m_Ports : list (option Port);
  m_Port : option Port
}.

Record Event : Type := {
  e_Type : string;
  e_Port : option Port;
  e_DiscoveryID : string
}.

(** The states of the client, in the order of the [iota] block. *)
Inductive State : Type := Alive | Idling | Running | Syncing | Dead.

Definition State_code (s : State) : Z :=
  match s with Alive => 0 | Idling => 1 | Running => 2 | Syncing => 3 | Dead => 4 end.

(** The [Client] struct.  Pointers and channels are handles into the heaps of
    [World]; [None] is [nil].  [statusMutex] is [true] while the mutex is
    held.  The logger has no effect on the client and is left out. *)
Record Client : Type := {
  disc_id : string;
  processArgs : list string;
  process : option nat;
  outgoingCommandsPipe : option nat;
  incomingMessagesChan : option nat;
  userAgent : string;
  statusMutex : bool;
  incomingMessagesError : option error;
  state : State;
  eventChan : option nat
}.

(** A [chan *discoveryMessage] made without capacity: a send completes when
    a receiver takes the value.  [MOffer m]: the decode loop is in
    [outChan <- &msg] and no receiver took [m] yet. *)
Inductive MsgChan : Type := MEmpty | MOffer (m : discoveryMessage) | MClosed.

(** A [chan *Event] made with capacity [cap].  [sent] lists every event
    whose send completed, oldest first: what a consumer that reads the
    channel to completion receives.  [wanted] counts the receives the
    consumer has begun.  The buffer holds [cap] events and every receive
    takes one, so the [k]-th send completes once [k <= wanted + cap]; until
    then the sender waits. *)
Record EventChan : Type := {
  cap : Z;
  sent : list Event;
  wanted : nat;
  closed : bool
}.

(** Where a decode loop is in the critical section of its "add" and
    "remove" branch.  [Checked]: it holds the mutex and found a channel
    registered.  [Evaluated]: it has evaluated the operands of its send, the
    channel ([None] for [nil]) and the event, and is in the send. *)
Inductive DeliverPC : Type :=
| NotDelivering
| Checked (outChan : nat) (type : string) (port : option Port)
| Evaluated (outChan : nat) (ch : option nat) (ev : Event).

(** The statement of [Quit] that its caller executes next. *)
Inductive QuitPC : Type :=
| NotQuitting | AtWait | AtCheck | AtSend | AtClose | AtNil | AtKill.

(** A subprocess made by [paths.NewProcess]: the bytes its standard input
    received and the calls made on its handle, oldest first, with their
    results. *)
Inductive ProcessCall : Type := CallStart | CallKill | CallWait.

Record Process : Type := {
  p_args : list string;
  p_stdin : string;
  p_calls : list (ProcessCall * option error);
  p_decodeLoop : option nat
}.

(** What the operating system answers.  [Write_script] holds the answers of
    the next calls of [Write] on a pipe, as the greatest number of bytes
    taken and the error returned; when it is used up a [Write] takes all
    the bytes it is given. *)
Record OS : Type := {
  NewProcess_err : option error;
  StdoutPipe_err : option error;
  StdinPipe_err : option error;
  Start_err : option error;
  Kill_err : option error;
  Wait_err : option error;
  Write_script : list (nat * option error)
}.

Record World : Type := {
  disc : Client;
  msgChans : list MsgChan;
  eventChans : list EventChan;
  procs : list Process;
  os : OS;
  delivering : DeliverPC;
  quitting : QuitPC
}.

(** ** Field updates *)

Definition set_process (v : option nat) (c : Client) : Client :=
  {| disc_id := disc_id c; processArgs := processArgs c; process := v;
     outgoingCommandsPipe := outgoingCommandsPipe c;
     incomingMessagesChan := incomingMessagesChan c; userAgent := userAgent c;
     statusMutex := statusMutex c;
     incomingMessagesError := incomingMessagesError c; state := state c;
     eventChan := eventChan c |}.

Definition set_outgoingCommandsPipe (v : option nat) (c : Client) : Client :=
  {| disc_id := disc_id c; processArgs := processArgs c; process := process c;
     outgoingCommandsPipe := v;
     incomingMessagesChan := incomingMessagesChan c; userAgent := userAgent c;
     statusMutex := statusMutex c;
     incomingMessagesError := incomingMessagesError c; state := state c;
     eventChan := eventChan c |}.

Definition set_incomingMessagesChan (v : option nat) (c : Client) : Client :=
  {| disc_id := disc_id c; processArgs := processArgs c; process := process c;
     outgoingCommandsPipe := outgoingCommandsPipe c;
     incomingMessagesChan := v; userAgent := userAgent c;
     statusMutex := statusMutex c;
     incomingMessagesError := incomingMessagesError c; state := state c;
     eventChan := eventChan c |}.

Definition set_userAgent (v : string) (c : Client) : Client :=
  {| disc_id := disc_id c; processArgs := processArgs c; process := process c;
     outgoingCommandsPipe := outgoingCommandsPipe c;
     incomingMessagesChan := incomingMessagesChan c; userAgent := v;
     statusMutex := statusMutex c;
     incomingMessagesError := incomingMessagesError c; state := state c;
     eventChan := eventChan c |}.

Definition set_statusMutex (v : bool) (c : Client) : Client :=
  {| disc_id := disc_id c; processArgs := processArgs c; process := process c;
     outgoingCommandsPipe := outgoingCommandsPipe c;
     incomingMessagesChan := incomingMessagesChan c; userAgent := userAgent c;
     statusMutex := v;
     incomingMessagesError := incomingMessagesError c; state := state c;
     eventChan := eventChan c |}.

Definition set_incomingMessagesError (v : option error) (c : Client) : Client :=
  {| disc_id := disc_id c; processArgs := processArgs c; process := process c;
     outgoingCommandsPipe := outgoingCommandsPipe c;
     incomingMessagesChan := incomingMessagesChan c; userAgent := userAgent c;
     statusMutex := statusMutex c;
     incomingMessagesError := v; state := state c;
     eventChan := eventChan c |}.

Definition set_state (v : State) (c : Client) : Client :=
  {| disc_id := disc_id c; processArgs := processArgs c; process := process c;
     outgoingCommandsPipe := outgoingCommandsPipe c;
     incomingMessagesChan := incomingMessagesChan c; userAgent := userAgent c;
     statusMutex := statusMutex c;
     incomingMessagesError := incomingMessagesError c; state := v;
     eventChan := eventChan c |}.

Definition set_eventChan (v : option nat) (c : Client) : Client :=
  {| disc_id := disc_id c; processArgs := processArgs c; process := process c;
     outgoingCommandsPipe := outgoingCommandsPipe c;
     incomingMessagesChan := incomingMessagesChan c; userAgent := userAgent c;
     statusMutex := statusMutex c;
     incomingMessagesError := incomingMessagesError c; state := state c;
     eventChan := v |}.

Definition upd_disc (f : Client -> Client) (w : World) : World :=
  {| disc := f (disc w); msgChans := msgChans w; eventChans := eventChans w;
     procs := procs w; os := os w;
     delivering := delivering w; quitting := quitting w |}.

Definition set_msgChans (v : list MsgChan) (w : World) : World :=
  {| disc := disc w; msgChans := v; eventChans := eventChans w;
     procs := procs w; os := os w;
     delivering := delivering w; quitting := quitting w |}.

Definition set_eventChans (v : list EventChan) (w : World) : World :=
  {| disc := disc w; msgChans := msgChans w; eventChans := v;
     procs := procs w; os := os w;
     delivering := delivering w; quitting := quitting w |}.

Definition set_procs (v : list Process) (w : World) : World :=
  {| disc := disc w; msgChans := msgChans w; eventChans := eventChans w;
     procs := v; os := os w; delivering := delivering w; quitting := quitting w |}.

Definition set_os (v : OS) (w : World) : World :=
  {| disc := disc w; msgChans := msgChans w; eventChans := eventChans w;
     procs := procs w; os := v; delivering := delivering w; quitting := quitting w |}.

Definition set_Write_script (v : list (nat * option error)) (w : World) : World :=
  {| disc := disc w; msgChans := msgChans w; eventChans := eventChans w;
     procs := procs w;
     os := {| NewProcess_err := NewProcess_err (os w);
              StdoutPipe_err := StdoutPipe_err (os w);
              StdinPipe_err := StdinPipe_err (os w);
              Start_err := Start_err (os w); Kill_err := Kill_err (os w);
              Wait_err := Wait_err (os w); Write_script := v |};
     delivering := delivering w; quitting := quitting w |}.

Definition set_delivering (v : DeliverPC) (w : World) : World :=
  {| disc := disc w; msgChans := msgChans w; eventChans := eventChans w;
     procs := procs w; os := os w; delivering := v; quitting := quitting w |}.

Definition set_quitting (v : QuitPC) (w : World) : World :=
  {| disc := disc w; msgChans := msgChans w; eventChans := eventChans w;
     procs := procs w; os := os w; delivering := delivering w; quitting := v |}.

(** ** The monad of transitions *)

(** The result of running a transition in a world: it returns [a] and leaves
    world [w]; or it panics in world [w]; or it cannot complete. *)
Inductive Outcome (A : Type) : Type :=
| Ret (a : A) (w : World)
| Panic (why : string) (w : World)
| Blocked.
Arguments Ret {A} a w.
Arguments Panic {A} why w.
Arguments Blocked {A}.

Definition M (A : Type) : Type := World -> Outcome A.

Definition ret {A} (a : A) : M A := fun w => Ret a w.

Definition bind {A B} (c : M A) (k : A -> M B) : M B := fun w =>
  match c w with
  | Ret a w' => k a w'
  | Panic why w' => Panic why w'
  | Blocked => Blocked
  end.

Notation "x <- c ;; k" := (bind c (fun x => k))
  (at level 100, c at next level, right associativity).
Notation "c ;; k" := (bind c (fun _ => k))
  (at level 100, right associativity).

(** [defer d] before [body]: [d] runs when [body] returns and when it
    panics. *)
Definition defer_ {A} (d : M unit) (body : M A) : M A := fun w =>
  match body w with
  | Ret a w' => (d ;; ret a) w'
  | Panic why w' => (d ;; (fun w'' => Panic why w'')) w'
  | Blocked => Blocked
  end.

Definition panic {A} (why : string) : M A := fun w => Panic why w.

(** A deferred [d] that the normal exit of [body] does not reach yet: it
    runs when [body] panics. *)
Definition on_panic {A} (d : M unit) (body : M A) : M A := fun w =>
  match body w with
  | Panic why w' => (d ;; panic why) w'
  | o => o
  end.

Definition blocked {A} : M A := fun _ => Blocked.

(** Reading and writing the fields of the client. *)
Definition getDisc : M Client := fun w => Ret (disc w) w.
Definition modDisc (f : Client -> Client) : M unit := fun w => Ret tt (upd_disc f w).

(** Where the goroutines are, and where they go on to. *)
Definition getDelivering : M DeliverPC := fun w => Ret (delivering w) w.
Definition goto_deliver (pc : DeliverPC) : M unit := fun w => Ret tt (set_delivering pc w).
Definition getQuitting : M QuitPC := fun w => Ret (quitting w) w.
Definition goto_Quit (pc : QuitPC) : M unit := fun w => Ret tt (set_quitting pc w).

(** The world a transition leaves, when it leaves one. *)
Definition world_of {A} (o : Outcome A) : option World :=
  match o with
  | Ret _ w => Some w
  | Panic _ w => Some w
  | Blocked => None
  end.

(** The world an outcome leaves, or [w] when it leaves none. *)
Definition world_or {A} (w : World) (o : Outcome A) : World :=
  match world_of o with
  | Some w' => w'
  | None => w
  end.

(** ** The Go runtime: mutex and channels *)

(** [statusMutex.Lock()] cannot complete while the mutex is held. *)
Definition Lock : M unit := fun w =>
  if statusMutex (disc w) then Blocked else Ret tt (upd_disc (set_statusMutex true) w).

Definition Unlock : M unit := modDisc (set_statusMutex false).

(** [make(chan *Event, size)]. *)
Definition make_chan_Event (size : Z) : M nat := fun w =>
  if (size <? 0)%Z then Panic "makechan: size out of range" w
  else Ret (length (eventChans w))
           (set_eventChans
              (eventChans w ++ [{| cap := size; sent := []; wanted := 0;
                                   closed := false |}]) w).

(** The channel can take one more event: fewer sends completed than the
    buffer holds and the consumer wants. *)
Definition has_room (c : EventChan) : bool :=
  (Z.of_nat (length (sent c)) <? Z.of_nat (wanted c) + cap c)%Z.

(** [ch <- ev]: on a closed channel the send panics, and on an open one it
    waits for room. *)
Definition send_Event (ch : nat) (ev : Event) : M unit := fun w =>
  match eventChans w !! ch with
  | None => Panic "no such channel" w
  | Some c =>
      if closed c then Panic "send on closed channel" w
      else if has_room c then
        Ret tt (set_eventChans
                  (<[ch := {| cap := cap c; sent := sent c ++ [ev]; wanted := wanted c;
                              closed := false |}]>
                     (eventChans w)) w)
      else Blocked
  end.

(** The consumer of [ch] begins a receive, [<-ch] or the next round of a
    [range]. *)
Definition receive_Event (ch : nat) : M unit := fun w =>
  match eventChans w !! ch with
  | None => Blocked
  | Some c =>
      Ret tt (set_eventChans
                (<[ch := {| cap := cap c; sent := sent c; wanted := S (wanted c);
                            closed := closed c |}]>
                   (eventChans w)) w)
  end.

(** [close(ch)]. *)
Definition close_Event (ch : nat) : M unit := fun w =>
  match eventChans w !! ch with
  | None => Panic "no such channel" w
  | Some c =>
      if closed c then Panic "close of closed channel" w
      else Ret tt (set_eventChans
                     (<[ch := {| cap := cap c; sent := sent c; wanted := wanted c;
                                 closed := true |}]>
                        (eventChans w)) w)
  end.

(** [make(chan *discoveryMessage)]. *)
Definition make_chan_Message : M nat := fun w =>
  Ret (length (msgChans w)) (set_msgChans (msgChans w ++ [MEmpty]) w).

(** [outChan <- &msg]: the value is on offer until a receiver takes it. *)
Definition send_Message (ch : nat) (m : discoveryMessage) : M unit := fun w =>
  match msgChans w !! ch with
  | Some MEmpty => Ret tt (set_msgChans (<[ch := MOffer m]> (msgChans w)) w)
  | Some (MOffer _) => Blocked
  | Some MClosed => Panic "send on closed channel" w
  | None => Panic "no such channel" w
  end.

(** [close(outChan)]. *)
Definition close_Message (ch : nat) : M unit := fun w =>
  match msgChans w !! ch with
  | Some MClosed => Panic "close of closed channel" w
  | Some _ => Ret tt (set_msgChans (<[ch := MClosed]> (msgChans w)) w)
  | None => Panic "no such channel" w
  end.

(** [<-ch] as a [select] case: a value on offer is taken, a closed channel
    gives [nil], and otherwise the case is not ready.  A [nil] channel is
    never ready. *)
Definition recv_Message (ch : option nat) : M (option discoveryMessage) := fun w =>
  match ch with
  | None => Blocked
  | Some ch =>
      match msgChans w !! ch with
      | Some (MOffer m) => Ret (Some m) (set_msgChans (<[ch := MEmpty]> (msgChans w)) w)
      | Some MClosed => Ret None w
      | Some MEmpty => Blocked
      | None => Panic "no such channel" w
      end
  end.

(** ** The operating system: processes and pipes *)

Definition add_call (call : ProcessCall) (r : option error) (p : Process) : Process :=
  {| p_args := p_args p; p_stdin := p_stdin p; p_calls := p_calls p ++ [(call, r)];
     p_decodeLoop := p_decodeLoop p |}.

Definition add_stdin (data : string) (p : Process) : Process :=
  {| p_args := p_args p; p_stdin := p_stdin p ++ data; p_calls := p_calls p;
     p_decodeLoop := p_decodeLoop p |}.

Definition add_decodeLoop (outChan : nat) (p : Process) : Process :=
  {| p_args := p_args p; p_stdin := p_stdin p; p_calls := p_calls p;
     p_decodeLoop := Some outChan |}.

(** [paths.NewProcess(nil, args...)]: the new handle, or an error. *)
Definition NewProcess (args : list string) : M (nat + error) := fun w =>
  match NewProcess_err (os w) with
  | Some e => Ret (inr e) w
  | None =>
      Ret (inl (length (procs w)))
          (set_procs (procs w ++ [{| p_args := args; p_stdin := EmptyString; p_calls := [];
                                     p_decodeLoop := None |}]) w)
  end.

Definition StdoutPipe (proc : nat) : M (option error) :=
  fun w => Ret (StdoutPipe_err (os w)) w.

Definition StdinPipe (proc : nat) : M (option error) :=
  fun w => Ret (StdinPipe_err (os w)) w.

(** [proc.Start()], [proc.Kill()] and [proc.Wait()]: the call and its result
    are written down with the process. *)
Definition proc_call (call : ProcessCall) (r : OS -> option error) (proc : nat) :
    M (option error) :=
  fun w => Ret (r (os w)) (set_procs (alter (add_call call (r (os w))) proc (procs w)) w).

Definition proc_Start : nat -> M (option error) := proc_call CallStart Start_err.
Definition proc_Kill : nat -> M (option error) := proc_call CallKill Kill_err.
Definition proc_Wait : nat -> M (option error) := proc_call CallWait Wait_err.

(** [go disc.jsonDecodeLoop(stdout, messageChan)]: the loop that reads the
    standard output of [proc] is started with [outChan]. *)
Definition go_jsonDecodeLoop (proc outChan : nat) : M unit := fun w =>
  Ret tt (set_procs (alter (add_decodeLoop outChan) proc (procs w)) w).

(** ** client.go *)

Definition NewClient (id : string) (args : list string) : Client :=
  {| disc_id := id; processArgs := args; process := None;
     outgoingCommandsPipe := None; incomingMessagesChan := None;
     userAgent := "pluggable-discovery-protocol-handler";
     statusMutex := false; incomingMessagesError := None; state := Dead;
     eventChan := None |}.

Definition SetUserAgent (agent : string) : M unit := modDisc (set_userAgent agent).

Definition GetID (c : Client) : string := disc_id c.

(** The [closeAndReportError] closure of [jsonDecodeLoop]. *)
Definition closeAndReportError (outChan : nat) (err : error) : M unit :=
  Lock ;;
  modDisc (set_state Dead) ;;
  modDisc (set_incomingMessagesError (Some err)) ;;
  Unlock ;;
  close_Message outChan.

(** What [decoder.Decode(&msg)] gives: a message, or an error. *)
Inductive Decoded : Type :=
| Value (msg : discoveryMessage)
| Failure (err : error).

Inductive LoopStatus : Type := Continue | Return.

(** The loop is at the head of its [for] when its last send on [outChan] was
    taken and it has not closed [outChan]. *)
Definition loop_head (outChan : nat) : M unit := fun w =>
  match msgChans w !! outChan with
  | Some MEmpty => Ret tt w
  | _ => Blocked
  end.

(** The critical section that the "add" and the "remove" branch of the loop
    both have: the event goes to the registered channel, if there is one. *)
Definition deliver (type : string) (port : option Port) : M unit :=
  Lock ;;
  c <- getDisc ;;
  match eventChan c with
  | Some ch => send_Event ch {| e_Type := type; e_Port := port; e_DiscoveryID := GetID c |}
  | None => ret tt
  end ;;
  Unlock.

(** The same critical section when other goroutines run between its
    statements: the check under the mutex, the operands of the send, and
    the send with the [Unlock] that follows it. *)
Definition deliver_check (outChan : nat) (type : string) (port : option Port) : M unit :=
  Lock ;;
  c <- getDisc ;;
  match eventChan c with
  | Some _ => goto_deliver (Checked outChan type port)
  | None => Unlock
  end.

Definition deliver_eval : M unit :=
  pc <- getDelivering ;;
  match pc with
  | Checked outChan type port =>
      c <- getDisc ;;
      goto_deliver
        (Evaluated outChan (eventChan c)
           {| e_Type := type; e_Port := port; e_DiscoveryID := GetID c |})
  | _ => blocked
  end.

(** A send on a [nil] channel never completes. *)
Definition deliver_send : M unit :=
  pc <- getDelivering ;;
  match pc with
  | Evaluated _ (Some ch) ev =>
      send_Event ch ev ;;
      Unlock ;;
      goto_deliver NotDelivering
  | _ => blocked
  end.

(** One iteration of the [for] of [jsonDecodeLoop], on the next result of the
    decoder, with no transition of another goroutine inside its critical
    section. *)
Definition jsonDecodeLoop_iter (outChan : nat) (d : Decoded) : M LoopStatus :=
  loop_head outChan ;;
  match d with
  | Failure err =>
      if errors_Is_EOF err then
        Lock ;;
        modDisc (set_state Dead) ;;
        modDisc (set_incomingMessagesError (Some err)) ;;
        Unlock ;;
        close_Message outChan ;;
        ret Return
      else
        closeAndReportError outChan err ;;
        ret Return
  | Value msg =>
      if m_EventType msg =? "add" then
        match m_Port msg with
        | None =>
            closeAndReportError outChan (ErrorsNew "invalid 'add' message: missing port") ;;
            ret Return
        | Some _ => deliver "add" (m_Port msg) ;; ret Continue
        end
      else if m_EventType msg =? "remove" then
        match m_Port msg with
        | None =>
            closeAndReportError outChan (ErrorsNew "invalid 'remove' message: missing port") ;;
            ret Return
        | Some _ => deliver "remove" (m_Port msg) ;; ret Continue
        end
      else
        send_Message outChan msg ;;
        ret Continue
  end.

(** An iteration on an "add" or "remove" envelope that has its port, up to
    the check of the critical section. *)
Definition jsonDecodeLoop_check (outChan : nat) (msg : discoveryMessage) : M unit :=
  loop_head outChan ;;
  if m_EventType msg =? "add" then
    match m_Port msg with
    | None => blocked
    | Some _ => deliver_check outChan "add" (m_Port msg)
    end
  else if m_EventType msg =? "remove" then
    match m_Port msg with
    | None => blocked
    | Some _ => deliver_check outChan "remove" (m_Port msg)
    end
  else blocked.

(** [State()]. *)
Definition State_ : M State :=
  Lock ;;
  defer_ Unlock (c <- getDisc ;; ret (state c)).

(** The case the [select] of [waitMessage] takes. *)
Inductive SelectCase : Type := CaseRecv | CaseAfter.

Definition waitMessage (sc : SelectCase) : M (option discoveryMessage * option error) :=
  match sc with
  | CaseRecv =>
      c <- getDisc ;;
      msg <- recv_Message (incomingMessagesChan c) ;;
      match msg with
      | None => c <- getDisc ;; ret (None, incomingMessagesError c)
      | Some msg => ret (Some msg, None)
      end
  | CaseAfter =>
      c <- getDisc ;;
      ret (None, Some (ErrorsNew ("timeout waiting for message from " ++ disc_id c)))
  end.

(** The [for] of [sendCommand], on the answers of the pipe. *)
Fixpoint Write_loop (pipe : nat) (script : list (nat * option error)) (data : string)
    (w : World) : Outcome (option error) :=
  match script with
  | [] =>
      Ret None (set_procs (alter (add_stdin data) pipe (procs w)) (set_Write_script [] w))
  | (take, err) :: script' =>
      let n := Nat.min take (String.length data) in
      let w' := set_procs (alter (add_stdin (str_take n data)) pipe (procs w))
                  (set_Write_script script' w) in
      match err with
      | Some err => Ret (Some err) w'
      | None =>
          if (n =? String.length data)%nat then Ret None w'
          else Write_loop pipe script' (str_drop n data) w'
      end
  end.

Definition sendCommand (command : string) : M (option error) := fun w =>
  match outgoingCommandsPipe (disc w) with
  | None => Panic "nil pointer dereference" w
  | Some pipe => Write_loop pipe (Write_script (os w)) command w
  end.

Definition runProcess : M (option error) :=
  c <- getDisc ;;
  r <- NewProcess (processArgs c) ;;
  match r with
  | inr err => ret (Some err)
  | inl proc =>
      err <- StdoutPipe proc ;;
      match err with
      | Some err => ret (Some err)
      | None =>
          err <- StdinPipe proc ;;
          match err with
          | Some err => ret (Some err)
          | None =>
              modDisc (set_outgoingCommandsPipe (Some proc)) ;;
              messageChan <- make_chan_Message ;;
              modDisc (set_incomingMessagesChan (Some messageChan)) ;;
              go_jsonDecodeLoop proc messageChan ;;
              err <- proc_Start proc ;;
              match err with
              | Some err => ret (Some err)
              | None =>
                  Lock ;;
                  defer_ Unlock
                    (modDisc (set_process (Some proc)) ;;
                     modDisc (set_state Alive) ;;
                     ret None)
              end
          end
      end
  end.

Definition stopSync : M unit :=
  c <- getDisc ;;
  match eventChan c with
  | Some ch =>
      send_Event ch {| e_Type := "stop"; e_Port := None; e_DiscoveryID := GetID c |} ;;
      close_Event ch ;;
      modDisc (set_eventChan None)
  | None => ret tt
  end.

(** The statements of [stopSync] one by one, for a caller that does not hold
    the mutex.  Each of them reads [disc.eventChan] again; a send on a [nil]
    channel never completes and [close(nil)] panics. *)
Definition stopSync_check : M bool :=
  c <- getDisc ;;
  match eventChan c with
  | Some _ => ret true
  | None => ret false
  end.

Definition stopSync_send : M unit :=
  c <- getDisc ;;
  match eventChan c with
  | Some ch => send_Event ch {| e_Type := "stop"; e_Port := None; e_DiscoveryID := GetID c |}
  | None => blocked
  end.

Definition stopSync_close : M unit :=
  c <- getDisc ;;
  match eventChan c with
  | Some ch => close_Event ch
  | None => panic "close of nil channel"
  end.

Definition stopSync_nil : M unit := modDisc (set_eventChan None).

Definition killProcess : M (option error) :=
  c <- getDisc ;;
  err <- match process c with
         | Some proc =>
             err <- proc_Kill proc ;;
             match err with
             | Some err => ret (Some err)
             | None => proc_Wait proc
             end
         | None => ret None
         end ;;
  match err with
  | Some err => ret (Some err)
  | None =>
      Lock ;;
      defer_ Unlock
        (stopSync ;;
         modDisc (set_state Dead) ;;
         ret None)
  end.

(** The deferred closure of [Run]: after a failure the process is killed;
    an error of [killProcess] is only logged. *)
Definition Run_deferred (err : option error) : M (option error) :=
  match err with
  | None => ret None
  | Some e => killProcess ;; ret (Some e)
  end.

(** In [X_begin], [None] says that the method is now in [waitMessage] and
    [Some e] that it returned [e] before waiting. *)
Definition Run_begin : M (option error) :=
  err <- runProcess ;;
  match err with
  | Some err => ret (Some err)
  | None =>
      c <- getDisc ;;
      err <- sendCommand ("HELLO 1 " ++ dquote ++ "arduino-cli " ++ userAgent c
                          ++ dquote ++ newline) ;;
      Run_deferred err
  end.

Definition Run_end (sc : SelectCase) : M (option error) :=
  r <- waitMessage sc ;;
  err <- match r with
         | (_, Some err) => ret (Some (Wrapf "calling HELLO: " err))
         | (None, None) => panic "nil pointer dereference"
         | (Some msg, None) =>
             if negb (m_EventType msg =? "hello") then
               ret (Some (ErrorsNew ("event out of sync, expected 'hello', received '"
                                       ++ m_EventType msg ++ "'")))
             else if m_Error msg then
               ret (Some (ErrorsNew ("command failed: " ++ m_Message msg)))
             else if negb (ToUpper (m_Message msg) =? "OK") then
               ret (Some (ErrorsNew ("communication out of sync, expected 'OK', received '"
                                       ++ m_Message msg ++ "'")))
             else if (m_ProtocolVersion msg >? 1)%Z then
               ret (Some (ErrorsNew ("protocol version not supported: requested 1, got "
                                       ++ Sprintf_d (m_ProtocolVersion msg))))
             else
               Lock ;;
               defer_ Unlock (modDisc (set_state Idling) ;; ret None)
         end ;;
  Run_deferred err.

Definition Start_begin : M (option error) := sendCommand ("START" ++ newline).

Definition Start_end (sc : SelectCase) : M (option error) :=
  r <- waitMessage sc ;;
  match r with
  | (_, Some err) => ret (Some (Wrapf "calling START: " err))
  | (None, None) => panic "nil pointer dereference"
  | (Some msg, None) =>
      if negb (m_EventType msg =? "start") then
        ret (Some (ErrorsNew ("event out of sync, expected 'start', received '"
                                ++ m_EventType msg ++ "'")))
      else if m_Error msg then
        ret (Some (ErrorsNew ("command failed: " ++ m_Message msg)))
      else if negb (ToUpper (m_Message msg) =? "OK") then
        ret (Some (ErrorsNew ("communication out of sync, expected 'OK', received '"
                                ++ m_Message msg ++ "'")))
      else
        Lock ;;
        defer_ Unlock (modDisc (set_state Running) ;; ret None)
  end.

Definition Stop_begin : M (option error) := sendCommand ("STOP" ++ newline).

Definition Stop_end (sc : SelectCase) : M (option error) :=
  r <- waitMessage sc ;;
  match r with
  | (_, Some err) => ret (Some (Wrapf "calling STOP: " err))
  | (None, None) => panic "nil pointer dereference"
  | (Some msg, None) =>
      if negb (m_EventType msg =? "stop") then
        ret (Some (ErrorsNew ("event out of sync, expected 'stop', received '"
                                ++ m_EventType msg ++ "'")))
      else if m_Error msg then
        ret (Some (ErrorsNew ("command failed: " ++ m_Message msg)))
      else if negb (ToUpper (m_Message msg) =? "OK") then
        ret (Some (ErrorsNew ("communication out of sync, expected 'OK', received '"
                                ++ m_Message msg ++ "'")))
      else
        Lock ;;
        defer_ Unlock
          (stopSync ;;
           modDisc (set_state Idling) ;;
           ret None)
  end.

(** [Quit] has no result; the error of [sendCommand] is dropped and the one
    of [waitMessage] is only logged.  After the wait come the statements of
    [stopSync], without the mutex, and [killProcess], whose result is
    dropped. *)
Definition Quit_begin : M unit := sendCommand ("QUIT" ++ newline) ;; ret tt.

Definition Quit_wait (sc : SelectCase) : M unit := waitMessage sc ;; ret tt.

Definition Quit_kill : M unit := killProcess ;; ret tt.

Definition List_begin : M (option error) := sendCommand ("LIST" ++ newline).

Definition List_end (sc : SelectCase) : M (list (option Port) * option error) :=
  r <- waitMessage sc ;;
  match r with
  | (_, Some err) => ret ([], Some (Wrapf "calling LIST: " err))
  | (None, None) => panic "nil pointer dereference"
  | (Some msg, None) =>
      if negb (m_EventType msg =? "list") then
        ret ([], Some (ErrorsNew ("event out of sync, expected 'list', received '"
                                    ++ m_EventType msg ++ "'")))
      else if m_Error msg then
        ret ([], Some (ErrorsNew ("command failed: " ++ m_Message msg)))
      else
        ret (m_Ports msg, None)
  end.

(** [StartSync] takes the mutex before it sends and holds it until it
    returns (or panics). *)
Definition StartSync_begin : M (option error) :=
  Lock ;;
  r <- on_panic Unlock (sendCommand ("START_SYNC" ++ newline)) ;;
  match r with
  | Some err => Unlock ;; ret (Some err)
  | None => ret None
  end.

Definition StartSync_end (size : Z) (sc : SelectCase) : M (option nat * option error) :=
  defer_ Unlock
    (r <- waitMessage sc ;;
     match r with
     | (_, Some err) => ret (None, Some (Wrapf "calling START_SYNC: " err))
     | (None, None) => panic "nil pointer dereference"
     | (Some msg, None) =>
         if negb (m_EventType msg =? "start_sync") then
           ret (None, Some (ErrorsNew ("evemt out of sync, expected 'start_sync', received '"
                                         ++ m_EventType msg ++ "'")))
         else if m_Error msg then
           ret (None, Some (ErrorsNew ("command failed: " ++ m_Message msg)))
         else if negb (ToUpper (m_Message msg) =? "OK") then
           ret (None, Some (ErrorsNew ("communication out of sync, expected 'OK', received '"
                                         ++ m_Message msg ++ "'")))
         else
           modDisc (set_state Syncing) ;;
           stopSync ;;
           c <- make_chan_Event size ;;
           modDisc (set_eventChan (Some c)) ;;
           ret (Some c, None)
     end).

(** ** Transitions of the system *)

(** The transitions of the goroutines.  [Loop outChan d] is an iteration of
    the decode loop started with [outChan], on decoder result [d];
    [LoopCheck], [LoopEval] and [LoopSend] are an iteration on a port event
    taken apart.  [QuitWait] to [QuitKill] are the statements of [Quit]
    after QUIT was sent.  [Receive ch] is the consumer of event channel
    [ch]. *)
Inductive Step : Type :=
| DoSetUserAgent (agent : string)
| DoState
| RunBegin | RunEnd (sc : SelectCase)
| StartBegin | StartEnd (sc : SelectCase)
| StopBegin | StopEnd (sc : SelectCase)
| ListBegin | ListEnd (sc : SelectCase)
| StartSyncBegin | StartSyncEnd (size : Z) (sc : SelectCase)
| QuitBegin | QuitWait (sc : SelectCase)
| QuitCheck | QuitSend | QuitClose | QuitNil | QuitKill
| Loop (outChan : nat) (d : Decoded)
| LoopCheck (outChan : nat) (msg : discoveryMessage) | LoopEval | LoopSend
| Receive (ch : nat).

#[global] Instance QuitPC_eq_dec : EqDecision QuitPC.
Proof. solve_decision. Defined.

(** The caller of [Quit] is at statement [pc]. *)
Definition at_Quit (pc : QuitPC) : M unit :=
  q <- getQuitting ;;
  if decide (q = pc) then ret tt else blocked.

(** The loop started with [outChan] is not inside its critical section. *)
Definition at_head (outChan : nat) : M unit :=
  pc <- getDelivering ;;
  match pc with
  | NotDelivering => ret tt
  | Checked o _ _ | Evaluated o _ _ => if (o =? outChan)%nat then blocked else ret tt
  end.

Definition step (s : Step) : M unit :=
  match s with
  | DoSetUserAgent agent => SetUserAgent agent
  | DoState => State_ ;; ret tt
  | RunBegin => Run_begin ;; ret tt
  | RunEnd sc => Run_end sc ;; ret tt
  | StartBegin => Start_begin ;; ret tt
  | StartEnd sc => Start_end sc ;; ret tt
  | StopBegin => Stop_begin ;; ret tt
  | StopEnd sc => Stop_end sc ;; ret tt
  | ListBegin => List_begin ;; ret tt
  | ListEnd sc => List_end sc ;; ret tt
  | StartSyncBegin => StartSync_begin ;; ret tt
  | StartSyncEnd size sc => StartSync_end size sc ;; ret tt
  | QuitBegin => Quit_begin ;; goto_Quit AtWait
  | QuitWait sc => at_Quit AtWait ;; Quit_wait sc ;; goto_Quit AtCheck
  | QuitCheck =>
      at_Quit AtCheck ;;
      registered <- stopSync_check ;;
      goto_Quit (if registered then AtSend else AtKill)
  | QuitSend => at_Quit AtSend ;; stopSync_send ;; goto_Quit AtClose
  | QuitClose => at_Quit AtClose ;; stopSync_close ;; goto_Quit AtNil
  | QuitNil => at_Quit AtNil ;; stopSync_nil ;; goto_Quit AtKill
  | QuitKill => at_Quit AtKill ;; Quit_kill ;; goto_Quit NotQuitting
  | Loop outChan d => at_head outChan ;; jsonDecodeLoop_iter outChan d ;; ret tt
  | LoopCheck outChan msg => at_head outChan ;; jsonDecodeLoop_check outChan msg
  | LoopEval => deliver_eval
  | LoopSend => deliver_send
  | Receive ch => receive_Event ch
  end.

Fixpoint steps (l : list Step) : M unit :=
  match l with
  | [] => ret tt
  | s :: l' => step s ;; steps l'
  end.

(** A world in which nothing ran yet. *)
Definition boot (c : Client) (o : OS) : World :=
  {| disc := c; msgChans := []; eventChans := []; procs := []; os := o;
     delivering := NotDelivering; quitting := NotQuitting |}.

(** ** dummy-discovery/main.go *)

Module Dummy.

Record DummyDiscovery : Type := {
  startSyncCount : Z;
  closeChan : option nat
}.

(** The process of the dummy discovery: the [DummyDiscovery] value that
    [main] makes, the package variable [dummyCounter], the number of
    channels made so far, the emitter goroutines started (each by the
    channel it listens on) and the channels on which [Stop] sent [true]. *)
Record World : Type := {
  d : DummyDiscovery;
  dummyCounter : Z;
  chans : nat;
  emitters : list nat;
  stopped : list nat
}.

(** [&DummyDiscovery{}] in a fresh process. *)
Definition main : World :=
  {| d := {| startSyncCount := 0; closeChan := None |};
     dummyCounter := 0; chans := 0; emitters := []; stopped := [] |}.

Definition Hello (userAgent : string) (protocol : Z) (w : World) : option error * World :=
  (None, w).

Definition Quit (w : World) : World := w.

Definition Stop (w : World) : option error * World :=
  match closeChan (d w) with
  | Some c =>
      (None,
       {| d := {| startSyncCount := startSyncCount (d w); closeChan := None |};
          dummyCounter := dummyCounter w; chans := chans w; emitters := emitters w;
          stopped := stopped w ++ [c] |})
  | None => (None, w)
  end.

(** [StartSync] up to [go func() {...}()]: the emitter is started on the new
    channel. *)
Definition StartSync (w : World) : option error * World :=
  let count := wrap64 (startSyncCount (d w) + 1) in
  if (Z.rem count 5 =? 0)%Z then
    (Some (ErrorsNew "could not start_sync every 5 times"),
     {| d := {| startSyncCount := count; closeChan := closeChan (d w) |};
        dummyCounter := dummyCounter w; chans := chans w; emitters := emitters w;
        stopped := stopped w |})
  else
    let c := chans w in
    (None,
     {| d := {| startSyncCount := count; closeChan := Some c |};
        dummyCounter := dummyCounter w; chans := S (chans w);
        emitters := emitters w ++ [c]; stopped := stopped w |}).

(** [properties.NewFromHashmap] lists the entries in the order in which the
    runtime iterates the Go map, and that order is not fixed: [order] picks
    one of the orders of [entries]. *)
Definition NewFromHashmap (order : nat) (entries : list (string * string)) :
    list (string * string) :=
  default entries (permutations entries !! order).

(** [dummyCounter] is a variable of the package: the call finds the value the
    last call left, whichever goroutine made it. *)
Definition CreateDummyPort (order : nat) (dummyCounter : Z) : Port * Z :=
  let dummyCounter := wrap64 (dummyCounter + 1) in
  ({| Address := Sprintf_d dummyCounter;
      AddressLabel := "Dummy upload port";
      Protocol := "dummy";
      ProtocolLabel := "Dummy protocol";
      Properties := NewFromHashmap order
                      [("vid", "0x2341"); ("pid", "0x0041");
                       ("mac", Sprintf_d (wrap64 (dummyCounter * 384782)))] |},
   dummyCounter).

(** What the emitter calls: [eventCB(type, port)] and [errorCB(message)]. *)
Inductive Emission : Type :=
| EventCB (type : string) (port : Port)
| ErrorCB (message : string).

(** The case a [select] of the emitter takes. *)
Inductive Select : Type := CloseChan | After2s.

(** The [n]-th call of [CreateDummyPort] by an emitter.  Every [StartSync]
    that is accepted starts an emitter and [Stop] reaches only the last one,
    so other emitters may run: [others n] is the number of calls they make
    between the call before and this one, and [order n] the order of the
    properties of the port. *)
Definition nextPort (others order : nat -> nat) (n : nat) (dummyCounter : Z) : Port * Z :=
  CreateDummyPort (order n)
    (Nat.iter (others n) (fun c => snd (CreateDummyPort 0 c)) dummyCounter).

(** The [for count < 2] of the emitter with [left = 2 - count] rounds to go;
    [sel k] is the case taken by the [k]-th [select] the emitter reaches and
    [n] counts its calls of [CreateDummyPort].  The result is what was
    emitted, oldest first, and [dummyCounter]. *)
Fixpoint emit_rounds (left : nat) (sel : nat -> Select) (others order : nat -> nat)
    (k n : nat) (dummyCounter : Z) (out : list Emission) : list Emission * Z :=
  match left with
  | O => ((out ++ [ErrorCB "unrecoverable error, cannot send more events"])%list, dummyCounter)
  | S left' =>
      match sel k with
      | CloseChan => (out, dummyCounter)
      | After2s =>
          let (port, dummyCounter) := nextPort others order n dummyCounter in
          let out := (out ++ [EventCB "add" port])%list in
          match sel (S k) with
          | CloseChan => (out, dummyCounter)
          | After2s =>
              let out := (out ++ [EventCB "remove"
                                    {| Address := Address port; AddressLabel := EmptyString;
                                       Protocol := Protocol port;
                                       ProtocolLabel := EmptyString; Properties := [] |}])%list in
              emit_rounds left' sel others order (S (S k)) (S n) dummyCounter out
          end
      end
  end.

(** The goroutine started by [StartSync]. *)
Definition emitter (sel : nat -> Select) (others order : nat -> nat) (dummyCounter : Z) :
    list Emission * Z :=
  let (p1, dummyCounter) := nextPort others order 0 dummyCounter in
  let (p2, dummyCounter) := nextPort others order 1 dummyCounter in
  emit_rounds 2 sel others order 0 2 dummyCounter [EventCB "add" p1; EventCB "add" p2].

(** The calls the server makes on the discovery. *)
Inductive Call : Type :=
| CallHello (userAgent : string) (protocol : Z)
| CallQuit
| CallStop
| CallStartSync.

Definition call (c : Call) (w : World) : option error * World :=
  match c with
  | CallHello userAgent protocol => Hello userAgent protocol w
  | CallQuit => (None, Quit w)
  | CallStop => Stop w
  | CallStartSync => StartSync w
  end.

Definition calls (l : list Call) (w : World) : World :=
  fold_left (fun w c => snd (call c w)) l w.

Definition is_StartSync (c : Call) : bool :=
  match c with CallStartSync => true | _ => false end.

End Dummy.

(** * The vocabulary of the properties *)

(** The number of [StartSync] calls among [l]. *)
Definition StartSync_calls (l : list Dummy.Call) : nat :=
  length (List.filter Dummy.is_StartSync l).

(** The decode loop has [m] on offer on the channel the client waits on. *)
Definition offers (w : World) (m : discoveryMessage) : Prop :=
  exists ch, incomingMessagesChan (disc w) = Some ch /\ msgChans w !! ch = Some (MOffer m).

(** The world after the offered message was taken. *)
Definition taken (w : World) : World :=
  match incomingMessagesChan (disc w) with
  | Some ch => set_msgChans (<[ch := MEmpty]> (msgChans w)) w
  | None => w
  end.

(** The channel the client waits on is closed. *)
Definition hung_up (w : World) : Prop :=
  exists ch, incomingMessagesChan (disc w) = Some ch /\ msgChans w !! ch = Some MClosed.

(** The error of [waitMessage] when the timer fires. *)
Definition timeout_error (c : Client) : error :=
  ErrorsNew ("timeout waiting for message from " ++ disc_id c).

(** [s] is "OK" up to the case of its letters. *)
Definition case_insensitive_OK (s : string) : Prop :=
  s = "OK" \/ s = "Ok" \/ s = "oK" \/ s = "ok".

Definition stop_Event (c : Client) : Event :=
  {| e_Type := "stop"; e_Port := None; e_DiscoveryID := disc_id c |}.

(** The registered event channel, when there is one, exists and is open. *)
Definition eventChan_ok (w : World) : Prop :=
  forall ch, eventChan (disc w) = Some ch ->
             exists c, eventChans w !! ch = Some c /\ closed c = false.

(** The registered event channel, when there is one, can take [n] more
    events: the sends complete without waiting for the consumer. *)
Definition room (n : nat) (w : World) : Prop :=
  forall ch c, eventChan (disc w) = Some ch -> eventChans w !! ch = Some c ->
    (Z.of_nat (length (sent c)) + Z.of_nat n <= Z.of_nat (wanted c) + cap c)%Z.

(** An event channel is registered and open, and it has no room: its buffer
    is full and the consumer has taken every event it asked for. *)
Definition full (w : World) : Prop :=
  exists ch c, eventChan (disc w) = Some ch /\ eventChans w !! ch = Some c
               /\ closed c = false /\ has_room c = false.

(** The event channels after the registered one got its "stop" event and was
    closed. *)
Definition flushed_chans (w : World) : list EventChan :=
  match eventChan (disc w) with
  | Some ch =>
      match eventChans w !! ch with
      | Some c => <[ch := {| cap := cap c; sent := sent c ++ [stop_Event (disc w)];
                             wanted := wanted c; closed := true |}]> (eventChans w)
      | None => eventChans w
      end
  | None => eventChans w
  end.

(** The world [stopSync] leaves. *)
Definition flush (w : World) : World :=
  match eventChan (disc w) with
  | Some _ => upd_disc (set_eventChan None) (set_eventChans (flushed_chans w) w)
  | None => w
  end.

(** The calls [killProcess] makes on the process, with their results. *)
Definition kill_calls (o : OS) : list (ProcessCall * option error) :=
  match Kill_err o with
  | Some e => [(CallKill, Some e)]
  | None => [(CallKill, None); (CallWait, Wait_err o)]
  end.

(** What [killProcess] returns on a process. *)
Definition kill_result (o : OS) : option error :=
  match Kill_err o with
  | Some e => Some e
  | None => Wait_err o
  end.

Definition add_calls (l : list (ProcessCall * option error)) (p : Process) : Process :=
  {| p_args := p_args p; p_stdin := p_stdin p; p_calls := p_calls p ++ l;
     p_decodeLoop := p_decodeLoop p |}.

(** The world [killProcess] leaves when the client has a process. *)
Definition killed_world (proc : nat) (w : World) : World :=
  let w1 := set_procs (alter (add_calls (kill_calls (os w))) proc (procs w)) w in
  match kill_result (os w) with
  | Some _ => w1
  | None => upd_disc (set_state Dead) (flush w1)
  end.

(** The conditions [Run] puts on the reply to HELLO. *)
Definition hello_ok (m : discoveryMessage) : Prop :=
  m_EventType m = "hello"
  /\ m_Error m = false
  /\ case_insensitive_OK (m_Message m)
  /\ (m_ProtocolVersion m <= 1)%Z.

(** The line [Run] sends. *)
Definition HELLO_line (c : Client) : string :=
  "HELLO 1 " ++ dquote ++ "arduino-cli " ++ userAgent c ++ dquote ++ newline.

(** The line with the identifier of the client in the place of
    "arduino-cli". *)
Definition HELLO_line_with_id (c : Client) : string :=
  "HELLO 1 " ++ dquote ++ disc_id c ++ " " ++ userAgent c ++ dquote ++ newline.

(** The process [runProcess] makes and starts. *)
Definition started_Process (w : World) : Process :=
  {| p_args := processArgs (disc w); p_stdin := EmptyString;
     p_calls := [(CallStart, None)]; p_decodeLoop := Some (length (msgChans w)) |}.

(** The conditions [Start], [Stop] and [StartSync] put on their reply, for
    the event type [type]. *)
Definition reply_ok (type : string) (m : discoveryMessage) : Prop :=
  m_EventType m = type /\ m_Error m = false /\ case_insensitive_OK (m_Message m).

(** The [select] of [waitMessage] can take case [sc] in world [w]. *)
Inductive ready (w : World) : SelectCase -> Prop :=
| ready_after : ready w CaseAfter
| ready_offer (m : discoveryMessage) : offers w m -> ready w CaseRecv
| ready_closed : hung_up w -> ready w CaseRecv.

Definition is_port_event (m : discoveryMessage) : Prop :=
  m_EventType m = "add" \/ m_EventType m = "remove".

(** The error the loop records for an "add" or "remove" without port. *)
Definition missing_port (m : discoveryMessage) : error :=
  ErrorsNew ("invalid '" ++ m_EventType m ++ "' message: missing port").

(** The event the loop makes of an "add" or "remove" envelope. *)
Definition Event_of (c : Client) (m : discoveryMessage) : Event :=
  {| e_Type := m_EventType m; e_Port := m_Port m; e_DiscoveryID := disc_id c |}.

(** The world [closeAndReportError] leaves. *)
Definition reported (outChan : nat) (err : error) (w : World) : World :=
  set_msgChans (<[outChan := MClosed]> (msgChans w))
    (upd_disc (set_statusMutex false)
       (upd_disc (set_incomingMessagesError (Some err))
          (upd_disc (set_state Dead) (upd_disc (set_statusMutex true) w)))).

(** The world [deliver] leaves. *)
Definition delivered (ev : Event) (w : World) : World :=
  match eventChan (disc w) with
  | Some ch =>
      match eventChans w !! ch with
      | Some c =>
          upd_disc (set_statusMutex false)
            (set_eventChans
               (<[ch := {| cap := cap c; sent := sent c ++ [ev]; wanted := wanted c;
                           closed := false |}]>
                  (eventChans w))
               (upd_disc (set_statusMutex true) w))
      | None => w
      end
  | None => upd_disc (set_statusMutex false) (upd_disc (set_statusMutex true) w)
  end.

(** The transition left the registration and the event channels alone, and
    the decode loops where they were in their critical section. *)
Definition ev_eq (w w' : World) : Prop :=
  eventChan (disc w') = eventChan (disc w)
  /\ eventChans w' = eventChans w
  /\ disc_id (disc w') = disc_id (disc w)
  /\ delivering w' = delivering w.

(** [R] holds between a world and any world the transition leaves. *)
Definition always {A} (R : World -> World -> Prop) (c : M A) : Prop :=
  forall w w', world_of (c w) = Some w' -> R w w'.

Definition no_stop (l : list Event) : Prop := Forall (fun e => e_Type e <> "stop") l.

(** A channel in use: open, and no "stop" event was sent on it. *)
Definition live (c : EventChan) : Prop := closed c = false /\ no_stop (sent c).

(** A channel that was given up: closed, and the last event sent on it is
    its only "stop" event. *)
Definition retired (c : EventChan) : Prop :=
  closed c = true
  /\ exists evs ev, sent c = (evs ++ [ev])%list /\ e_Type ev = "stop" /\ no_stop evs.

(** The registered channel is in use and every other channel ever made was
    given up in order. *)
Definition closed_once (w : World) : Prop :=
  (forall ch, eventChan (disc w) = Some ch ->
              exists c, eventChans w !! ch = Some c /\ live c)
  /\ (forall ch c, eventChans w !! ch = Some c -> eventChan (disc w) <> Some ch -> retired c).

Definition keeps (w w' : World) : Prop := closed_once w -> closed_once w'.

(** An "add" or "remove" event with its port, from the client [id]. *)
Definition port_Event (id : string) (ev : Event) : Prop :=
  e_DiscoveryID ev = id
  /\ (e_Type ev = "add" \/ e_Type ev = "remove")
  /\ e_Port ev <> None.

(** What a decode loop is about to send is an "add" or "remove" event with
    its port. *)
Definition pending_ok (w : World) : Prop :=
  match delivering w with
  | NotDelivering => True
  | Checked _ type port => (type = "add" \/ type = "remove") /\ port <> None
  | Evaluated _ _ ev => port_Event (disc_id (disc w)) ev
  end.

Definition keeps_pending (w w' : World) : Prop := pending_ok w -> pending_ok w'.

(** The transition left the decode loops where they were, and the
    identifier of the client alone. *)
Definition pending_eq (w w' : World) : Prop :=
  delivering w' = delivering w /\ disc_id (disc w') = disc_id (disc w).

(** [stopSync] and the registration of a new channel that follows it in
    [StartSync]. *)
Definition replace_chan (size : Z) : M (option nat * option error) :=
  stopSync ;;
  c <- make_chan_Event size ;;
  modDisc (set_eventChan (Some c)) ;;
  ret (Some c, None).

(** The event channels after [replace_chan]. *)
Definition replaced_chans (size : Z) (w : World) : list EventChan :=
  (flushed_chans w ++ [{| cap := size; sent := []; wanted := 0; closed := false |}])%list.

(** The transition left the registration alone. *)
Definition keeps_reg (w w' : World) : Prop := eventChan (disc w') = eventChan (disc w).

(** The transitions that may come between the end of a [StartSync] and the
    end of the next one, when no other method is called: iterations of the
    decode loop, receives of the consumer and the first half of the next
    [StartSync]. *)
Definition between (s : Step) : bool :=
  match s with
  | Loop _ _ | StartSyncBegin | Receive _ => true
  | _ => false
  end.

(** The worlds a client can get into: made by [NewClient] in a world where
    nothing ran, then any transitions of its methods and of decode loops,
    with an operating system that may change its answers. *)
Inductive reachable : World -> Prop :=
| reachable_boot (id : string) (args : list string) (o : OS) :
    reachable (boot (NewClient id args) o)
| reachable_step (s : Step) (w w' : World) :
    reachable w -> world_of (step s w) = Some w' -> reachable w'
| reachable_os (o : OS) (w : World) :
    reachable w -> reachable (set_os o w).

(** The statements of [stopSync] that [Quit] executes without the mutex. *)
Definition unlocked (s : Step) : bool :=
  match s with
  | QuitSend | QuitClose | QuitNil => true
  | _ => false
  end.

(** The other transitions: they run under the mutex or touch no event
    channel. *)
Definition locked (s : Step) : bool := negb (unlocked s).

(** The worlds a client can get into by the transitions for which [ok]
    holds. *)
Inductive reachable_by (ok : Step -> bool) : World -> Prop :=
| reachable_by_boot (id : string) (args : list string) (o : OS) :
    reachable_by ok (boot (NewClient id args) o)
| reachable_by_step (s : Step) (w w' : World) :
    ok s = true -> reachable_by ok w -> world_of (step s w) = Some w' -> reachable_by ok w'
| reachable_by_os (o : OS) (w : World) :
    reachable_by ok w -> reachable_by ok (set_os o w).

(** An event channel is registered. *)
Definition registered (w : World) : bool :=
  match eventChan (disc w) with
  | Some _ => true
  | None => false
  end.

(** The transitions of [Quit] after QUIT was sent, in their order, when
    [stopSync] finds a channel registered and when it finds none. *)
Definition Quit_rest (sc : SelectCase) (registered : bool) : list Step :=
  ([QuitWait sc; QuitCheck]
   ++ (if registered then [QuitSend; QuitClose; QuitNil] else [])
   ++ [QuitKill])%list.

(** ** The worlds of the examples *)

(** An operating system on which every call succeeds, one on which [Kill]
    fails and one on which [Wait] reports how the process ended. *)
Definition OS_ok : OS :=
  {| NewProcess_err := None; StdoutPipe_err := None; StdinPipe_err := None;
     Start_err := None; Kill_err := None; Wait_err := None; Write_script := [] |}.

Definition OS_kill_fails : OS :=
  {| NewProcess_err := None; StdoutPipe_err := None; StdinPipe_err := None;
     Start_err := None; Kill_err := Some (Foreign "os: process already finished");
     Wait_err := None; Write_script := [] |}.

Definition OS_wait_fails : OS :=
  {| NewProcess_err := None; StdoutPipe_err := None; StdinPipe_err := None;
     Start_err := None; Kill_err := None; Wait_err := Some (Foreign "signal: killed");
     Write_script := [] |}.

Definition client0 : Client := NewClient "dummy" ["dummy-discovery"].

Definition fresh_world : World := boot client0 OS_ok.

(** The world after [client0] and its decode loops made the transitions [l]
    on the operating system [o]. *)
Definition run_on (o : OS) (l : list Step) : World :=
  world_or (boot client0 o) (steps l (boot client0 o)).

(** The first process of a world. *)
Definition proc0 (w : World) : Process :=
  default {| p_args := []; p_stdin := EmptyString; p_calls := []; p_decodeLoop := None |}
          (procs w !! 0%nat).

(** Envelopes. *)
Definition envelope (type message : string) (ver : Z) (ports : list (option Port))
    (port : option Port) : discoveryMessage :=
  {| m_EventType := type; m_Message := message; m_Error := false;
     m_ProtocolVersion := ver; m_Ports := ports; m_Port := port |}.

Definition reply (type : string) (ver : Z) : Decoded := Value (envelope type "OK" ver [] None).

Definition port_event (type : string) (p : option Port) : Decoded :=
  Value (envelope type EmptyString 0 [] p).

Definition aPort (addr : string) : Port :=
  {| Address := addr; AddressLabel := "label"; Protocol := "dummy";
     ProtocolLabel := "Dummy protocol"; Properties := [] |}.

Definition two_ports : list (option Port) := [Some (aPort "b"); Some (aPort "a")].

Definition hello_reply (ver : Z) : discoveryMessage := envelope "hello" "Ok" ver [] None.
Definition list_reply : discoveryMessage := envelope "list" EmptyString 0 two_ports None.
Definition quit_reply : discoveryMessage := envelope "quit" "OK" 0 [] None.

(** Runs of the client. *)
Definition handshake : list Step :=
  [RunBegin; Loop 0%nat (reply "hello" 1); RunEnd CaseRecv].

Definition sync_start : list Step :=
  [StartSyncBegin; Loop 0%nat (reply "start_sync" 0); StartSyncEnd 10 CaseRecv].

Definition add_1 : Step := Loop 0%nat (port_event "add" (Some (aPort "1"))).

(** The scenario of the specification: handshake, [Start], [StartSync],
    two "add" events and a "remove", [Stop], [Quit], end of the output. *)
Definition scenario : list Step :=
  (handshake
   ++ [StartBegin; Loop 0%nat (reply "start" 0); StartEnd CaseRecv]
   ++ sync_start
   ++ [add_1; Loop 0%nat (port_event "add" (Some (aPort "2")));
       StopBegin; Loop 0%nat (port_event "remove" (Some (aPort "1")));
       Loop 0%nat (reply "stop" 0); StopEnd CaseRecv;
       QuitBegin; Loop 0%nat (reply "quit" 0)]
   ++ Quit_rest CaseRecv false
   ++ [Loop 0%nat (Failure EOF)])%list.

(** After the handshake: state [Idling], nothing on offer. *)
Definition idle_world : World := run_on OS_ok handshake.

(** [Run] sent HELLO and waits. *)
Definition hello_sent_world (o : OS) : World := run_on o [RunBegin].

(** [Run] waits and the reply to HELLO is on offer. *)
Definition hello_world (ver : Z) : World :=
  run_on OS_ok [RunBegin; Loop 0%nat (Value (hello_reply ver))].

(** [List] waits and its reply is on offer. *)
Definition listing_world : World :=
  run_on OS_ok (handshake ++ [ListBegin; Loop 0%nat (Value list_reply)])%list.



(** State [Idling]; [Quit] sent QUIT and waits. *)
Definition quit_sent_world : World := run_on OS_ok (handshake ++ [QuitBegin])%list.

(** State [Syncing] with an event on the channel; [Quit] waits and its reply
    is on offer. *)
Definition quitting_world (o : OS) : World :=
  run_on o (handshake ++ sync_start
            ++ [add_1; QuitBegin; Loop 0%nat (Value quit_reply)])%list.

(** The handshake, a [StartSync] with its reply, an "add" event and then the
    end of the output of the subprocess. *)
Definition sync_then_EOF : list Step :=
  (handshake ++ sync_start ++ [add_1; Loop 0%nat (Failure EOF)])%list.

(** Two calls of [StartSync] with an event between them. *)
Definition first_sync : list Step :=
  (handshake ++ [StartSyncBegin; Loop 0%nat (reply "start_sync" 0)])%list.

Definition second_sync : list Step :=
  [add_1; StartSyncBegin; Loop 0%nat (reply "start_sync" 0)].

Definition before_first : World := run_on OS_ok first_sync.
Definition after_first : World := world_or fresh_world (StartSync_end 5 CaseRecv before_first).
Definition before_second : World := world_or fresh_world (steps second_sync after_first).
Definition after_second : World := world_or fresh_world (StartSync_end 7 CaseRecv before_second).

(** Calls on the dummy discovery, the last of them the fourth [StartSync]. *)
Definition five_calls : list Dummy.Call :=
  [Dummy.CallHello "agent" 1; Dummy.CallStartSync; Dummy.CallStartSync; Dummy.CallStop;
   Dummy.CallStartSync; Dummy.CallStartSync].

(** ** The vocabulary of the further properties *)

(** The dummy discovery: the ports of the "add" events among [l]. *)
Definition added (l : list Dummy.Emission) : list Port :=
  omap (fun e => match e with
                 | Dummy.EventCB type port => if type =? "add" then Some port else None
                 | Dummy.ErrorCB _ => None
                 end) l.

Definition is_ErrorCB (e : Dummy.Emission) : bool :=
  match e with Dummy.ErrorCB _ => true | Dummy.EventCB _ _ => false end.


(** Reading a decimal number back. *)
Definition Atoi (s : string) : option Z := Z.of_int <$> NilZero.int_of_string s.

(** The emitter channels the discovery holds or has signalled are channels
    of emitters it started, no channel was signalled twice, and the one it
    holds was not signalled. *)
Definition emitters_ok (w : Dummy.World) : Prop :=
  NoDup (Dummy.emitters w)
  /\ NoDup (Dummy.stopped w)
  /\ (forall c, In c (Dummy.emitters w) -> (c < Dummy.chans w)%nat)
  /\ (forall c, In c (Dummy.stopped w) -> In c (Dummy.emitters w))
  /\ (forall c, Dummy.closeChan (Dummy.d w) = Some c ->
                In c (Dummy.emitters w) /\ ~ In c (Dummy.stopped w)).

(** An emitter that runs and that the discovery cannot reach any more. *)
Definition abandoned (c : nat) (w : Dummy.World) : Prop :=
  In c (Dummy.emitters w)
  /\ ~ In c (Dummy.stopped w)
  /\ Dummy.closeChan (Dummy.d w) <> Some c.

(** What a transition does to the mutex when it returns: it leaves it as
    it was; it leaves it free; it leaves it free when it was free. *)
Definition keeps_mutex {A} (c : M A) : Prop :=
  forall w a w', c w = Ret a w' -> statusMutex (disc w') = statusMutex (disc w).

Definition frees_mutex {A} (c : M A) : Prop :=
  forall w a w', c w = Ret a w' -> statusMutex (disc w') = false.

Definition hands_back_mutex {A} (c : M A) : Prop :=
  forall w a w', c w = Ret a w' ->
    statusMutex (disc w) = false -> statusMutex (disc w') = false.

(** The error [runProcess] returns: the first one among the calls it
    makes, in their order. *)
Definition runProcess_error (o : OS) : option error :=
  match NewProcess_err o with
  | Some e => Some e
  | None =>
      match StdoutPipe_err o with
      | Some e => Some e
      | None =>
          match StdinPipe_err o with
          | Some e => Some e
          | None => Start_err o
          end
      end
  end.

(** The iterations of the decode loop started with [outChan] on the
    envelopes [ms]. *)
Definition Loops (outChan : nat) (ms : list discoveryMessage) : list Step :=
  map (fun m => Loop outChan (Value m)) ms.

(** The channel the client waits on exists, and an error is recorded
    whenever a channel of a decode loop is closed. *)
Definition wired (w : World) : Prop :=
  (forall ch, incomingMessagesChan (disc w) = Some ch -> (ch < length (msgChans w))%nat)
  /\ (forall ch, msgChans w !! ch = Some MClosed ->
                 incomingMessagesError (disc w) <> None).

Definition keeps_wired (w w' : World) : Prop := wired w -> wired w'.

(** The transition left the channels of the decode loops and what the
    client knows of them alone. *)
Definition msg_eq (w w' : World) : Prop :=
  incomingMessagesChan (disc w') = incomingMessagesChan (disc w)
  /\ incomingMessagesError (disc w') = incomingMessagesError (disc w)
  /\ msgChans w' = msgChans w.

(** The panics of a transition all have a reason for which [P] holds. *)
Definition panics_with (P : string -> Prop) {A} (c : M A) : Prop :=
  forall w why w', c w = Panic why w' -> P why.

(** A panic that does not come from reading through a nil pointer. *)
Definition not_nil (why : string) : Prop := why <> "nil pointer dereference".

(** The states a transition can move the client to. *)
Definition targets (s : Step) : list State :=
  match s with
  | RunBegin => [Alive; Dead]
  | RunEnd _ => [Idling; Dead]
  | StartEnd _ => [Running]
  | StopEnd _ => [Idling]
  | StartSyncEnd _ _ => [Syncing]
  | QuitKill => [Dead]
  | Loop _ _ => [Dead]
  | _ => []
  end.

(** The state is as it was or is one of [S]. *)
Definition state_moves (S : list State) (w w' : World) : Prop :=
  state (disc w') = state (disc w) \/ In (state (disc w')) S.

(** The transition left the [Client] alone. *)
Definition disc_eq (w w' : World) : Prop := disc w' = disc w.

(** An event as the client makes them: it has the identifier of the client;
    a "stop" event has no port, and an "add" or "remove" event has one. *)
Definition Event_ok (id : string) (e : Event) : Prop :=
  e_DiscoveryID e = id
  /\ ((e_Type e = "stop" /\ e_Port e = None)
      \/ ((e_Type e = "add" \/ e_Type e = "remove") /\ e_Port e <> None)).

Definition events_ok (w : World) : Prop :=
  forall ch c, eventChans w !! ch = Some c -> Forall (Event_ok (disc_id (disc w))) (sent c).

Definition keeps_events_ok (w w' : World) : Prop := events_ok w -> events_ok w'.

(** Process [i] is as [p] says and the client has neither its handle nor
    its pipe. *)
Definition out_of_reach (i : nat) (p : Process) (w : World) : Prop :=
  procs w !! i = Some p
  /\ process (disc w) <> Some i
  /\ outgoingCommandsPipe (disc w) <> Some i.

Definition keeps_out_of_reach (i : nat) (p : Process) (w w' : World) : Prop :=
  out_of_reach i p w -> out_of_reach i p w'.

(** The transition left the processes and what the client knows of them
    alone. *)
Definition proc_eq (w w' : World) : Prop :=
  procs w' = procs w
  /\ process (disc w') = process (disc w)
  /\ outgoingCommandsPipe (disc w') = outgoingCommandsPipe (disc w).

(** The client has a pipe and a process handle if it had them. *)
Definition handles_stay (w w' : World) : Prop :=
  (outgoingCommandsPipe (disc w) <> None -> outgoingCommandsPipe (disc w') <> None)
  /\ (process (disc w) <> None -> process (disc w') <> None).

(** The transitions of the race of [Quit] with the decode loop: after
    [StartSync], [Quit] has sent its "stop" event when the loop delivers an
    "add" event, and then [Quit] closes the channel. *)
Definition Quit_race : list Step :=
  (handshake ++ sync_start
   ++ [QuitBegin; Loop 0%nat (Value quit_reply); QuitWait CaseRecv; QuitCheck; QuitSend;
       add_1; QuitClose; QuitNil; QuitKill])%list.

(** * Properties *)

(** ** The dummy discovery *)

Section DummyStartSync.

Import Dummy.

Lemma wrap64_small (z : Z) : (- 2 ^ 63 <= z < 2 ^ 63)%Z -> wrap64 z = z.
Proof.
  intros H. unfold wrap64.
  rewrite Z.mod_small by lia. lia.
Qed.

Lemma call_startSyncCount (c : Call) (w : World) :
  (0 <= startSyncCount (d w))%Z ->
  (startSyncCount (d w) + (if is_StartSync c then 1 else 0) < 2 ^ 63)%Z ->
  startSyncCount (d (snd (call c w)))
  = (startSyncCount (d w) + (if is_StartSync c then 1 else 0))%Z.
Proof.
  intros H0 H1. destruct c; unfold call, Hello, Quit; cbn [snd fst is_StartSync] in *.
  - lia.
  - lia.
  - unfold Stop. destruct (closeChan (d w)); simpl; lia.
  - unfold StartSync. rewrite wrap64_small by lia.
    destruct (Z.rem _ 5 =? 0)%Z; reflexivity.
Qed.

Lemma calls_startSyncCount (l : list Call) : forall w : World,
  (0 <= startSyncCount (d w))%Z ->
  (startSyncCount (d w) + Z.of_nat (StartSync_calls l) < 2 ^ 63)%Z ->
  startSyncCount (d (calls l w))
  = (startSyncCount (d w) + Z.of_nat (StartSync_calls l))%Z.
Proof.
  unfold calls, StartSync_calls.
  induction l as [|c l IH]; intros w H0 H1; cbn [fold_left List.filter] in *.
  - cbn [length] in *. lia.
  - assert (Hl : Z.of_nat (length (if is_StartSync c
                                   then c :: List.filter is_StartSync l
                                   else List.filter is_StartSync l))
                 = ((if is_StartSync c then 1 else 0)
                    + Z.of_nat (length (List.filter is_StartSync l)))%Z).
    { destruct (is_StartSync c); cbn [length]; lia. }
    rewrite Hl in *.
    assert (Hc : startSyncCount (d (snd (call c w)))
                 = (startSyncCount (d w) + (if is_StartSync c then 1 else 0))%Z).
    { apply call_startSyncCount; [lia|]. destruct (is_StartSync c); lia. }
    rewrite IH; rewrite Hc; destruct (is_StartSync c); lia.
Qed.

(** C10.  From a fresh dummy discovery and after any calls, the next
    [StartSync], the [n]-th one counting itself (with [n] below 2^63, as a
    Go [int] holds it), returns the error "could not start_sync every 5
    times" and starts no emitter when [n] is a multiple of 5, and returns
    [nil] and starts one emitter on a new channel when it is not. *)
Theorem C10_StartSync_fails_every_fifth (l : list Call) :
  let n := Z.of_nat (S (StartSync_calls l)) in
  let w := calls l main in
  (n < 2 ^ 63)%Z ->
  ((n mod 5 = 0)%Z ->
     fst (StartSync w) = Some (ErrorsNew "could not start_sync every 5 times")
     /\ emitters (snd (StartSync w)) = emitters w
     /\ closeChan (d (snd (StartSync w))) = closeChan (d w))
  /\ ((n mod 5 <> 0)%Z ->
       fst (StartSync w) = None
       /\ exists c, closeChan (d (snd (StartSync w))) = Some c
                    /\ emitters (snd (StartSync w)) = (emitters w ++ [c])%list)
  /\ startSyncCount (d (snd (StartSync w))) = n.
Proof.
  intros n w Hn.
  assert (Hc : startSyncCount (d w) = Z.of_nat (StartSync_calls l)).
  { unfold w. rewrite calls_startSyncCount; cbn [main d startSyncCount]; lia. }
  unfold StartSync. rewrite Hc.
  replace (Z.of_nat (StartSync_calls l) + 1)%Z with n by (unfold n; lia).
  rewrite wrap64_small by (unfold n in *; lia).
  rewrite Z.rem_mod_nonneg by (unfold n; lia).
  destruct (Z.eqb_spec (n mod 5) 0) as [E|E]; cbn [fst snd emitters d closeChan startSyncCount].
  - split; [intros _; repeat split|split; [intros E'; contradiction|reflexivity]].
  - split; [intros E'; contradiction|split; [intros _|reflexivity]].
    split; [reflexivity|]. exists (chans w). split; reflexivity.
Qed.

Lemma C10_StartSync_fails_every_fifth_witness :
  fst (StartSync (calls five_calls main))
  = Some (ErrorsNew "could not start_sync every 5 times").
Proof.
  apply (C10_StartSync_fails_every_fifth five_calls).
  - vm_compute. reflexivity.
  - vm_compute. reflexivity.
Defined.

(** C9.  When [StartSync] of the dummy discovery returns [nil] it has started
    an emitter, and whatever the [select]s of that emitter take, whatever
    [dummyCounter] holds and whatever the other emitters do to it: the first
    two things it emits are "add" events, so every "remove" comes after
    them; and every "remove" it emits comes right after an "add" of a port
    with the same address and protocol. *)
Theorem C9_emitter_adds_before_removes (w : World) (sel : nat -> Select)
    (others order : nat -> nat) (counter : Z) :
  fst (StartSync w) = None ->
  (exists c, emitters (snd (StartSync w)) = (emitters w ++ [c])%list)
  /\ (exists p1 p2 rest,
        fst (emitter sel others order counter)
        = EventCB "add" p1 :: EventCB "add" p2 :: rest)
  /\ (forall (i : nat) (p : Port),
        fst (emitter sel others order counter) !! i = Some (EventCB "remove" p) ->
        (2 <= i)%nat)
  /\ (forall (i : nat) (p : Port),
        fst (emitter sel others order counter) !! S i = Some (EventCB "remove" p) ->
        exists q, fst (emitter sel others order counter) !! i = Some (EventCB "add" q)
                  /\ Address q = Address p /\ Protocol q = Protocol p).
Proof.
  intros Hacc. split.
  { revert Hacc. unfold StartSync.
    destruct (Z.rem _ 5 =? 0)%Z; cbn [fst snd emitters]; [discriminate|].
    intros _. eexists. reflexivity. }
  unfold emitter.
  destruct (nextPort others order 0 counter) as [p1 c1].
  destruct (nextPort others order 1 c1) as [p2 c2].
  cbn [emit_rounds].
  repeat match goal with
         | |- context [nextPort others order ?n ?c] =>
             destruct (nextPort others order n c) as [? ?]
         | |- context [sel ?k] => destruct (sel k)
         end;
    cbn [fst snd app];
    (split; [do 3 eexists; reflexivity|]);
    (split; intros i rp H;
     [ do 2 (destruct i as [|i]; [cbn in H; discriminate|]); lia
     | do 7 (destruct i as [|i];
             [cbn in H;
              first [ discriminate
                    | injection H as <-; eexists;
                      split; [reflexivity|split; reflexivity] ]|]);
       cbn in H; discriminate ]).
Qed.

Lemma C9_emitter_adds_before_removes_witness :
  exists q, fst (emitter (fun _ => After2s) (fun _ => 0%nat) (fun _ => 0%nat) 0) !! 2%nat
            = Some (EventCB "add" q)
            /\ Address q = "3" /\ Protocol q = "dummy".
Proof.
  destruct (C9_emitter_adds_before_removes main (fun _ => After2s) (fun _ => 0%nat)
              (fun _ => 0%nat) 0 eq_refl)
    as (_ & _ & _ & H).
  apply (H 2%nat {| Address := "3"; AddressLabel := EmptyString; Protocol := "dummy";
                    ProtocolLabel := EmptyString; Properties := [] |}).
  vm_compute. reflexivity.
Defined.

End DummyStartSync.

(** ** The client: waiting for a reply *)

Lemma waitMessage_recv (w : World) (m : discoveryMessage) :
  offers w m -> waitMessage CaseRecv w = Ret (Some m, None) (taken w).
Proof.
  intros (ch & Hc & Hm). unfold waitMessage, taken, bind, getDisc, recv_Message, ret.
  rewrite Hc, Hm. reflexivity.
Qed.

Lemma waitMessage_closed (w : World) :
  hung_up w -> waitMessage CaseRecv w = Ret (None, incomingMessagesError (disc w)) w.
Proof.
  intros (ch & Hc & Hm). unfold waitMessage, bind, getDisc, recv_Message, ret.
  rewrite Hc, Hm. reflexivity.
Qed.

Lemma waitMessage_after (w : World) :
  waitMessage CaseAfter w = Ret (None, Some (timeout_error (disc w))) w.
Proof. reflexivity. Qed.

(** ** List *)

Lemma sendCommand_disc (cmd : string) (w : World) :
  forall w', world_of (sendCommand cmd w) = Some w' ->
    disc w' = disc w /\ eventChans w' = eventChans w /\ msgChans w' = msgChans w
    /\ delivering w' = delivering w /\ quitting w' = quitting w.
Proof.
  unfold sendCommand. destruct (outgoingCommandsPipe (disc w)) as [pipe|].
  2:{ cbn. intros w' [= <-]. auto 10. }
  assert (G : forall script data w0 w',
             world_of (Write_loop pipe script data w0) = Some w' ->
             disc w' = disc w0 /\ eventChans w' = eventChans w0 /\ msgChans w' = msgChans w0
             /\ delivering w' = delivering w0 /\ quitting w' = quitting w0).
  { induction script as [|[take err] script IH]; intros data w0 w'; cbn [Write_loop].
    - cbn. intros [= <-]. auto 10.
    - destruct err as [e|].
      + cbn. intros [= <-]. auto 10.
      + destruct (_ =? _)%nat.
        * cbn. intros [= <-]. auto 10.
        * intros H. apply IH in H. cbn in H. exact H. }
  apply G.
Qed.

(** C8.  When the reply on offer is a "list" envelope without error, [List]
    returns its [ports] as they are, in their order, and no error; empty or
    absent [ports] give the empty sequence and no error; neither half of
    [List] changes the [Client]. *)
Theorem C8_List_returns_ports (w : World) (m : discoveryMessage) :
  offers w m ->
  m_EventType m = "list" ->
  m_Error m = false ->
  List_end CaseRecv w = Ret (m_Ports m, None) (taken w)
  /\ disc (taken w) = disc w
  /\ (m_Ports m = [] -> List_end CaseRecv w = Ret ([], None) (taken w))
  /\ (forall w1, world_of (List_begin w) = Some w1 -> disc w1 = disc w).
Proof.
  intros Hoff Ht He.
  assert (E : List_end CaseRecv w = Ret (m_Ports m, None) (taken w)).
  { unfold List_end, bind. rewrite (waitMessage_recv w m Hoff).
    rewrite Ht, He. reflexivity. }
  split; [exact E|]. split.
  - unfold taken. destruct (incomingMessagesChan (disc w)); reflexivity.
  - split.
    + intros Hn. rewrite E, Hn. reflexivity.
    + intros w1 H. unfold List_begin in H.
      apply sendCommand_disc in H. tauto.
Qed.

Lemma C8_List_returns_ports_witness :
  List_end CaseRecv listing_world = Ret (two_ports, None) (taken listing_world)
  /\ disc (taken listing_world) = disc listing_world.
Proof.
  destruct (C8_List_returns_ports listing_world list_reply) as (H1 & H2 & _).
  - exists 0%nat. split; vm_compute; reflexivity.
  - reflexivity.
  - reflexivity.
  - split; [exact H1|exact H2].
Defined.

(** ** Case-insensitive "OK" *)

Lemma upper_ascii_O (c : ascii) :
  upper_ascii c = "O"%char <-> c = "O"%char \/ c = "o"%char.
Proof.
  destruct c as [[] [] [] [] [] [] [] []]; vm_compute;
    (split; [ intros H; first [discriminate H | auto]
            | intros [H|H]; first [discriminate H | auto] ]).
Qed.

Lemma upper_ascii_K (c : ascii) :
  upper_ascii c = "K"%char <-> c = "K"%char \/ c = "k"%char.
Proof.
  destruct c as [[] [] [] [] [] [] [] []]; vm_compute;
    (split; [ intros H; first [discriminate H | auto]
            | intros [H|H]; first [discriminate H | auto] ]).
Qed.

Lemma ToUpper_OK (s : string) : ToUpper s = "OK" <-> case_insensitive_OK s.
Proof.
  unfold case_insensitive_OK.
  destruct s as [|c1 [|c2 [|c3 s]]]; cbn [ToUpper].
  - split; [discriminate|intros [H|[H|[H|H]]]; discriminate].
  - split; [discriminate|intros [H|[H|[H|H]]]; discriminate].
  - split.
    + intros [= H1 H2]. apply upper_ascii_O in H1. apply upper_ascii_K in H2.
      destruct H1 as [-> | ->], H2 as [-> | ->]; auto.
    + intros [H|[H|[H|H]]]; injection H as -> ->; reflexivity.
  - split; [discriminate|intros [H|[H|[H|H]]]; discriminate].
Qed.

(** ** Flushing the event channel *)

Lemma room_has_room (w : World) (ch : nat) (c : EventChan) :
  room 1 w -> eventChan (disc w) = Some ch -> eventChans w !! ch = Some c ->
  has_room c = true.
Proof.
  intros Hr E Hc. specialize (Hr ch c E Hc). unfold has_room.
  apply Z.ltb_lt. lia.
Qed.

Lemma stopSync_flush (w : World) :
  eventChan_ok w -> room 1 w -> stopSync w = Ret tt (flush w).
Proof.
  intros Hok Hr. unfold stopSync, flush, flushed_chans, bind, getDisc.
  destruct (eventChan (disc w)) as [ch|] eqn:E; [|reflexivity].
  destruct (Hok ch E) as (c & Hc & Hopen).
  unfold send_Event. rewrite Hc, Hopen, (room_has_room w ch c Hr E Hc).
  unfold close_Event. cbn [eventChans set_eventChans].
  rewrite list_lookup_insert_eq by (eapply lookup_lt_Some; eauto).
  cbn [closed cap sent wanted]. unfold modDisc, GetID, stop_Event.
  rewrite list_insert_insert_eq. reflexivity.
Qed.

(** On a full channel [stopSync] waits in its send. *)
Lemma stopSync_full (w : World) : full w -> stopSync w = Blocked.
Proof.
  intros (ch & c & E & Hc & Hopen & Hf). unfold stopSync, bind, getDisc.
  rewrite E. unfold send_Event. rewrite Hc, Hopen, Hf. reflexivity.
Qed.

Lemma add_call_twice (c1 c2 : ProcessCall) (r1 r2 : option error) (proc : nat)
    (ps : list Process) :
  alter (add_call c2 r2) proc (alter (add_call c1 r1) proc ps)
  = alter (add_calls [(c1, r1); (c2, r2)]) proc ps.
Proof.
  rewrite list_alter_alter_eq. apply list_alter_ext; [|reflexivity].
  intros p _. unfold add_call, add_calls. cbn. rewrite <- app_assoc. reflexivity.
Qed.

Lemma killProcess_killed (w : World) (proc : nat) :
  statusMutex (disc w) = false ->
  eventChan_ok w ->
  room 1 w ->
  process (disc w) = Some proc ->
  killProcess w = Ret (kill_result (os w)) (killed_world proc w).
Proof.
  intros Hm Hok Hr Hp. unfold killProcess, bind, getDisc. rewrite Hp.
  unfold proc_Kill, proc_Wait, proc_call, killed_world, kill_result, kill_calls, ret.
  destruct (Kill_err (os w)) as [e|] eqn:EK.
  - reflexivity.
  - cbn [os set_procs procs]. rewrite add_call_twice.
    destruct (Wait_err (os w)) as [e|] eqn:EW.
    + reflexivity.
    + unfold Lock. cbn [disc set_procs]. rewrite Hm.
      unfold defer_, bind.
      rewrite stopSync_flush by assumption.
      unfold modDisc, ret, Unlock, modDisc.
      destruct w as [[id args pr pipe ich ua mu ierr st ev] mcs ecs ps o dl qt].
      cbn in Hm. subst mu. unfold flush, flushed_chans. cbn.
      destruct ev; reflexivity.
Qed.

Lemma taken_frame (w : World) :
  disc (taken w) = disc w /\ eventChans (taken w) = eventChans w
  /\ procs (taken w) = procs w /\ os (taken w) = os w.
Proof. unfold taken. destruct (incomingMessagesChan (disc w)); auto. Qed.

Lemma flush_frame (w : World) :
  procs (flush w) = procs w /\ os (flush w) = os w /\ msgChans (flush w) = msgChans w
  /\ state (disc (flush w)) = state (disc w)
  /\ statusMutex (disc (flush w)) = statusMutex (disc w)
  /\ eventChan (disc (flush w)) = None.
Proof.
  unfold flush. destruct (eventChan (disc w)) eqn:E; cbn; auto 10.
Qed.

Lemma killed_world_calls (w : World) (proc : nat) (p : Process) :
  procs w !! proc = Some p ->
  procs (killed_world proc w) !! proc = Some (add_calls (kill_calls (os w)) p).
Proof.
  intros H. unfold killed_world.
  destruct (kill_result (os w)); cbn [procs upd_disc set_procs].
  - rewrite list_lookup_alter_eq, H. reflexivity.
  - destruct (flush_frame (set_procs (alter (add_calls (kill_calls (os w))) proc (procs w)) w))
      as (-> & _).
    cbn [procs set_procs]. rewrite list_lookup_alter_eq, H. reflexivity.
Qed.

Lemma killed_world_Dead (w : World) (proc : nat) :
  kill_result (os w) = None -> state (disc (killed_world proc w)) = Dead.
Proof. intros H. unfold killed_world. rewrite H. reflexivity. Qed.

Lemma killed_world_chans (w : World) (proc : nat) :
  eventChan (disc w) = None ->
  eventChan (disc (killed_world proc w)) = None
  /\ eventChans (killed_world proc w) = eventChans w.
Proof.
  intros H. unfold killed_world. destruct (kill_result (os w)).
  - cbn. auto.
  - unfold flush. cbn [disc set_procs]. rewrite H. cbn. auto.
Qed.

Lemma killed_world_alive (w : World) (proc : nat) :
  kill_result (os w) <> None ->
  disc (killed_world proc w) = disc w /\ eventChans (killed_world proc w) = eventChans w.
Proof.
  intros H. unfold killed_world. destruct (kill_result (os w)); [auto|contradiction].
Qed.

(** ** Run *)

Lemma Run_deferred_kills (e : error) (w : World) (proc : nat) :
  statusMutex (disc w) = false ->
  eventChan_ok w ->
  room 1 w ->
  process (disc w) = Some proc ->
  Run_deferred (Some e) w = Ret (Some e) (killed_world proc w).
Proof.
  intros Hm Hok Hr Hp. unfold Run_deferred, bind.
  rewrite (killProcess_killed w proc Hm Hok Hr Hp). reflexivity.
Qed.

Lemma taken_room (n : nat) (w : World) : room n w -> room n (taken w).
Proof.
  intros Hr. destruct (taken_frame w) as (Hd & He & _).
  unfold room. rewrite Hd, He. exact Hr.
Qed.


Lemma taken_ready (w : World) (proc : nat) :
  statusMutex (disc w) = false ->
  eventChan_ok w ->
  process (disc w) = Some proc ->
  statusMutex (disc (taken w)) = false /\ eventChan_ok (taken w)
  /\ process (disc (taken w)) = Some proc.
Proof.
  intros Hm Hok Hp. destruct (taken_frame w) as (Hd & He & _).
  unfold eventChan_ok. rewrite Hd, He. auto.
Qed.

(** C1.  With the reply to HELLO on offer, and with no event channel
    registered or one that can take the "stop" event of [killProcess]
    without waiting for its consumer, [Run] returns: it returns [nil]
    exactly when the reply has [eventType] "hello", [error] false, a
    [message] that is "OK" up to case and [protocolVersion] at most 1.  When
    it returns [nil] the state is [Idling] and the subprocess is left alone.
    When it returns an error, [Kill] was called on the subprocess (and [Wait]
    after a successful [Kill]), and the state is [Dead] when both succeed. *)
Theorem C1_Run_handshake (w : World) (m : discoveryMessage) (proc : nat) (p : Process) :
  offers w m ->
  statusMutex (disc w) = false ->
  eventChan_ok w ->
  room 1 w ->
  process (disc w) = Some proc ->
  procs w !! proc = Some p ->
  exists r w',
    Run_end CaseRecv w = Ret r w'
    /\ (r = None <-> hello_ok m)
    /\ (r = None -> state (disc w') = Idling /\ procs w' = procs w)
    /\ (r <> None ->
        procs w' !! proc = Some (add_calls (kill_calls (os w)) p)
        /\ In (CallKill, Kill_err (os w)) (kill_calls (os w))
        /\ (kill_result (os w) = None -> state (disc w') = Dead)).
Proof.
  intros Hoff Hm Hok Hr Hp Hl.
  destruct (taken_ready w proc Hm Hok Hp) as (Hm' & Hok' & Hp').
  pose proof (taken_room 1 w Hr) as Hr'.
  destruct (taken_frame w) as (Hd & He & Hps & Hos).
  assert (Hfail : forall e : error, ~ hello_ok m ->
            exists (r : option error) (w' : World),
              Ret (Some e) (killed_world proc (taken w)) = Ret r w'
              /\ (r = None <-> hello_ok m)
              /\ (r = None -> state (disc w') = Idling /\ procs w' = procs w)
              /\ (r <> None ->
                  procs w' !! proc = Some (add_calls (kill_calls (os w)) p)
                  /\ In (CallKill, Kill_err (os w)) (kill_calls (os w))
                  /\ (kill_result (os w) = None -> state (disc w') = Dead))).
  { intros e Hno. exists (Some e), (killed_world proc (taken w)).
    split; [reflexivity|]. split; [split; [discriminate|contradiction]|].
    split; [discriminate|]. intros _. split.
    - rewrite <- Hos. apply killed_world_calls. rewrite Hps. exact Hl.
    - split.
      + unfold kill_calls. destruct (Kill_err (os w)); left; reflexivity.
      + intros Hk. apply killed_world_Dead. rewrite Hos. exact Hk. }
  unfold Run_end, bind. rewrite (waitMessage_recv w m Hoff).
  unfold hello_ok in *.
  destruct (String.eqb_spec (m_EventType m) "hello") as [Et|Et]; cbn [negb].
  2:{ unfold ret. rewrite (Run_deferred_kills _ _ proc Hm' Hok' Hr' Hp'). apply Hfail. tauto. }
  destruct (m_Error m) eqn:Ee.
  { unfold ret. rewrite (Run_deferred_kills _ _ proc Hm' Hok' Hr' Hp'). apply Hfail.
    intros (_ & H & _). discriminate. }
  destruct (String.eqb_spec (ToUpper (m_Message m)) "OK") as [Eo|Eo]; cbn [negb].
  2:{ unfold ret. rewrite (Run_deferred_kills _ _ proc Hm' Hok' Hr' Hp'). apply Hfail.
      intros (_ & _ & H & _). apply ToUpper_OK in H. contradiction. }
  destruct (Z.gtb_spec (m_ProtocolVersion m) 1) as [Ev|Ev].
  { unfold ret. rewrite (Run_deferred_kills _ _ proc Hm' Hok' Hr' Hp'). apply Hfail.
    intros (_ & _ & _ & H). lia. }
  unfold Lock. rewrite Hm'. unfold defer_, bind, modDisc, ret, Unlock, modDisc, Run_deferred, ret.
  eexists None, _. split; [reflexivity|]. split.
  - split; [intros _|reflexivity]. apply ToUpper_OK in Eo. auto.
  - split; [intros _|intros H; contradiction]. cbn. split; [reflexivity|exact Hps].
Qed.

Lemma C1_Run_handshake_witness :
  exists r w',
    Run_end CaseRecv (hello_world 2) = Ret r w'
    /\ (r = None <-> hello_ok (hello_reply 2))
    /\ (r = None -> state (disc w') = Idling /\ procs w' = procs (hello_world 2))
    /\ (r <> None ->
        procs w' !! 0%nat
        = Some (add_calls (kill_calls (os (hello_world 2))) (proc0 (hello_world 2)))
        /\ In (CallKill, Kill_err (os (hello_world 2))) (kill_calls (os (hello_world 2)))
        /\ (kill_result (os (hello_world 2)) = None -> state (disc w') = Dead)).
Proof.
  apply (C1_Run_handshake (hello_world 2) (hello_reply 2) 0%nat (proc0 (hello_world 2))).
  - exists 0%nat. split; vm_compute; reflexivity.
  - vm_compute. reflexivity.
  - intros ch H. vm_compute in H. discriminate H.
  - intros ch c H. vm_compute in H. discriminate H.
  - vm_compute. reflexivity.
  - vm_compute. reflexivity.
Defined.

(** ** sendCommand *)

Lemma str_append_assoc (a b c : string) : (a ++ b) ++ c = a ++ (b ++ c).
Proof. induction a as [|x a IH]; cbn; [reflexivity|]. rewrite IH. reflexivity. Qed.

Lemma str_take_drop (n : nat) (s : string) : str_take n s ++ str_drop n s = s.
Proof.
  revert s. induction n as [|n IH]; intros [|c s]; cbn; try reflexivity.
  rewrite IH. reflexivity.
Qed.

Lemma add_stdin_twice (a b : string) (pipe : nat) (ps : list Process) :
  alter (add_stdin b) pipe (alter (add_stdin a) pipe ps) = alter (add_stdin (a ++ b)) pipe ps.
Proof.
  rewrite list_alter_alter_eq. apply list_alter_ext; [|reflexivity].
  intros p _. unfold add_stdin. cbn. rewrite str_append_assoc. reflexivity.
Qed.

(** When the [for] of [sendCommand] returns [nil] the pipe received all of
    [data], whatever the answers of the pipe were. *)
Lemma Write_loop_all (pipe : nat) (script : list (nat * option error)) :
  forall (data : string) (w w' : World),
    Write_loop pipe script data w = Ret None w' ->
    procs w' = alter (add_stdin data) pipe (procs w).
Proof.
  induction script as [|[take err] script IH]; intros data w w'; cbn [Write_loop].
  - intros [= <-]. reflexivity.
  - destruct err as [e|]; [discriminate|].
    destruct (Nat.eqb_spec (Nat.min take (String.length data)) (String.length data)) as [E|E].
    + intros [= <-]. cbn [procs set_procs]. rewrite E.
      replace (str_take (String.length data) data) with data; [reflexivity|].
      rewrite <- (str_take_drop (String.length data) data) at 1.
      assert (D : forall s, str_drop (String.length s) s = EmptyString).
      { induction s as [|c s IHs]; cbn; auto. }
      rewrite D. clear. induction (str_take _ data) as [|c s IHs]; cbn; congruence.
    + intros H. apply IH in H. rewrite H. cbn [procs set_procs set_Write_script].
      rewrite add_stdin_twice, str_take_drop. reflexivity.
Qed.

(** With a pipe, [sendCommand] returns. *)
Lemma Write_loop_returns (pipe : nat) (script : list (nat * option error)) :
  forall (data : string) (w : World),
    exists r w', Write_loop pipe script data w = Ret r w'.
Proof.
  induction script as [|[take err] script IH]; intros data w; cbn [Write_loop].
  - eauto.
  - destruct err as [e|]; [eauto|].
    destruct (_ =? _)%nat; [eauto|]. apply IH.
Qed.

Lemma sendCommand_returns (cmd : string) (w : World) (pipe : nat) :
  outgoingCommandsPipe (disc w) = Some pipe ->
  exists r w', sendCommand cmd w = Ret r w'.
Proof. intros H. unfold sendCommand. rewrite H. apply Write_loop_returns. Qed.

Lemma sendCommand_all (cmd : string) (w w' : World) (pipe : nat) :
  outgoingCommandsPipe (disc w) = Some pipe ->
  sendCommand cmd w = Ret None w' ->
  procs w' = alter (add_stdin cmd) pipe (procs w).
Proof. intros H. unfold sendCommand. rewrite H. apply Write_loop_all. Qed.

(** ** The HELLO command *)

Lemma runProcess_started (w w1 : World) :
  runProcess w = Ret None w1 ->
  process (disc w1) = Some (length (procs w))
  /\ outgoingCommandsPipe (disc w1) = Some (length (procs w))
  /\ incomingMessagesChan (disc w1) = Some (length (msgChans w))
  /\ userAgent (disc w1) = userAgent (disc w)
  /\ state (disc w1) = Alive
  /\ msgChans w1 = (msgChans w ++ [MEmpty])%list
  /\ procs w1 = (procs w ++ [started_Process w])%list.
Proof.
  unfold runProcess, bind, getDisc, NewProcess, StdoutPipe, StdinPipe, ret.
  destruct (NewProcess_err (os w)); [discriminate|].
  cbn [os set_procs].
  destruct (StdoutPipe_err (os w)); cbn beta iota; [discriminate|].
  cbn [os set_procs].
  destruct (StdinPipe_err (os w)); cbn beta iota; [discriminate|].
  unfold modDisc, make_chan_Message, go_jsonDecodeLoop, proc_Start, proc_call, Lock, defer_,
    bind, Unlock, modDisc, ret.
  cbn [os set_procs upd_disc set_msgChans disc msgChans procs eventChans].
  destruct (Start_err (os w)); cbn beta iota; [discriminate|].
  cbn [statusMutex set_incomingMessagesChan set_outgoingCommandsPipe disc upd_disc set_procs
       set_msgChans].
  destruct (statusMutex (disc w)); cbn beta iota; [discriminate|].
  intros [= <-]. cbn.
  repeat split.
  rewrite list_alter_alter_eq.
  assert (L : forall (f : Process -> Process) (l : list Process) (x : Process),
             alter f (length l) (l ++ [x])%list = (l ++ [f x])%list).
  { intros f l x. induction l as [|y l IHl]; cbn; [reflexivity|].
    f_equal. exact IHl. }
  rewrite L. reflexivity.
Qed.

Lemma waitMessage_frame (sc : SelectCase) (w : World)
    (r : option discoveryMessage * option error) (w' : World) :
  waitMessage sc w = Ret r w' ->
  disc w' = disc w /\ procs w' = procs w /\ eventChans w' = eventChans w /\ os w' = os w.
Proof.
  destruct sc; unfold waitMessage, bind, getDisc, recv_Message, ret.
  - destruct (incomingMessagesChan (disc w)) as [ch|]; [|discriminate].
    destruct (msgChans w !! ch) as [[| |]|]; try discriminate.
    + intros [= _ <-]. auto.
    + intros [= _ <-]. auto.
  - intros [= _ <-]. auto.
Qed.

Lemma Run_deferred_result (e : error) (w : World) (r : option error) (w' : World) :
  Run_deferred (Some e) w = Ret r w' -> r = Some e.
Proof.
  unfold Run_deferred, bind, ret. destruct (killProcess w); [|discriminate|discriminate].
  intros [= <- _]. reflexivity.
Qed.

Lemma Run_end_nil_procs (sc : SelectCase) (w w' : World) :
  Run_end sc w = Ret None w' -> procs w' = procs w.
Proof.
  unfold Run_end. unfold bind at 1 2.
  destruct (waitMessage sc w) as [[msg err] w0| |] eqn:W; [|discriminate|discriminate].
  apply waitMessage_frame in W. destruct W as (_ & <- & _).
  destruct msg as [msg|], err as [err|]; unfold ret, panic; cbn beta iota;
    try discriminate;
    try (intros H; apply Run_deferred_result in H; discriminate).
  destruct (negb (m_EventType msg =? "hello")).
  { unfold ret. intros H. apply Run_deferred_result in H. discriminate. }
  destruct (m_Error msg).
  { unfold ret. intros H. apply Run_deferred_result in H. discriminate. }
  destruct (negb (ToUpper (m_Message msg) =? "OK")).
  { unfold ret. intros H. apply Run_deferred_result in H. discriminate. }
  destruct (m_ProtocolVersion msg >? 1)%Z.
  { unfold ret. intros H. apply Run_deferred_result in H. discriminate. }
  unfold Lock, defer_, bind, modDisc, ret, Unlock, modDisc, Run_deferred, ret.
  destruct (statusMutex (disc w0)); [discriminate|].
  intros [= <-]. reflexivity.
Qed.

(** C2 (amended).  When [Run] gets as far as waiting for the reply, the
    subprocess it has just started has received exactly the line
    [HELLO 1 "arduino-cli <agent>"] and a line feed, with the configured
    user agent and the fixed word "arduino-cli" before it, whatever the
    pipe did with the single writes; and a [Run] that returns [nil] writes
    nothing more. *)
Theorem C2_Run_sends_HELLO (w w1 : World) :
  Run_begin w = Ret None w1 ->
  (exists p,
      process (disc w1) = Some (length (procs w))
      /\ procs w1 !! length (procs w) = Some p
      /\ p_args p = processArgs (disc w)
      /\ p_stdin p = HELLO_line (disc w))
  /\ (forall sc w2 w3, Run_end sc w2 = Ret None w3 -> procs w3 = procs w2).
Proof.
  intros H. split; [|intros sc w2 w3; apply Run_end_nil_procs].
  unfold Run_begin in H. unfold bind at 1 in H.
  destruct (runProcess w) as [[e|] w0| |] eqn:R; try discriminate.
  apply runProcess_started in R.
  destruct R as (Hproc & Hpipe & _ & Hua & _ & _ & Hps).
  unfold bind, getDisc in H.
  destruct (sendCommand _ w0) as [[e|] w2| |] eqn:S; try discriminate.
  { apply Run_deferred_result in H. discriminate. }
  cbn [Run_deferred] in H. injection H as <-.
  pose proof (sendCommand_disc ("HELLO 1 " ++ dquote ++ "arduino-cli "
                 ++ userAgent (disc w0) ++ dquote ++ newline) w0 w2) as F.
  rewrite S in F. destruct (F eq_refl) as (Hd & _).
  apply (sendCommand_all _ _ _ _ Hpipe) in S.
  exists (add_stdin (HELLO_line (disc w)) (started_Process w)).
  rewrite Hd, Hproc. split; [reflexivity|].
  rewrite S, Hps, Hua. split.
  - rewrite list_lookup_alter_eq, list_lookup_middle by reflexivity. reflexivity.
  - split; reflexivity.
Qed.

Lemma C2_Run_sends_HELLO_witness :
  (exists p,
      process (disc (hello_sent_world OS_ok)) = Some (length (procs fresh_world))
      /\ procs (hello_sent_world OS_ok) !! length (procs fresh_world) = Some p
      /\ p_args p = processArgs (disc fresh_world)
      /\ p_stdin p = HELLO_line (disc fresh_world))
  /\ (forall sc w2 w3, Run_end sc w2 = Ret None w3 -> procs w3 = procs w2).
Proof.
  apply (C2_Run_sends_HELLO fresh_world (hello_sent_world OS_ok)).
  vm_compute. reflexivity.
Defined.

(** C2, as it is stated, fails: a client made with the identifier "dummy"
    runs its handshake to the end, and the line its subprocess received
    carries "arduino-cli", not "dummy". *)
Lemma C2_counterexample :
  exists w1 w2 w3 p,
    Run_begin fresh_world = Ret None w1
    /\ jsonDecodeLoop_iter 0%nat (reply "hello" 1) w1 = Ret Continue w2
    /\ Run_end CaseRecv w2 = Ret None w3
    /\ state (disc w3) = Idling
    /\ disc_id (disc w3) = "dummy"
    /\ procs w3 !! 0%nat = Some p
    /\ p_stdin p = HELLO_line (disc w3)
    /\ p_stdin p <> HELLO_line_with_id (disc w3).
Proof.
  exists (run_on OS_ok [RunBegin]).
  exists (run_on OS_ok [RunBegin; Loop 0%nat (reply "hello" 1)]).
  exists (run_on OS_ok handshake).
  exists (proc0 (run_on OS_ok handshake)).
  vm_compute. repeat split. discriminate.
Qed.

(** ** Stop *)

Lemma flush_fields (w : World) :
  eventChans (flush w) = flushed_chans w
  /\ process (disc (flush w)) = process (disc w)
  /\ disc_id (disc (flush w)) = disc_id (disc w)
  /\ incomingMessagesChan (disc (flush w)) = incomingMessagesChan (disc w).
Proof.
  unfold flush, flushed_chans. destruct (eventChan (disc w)); cbn; auto.
Qed.

Lemma flush_ok (w : World) : eventChan_ok (flush w).
Proof.
  intros ch H. destruct (flush_frame w) as (_ & _ & _ & _ & _ & E).
  rewrite E in H. discriminate.
Qed.








(** ** The statements of Quit *)

Lemma steps_app (l1 l2 : list Step) (w : World) :
  steps (l1 ++ l2) w = (steps l1 ;; steps l2) w.
Proof.
  revert w. induction l1 as [|s l1 IH]; intros w; cbn [app steps].
  - reflexivity.
  - unfold bind at 1 2 3. destruct (step s w) as [[] w1| |]; [|reflexivity|reflexivity].
    rewrite IH. reflexivity.
Qed.

Lemma at_Quit_at (pc : QuitPC) (w : World) : quitting w = pc -> at_Quit pc w = Ret tt w.
Proof.
  intros H. unfold at_Quit, bind, getQuitting.
  destruct (decide _); [reflexivity|contradiction].
Qed.

Lemma at_Quit_inv (pc : QuitPC) (w : World) (u : unit) (w' : World) :
  at_Quit pc w = Ret u w' -> quitting w = pc /\ w' = w.
Proof.
  unfold at_Quit, bind, getQuitting. destruct (decide _); [|discriminate].
  unfold ret. intros [= <-]. auto.
Qed.

Lemma waitMessage_ready (w : World) (sc : SelectCase) :
  ready w sc ->
  exists r w',
    waitMessage sc w = Ret r w'
    /\ disc w' = disc w /\ eventChans w' = eventChans w
    /\ procs w' = procs w /\ os w' = os w.
Proof.
  intros [|m Hoff|Hc].
  - rewrite waitMessage_after. eauto 10.
  - rewrite (waitMessage_recv w m Hoff). destruct (taken_frame w) as (? & ? & ? & ?).
    eauto 10.
  - rewrite (waitMessage_closed w Hc). eauto 10.
Qed.

Lemma step_QuitWait (w : World) (sc : SelectCase) :
  quitting w = AtWait ->
  ready w sc ->
  exists w0,
    step (QuitWait sc) w = Ret tt (set_quitting AtCheck w0)
    /\ disc w0 = disc w /\ eventChans w0 = eventChans w
    /\ procs w0 = procs w /\ os w0 = os w.
Proof.
  intros Hq Hr. destruct (waitMessage_ready w sc Hr) as (r & w0 & W & F).
  exists w0. split; [|exact F].
  cbn [step]. unfold bind at 1. rewrite (at_Quit_at _ _ Hq).
  unfold Quit_wait, bind. rewrite W. reflexivity.
Qed.

Lemma step_QuitCheck (w : World) :
  quitting w = AtCheck ->
  step QuitCheck w = Ret tt (set_quitting (if registered w then AtSend else AtKill) w).
Proof.
  intros Hq. cbn [step]. unfold bind at 1. rewrite (at_Quit_at _ _ Hq).
  unfold stopSync_check, registered, bind, getDisc, goto_Quit.
  destruct (eventChan (disc w)); reflexivity.
Qed.

Lemma step_QuitSend (w : World) (ch : nat) (c : EventChan) :
  quitting w = AtSend ->
  eventChan (disc w) = Some ch ->
  eventChans w !! ch = Some c ->
  closed c = false ->
  has_room c = true ->
  step QuitSend w
  = Ret tt (set_quitting AtClose
              (set_eventChans
                 (<[ch := {| cap := cap c; sent := sent c ++ [stop_Event (disc w)];
                             wanted := wanted c; closed := false |}]> (eventChans w)) w)).
Proof.
  intros Hq E Hc Hopen Hroom. cbn [step]. unfold bind at 1. rewrite (at_Quit_at _ _ Hq).
  unfold stopSync_send, bind, getDisc. rewrite E.
  unfold send_Event. rewrite Hc, Hopen, Hroom. reflexivity.
Qed.

(** On a full channel [Quit] waits in the send of its [stopSync]. *)
Lemma step_QuitSend_full (w : World) :
  quitting w = AtSend -> full w -> step QuitSend w = Blocked.
Proof.
  intros Hq (ch & c & E & Hc & Hopen & Hf). cbn [step]. unfold bind at 1.
  rewrite (at_Quit_at _ _ Hq).
  unfold stopSync_send, bind, getDisc. rewrite E.
  unfold send_Event. rewrite Hc, Hopen, Hf. reflexivity.
Qed.

Lemma step_QuitClose (w : World) (ch : nat) (c : EventChan) :
  quitting w = AtClose ->
  eventChan (disc w) = Some ch ->
  eventChans w !! ch = Some c ->
  closed c = false ->
  step QuitClose w
  = Ret tt (set_quitting AtNil
              (set_eventChans
                 (<[ch := {| cap := cap c; sent := sent c; wanted := wanted c;
                             closed := true |}]> (eventChans w)) w)).
Proof.
  intros Hq E Hc Hopen. cbn [step]. unfold bind at 1. rewrite (at_Quit_at _ _ Hq).
  unfold stopSync_close, bind, getDisc. rewrite E.
  unfold close_Event. rewrite Hc, Hopen. reflexivity.
Qed.

Lemma step_QuitNil (w : World) :
  quitting w = AtNil ->
  step QuitNil w = Ret tt (set_quitting AtKill (upd_disc (set_eventChan None) w)).
Proof.
  intros Hq. cbn [step]. unfold bind at 1. rewrite (at_Quit_at _ _ Hq). reflexivity.
Qed.

(** The statements of [stopSync] in [Quit], with no transition of another
    goroutine between them, do what [stopSync] does. *)
Lemma Quit_flush_runs (w : World) :
  quitting w = AtCheck ->
  eventChan_ok w ->
  room 1 w ->
  steps (QuitCheck :: (if registered w then [QuitSend; QuitClose; QuitNil] else [])) w
  = Ret tt (set_quitting AtKill (flush w)).
Proof.
  intros Hq Hok Hr. cbn [steps]. unfold bind at 1. rewrite (step_QuitCheck w Hq).
  unfold registered, flush, flushed_chans.
  destruct (eventChan (disc w)) as [ch|] eqn:E; [|reflexivity].
  destruct (Hok ch E) as (c & Hc & Hopen).
  pose proof (room_has_room w ch c Hr E Hc) as Hroom.
  rewrite Hc. cbn [steps]. unfold bind at 1.
  rewrite (step_QuitSend (set_quitting AtSend w) ch c eq_refl E Hc Hopen Hroom).
  set (c2 := {| cap := cap c; sent := sent c ++ [stop_Event (disc (set_quitting AtSend w))];
                wanted := wanted c; closed := false |}).
  set (w2 := set_quitting AtClose _).
  assert (Hc2 : eventChans w2 !! ch = Some c2).
  { unfold w2. cbn. apply list_lookup_insert_eq. eapply lookup_lt_Some. exact Hc. }
  unfold bind at 1. rewrite (step_QuitClose w2 ch c2 eq_refl E Hc2 eq_refl).
  set (w3 := set_quitting AtNil _).
  unfold bind at 1. rewrite (step_QuitNil w3 eq_refl).
  unfold ret, w3, w2, c2. cbn. rewrite list_insert_insert_eq. reflexivity.
Qed.

Lemma step_QuitKill (w : World) (proc : nat) :
  quitting w = AtKill ->
  statusMutex (disc w) = false ->
  eventChan_ok w ->
  room 1 w ->
  process (disc w) = Some proc ->
  step QuitKill w = Ret tt (set_quitting NotQuitting (killed_world proc w)).
Proof.
  intros Hq Hm Hok Hr Hp. cbn [step]. unfold bind at 1. rewrite (at_Quit_at _ _ Hq).
  unfold Quit_kill, bind. rewrite (killProcess_killed w proc Hm Hok Hr Hp). reflexivity.
Qed.

(** What [stopSync] leaves alone, whenever it returns. *)
Lemma stopSync_returns (w : World) (u : unit) (w' : World) :
  stopSync w = Ret u w' ->
  eventChan (disc w') = None
  /\ procs w' = procs w /\ os w' = os w
  /\ state (disc w') = state (disc w)
  /\ statusMutex (disc w') = statusMutex (disc w).
Proof.
  destruct u. unfold stopSync, bind, getDisc.
  destruct (eventChan (disc w)) as [ch|] eqn:E.
  - unfold send_Event. destruct (eventChans w !! ch) as [c|]; [|discriminate].
    destruct (closed c); [discriminate|]. destruct (has_room c); [|discriminate].
    unfold close_Event. cbn [eventChans set_eventChans].
    destruct (_ !! ch) as [c'|]; [|discriminate].
    destruct (closed c'); [discriminate|].
    unfold modDisc. intros [= <-]. cbn. auto.
  - unfold ret. intros [= <-]. auto.
Qed.

(** Whenever [killProcess] returns: it called [Kill] on the process, and
    [Wait] after a [Kill] without error; it returns the first error of the
    two and then leaves the [Client] alone; without error the state is
    [Dead] and no event channel is registered. *)
Lemma killProcess_returns (w : World) (r : option error) (w' : World) :
  killProcess w = Ret r w' ->
  r = match process (disc w) with Some _ => kill_result (os w) | None => None end
  /\ (forall proc, process (disc w) = Some proc ->
        procs w' = alter (add_calls (kill_calls (os w))) proc (procs w))
  /\ (r = None -> state (disc w') = Dead /\ eventChan (disc w') = None)
  /\ (r <> None -> disc w' = disc w /\ eventChans w' = eventChans w).
Proof.
  unfold killProcess, bind, getDisc.
  assert (G : forall w1 : World,
             (Lock ;; defer_ Unlock (stopSync ;; modDisc (set_state Dead) ;; ret None)) w1
             = Ret r w' ->
             r = None /\ procs w' = procs w1 /\ state (disc w') = Dead
             /\ eventChan (disc w') = None).
  { intros w1. unfold bind at 1. unfold Lock.
    destruct (statusMutex (disc w1)); [discriminate|].
    unfold defer_, bind.
    destruct (stopSync _) as [[] w2| |] eqn:S; unfold modDisc, ret, Unlock, modDisc;
      try discriminate.
    intros [= <- <-]. apply stopSync_returns in S.
    destruct S as (S1 & S2 & _). cbn. cbn in S2. auto. }
  destruct (process (disc w)) as [proc|] eqn:Hp.
  - unfold proc_Kill, proc_Wait, proc_call, kill_result, kill_calls, ret.
    destruct (Kill_err (os w)) as [e|] eqn:EK.
    + intros [= <- <-]. split; [reflexivity|]. split; [|split].
      * intros ? [= <-]. reflexivity.
      * discriminate.
      * auto.
    + cbn [os set_procs procs]. rewrite add_call_twice.
      destruct (Wait_err (os w)) as [e|] eqn:EW.
      * intros [= <- <-]. split; [reflexivity|]. split; [|split].
        -- intros ? [= <-]. reflexivity.
        -- discriminate.
        -- auto.
      * intros H. apply G in H. destruct H as (-> & H2 & H3 & H4).
        split; [reflexivity|]. split; [|split].
        -- intros ? [= <-]. exact H2.
        -- auto.
        -- intros N. contradiction.
  - unfold ret. intros H. apply G in H. destruct H as (-> & H2 & H3 & H4).
    split; [reflexivity|]. split; [|split].
    + discriminate.
    + auto.
    + intros N. contradiction.
Qed.

Lemma step_QuitKill_returns (w w' : World) :
  step QuitKill w = Ret tt w' ->
  exists r w1, killProcess w = Ret r w1 /\ w' = set_quitting NotQuitting w1.
Proof.
  cbn [step]. unfold bind at 1.
  destruct (at_Quit AtKill w) as [[] w0| |] eqn:A; [|discriminate|discriminate].
  apply at_Quit_inv in A. destruct A as (_ & ->).
  unfold Quit_kill, bind. destruct (killProcess w) as [r w1| |]; [|discriminate|discriminate].
  unfold ret, goto_Quit. intros [= <-]. eauto.
Qed.

(** Whenever [Quit] gets through its [killProcess], the state is [Dead]
    unless [Kill] or [Wait] returned an error. *)
Lemma step_QuitKill_Dead (w w' : World) :
  step QuitKill w = Ret tt w' ->
  kill_result (os w) = None ->
  state (disc w') = Dead.
Proof.
  intros H Hk. apply step_QuitKill_returns in H. destruct H as (r & w1 & K & ->).
  apply killProcess_returns in K. destruct K as (K1 & _ & K2 & _).
  cbn [disc set_quitting]. apply K2. rewrite K1.
  destruct (process (disc w)); [exact Hk|reflexivity].
Qed.

(** ** Timeouts *)

(** C4, as it is stated, fails for [Quit] and for [Run].  When the wait of
    [Quit] times out in state [Idling], [Quit] (which has no result to return
    a failure in) goes on and leaves the state [Dead].  When the wait of a
    [Run] that began in state [Dead] times out and [Wait] returns an error,
    [Run] returns the timeout error and leaves the state [Alive]. *)
Lemma C4_counterexample :
  (exists w',
      steps (Quit_rest CaseAfter false) quit_sent_world = Ret tt w'
      /\ state (disc quit_sent_world) = Idling
      /\ state (disc w') = Dead)
  /\ (exists w1 w',
         Run_begin (boot client0 OS_wait_fails) = Ret None w1
         /\ Run_end CaseAfter w1
            = Ret (Some (Wrapf "calling HELLO: "
                           (ErrorsNew "timeout waiting for message from dummy"))) w'
         /\ state client0 = Dead
         /\ state (disc w') = Alive).
Proof.
  split.
  - exists (world_or fresh_world (steps (Quit_rest CaseAfter false) quit_sent_world)).
    vm_compute. repeat split.
  - exists (hello_sent_world OS_wait_fails).
    exists (world_or fresh_world (Run_end CaseAfter (hello_sent_world OS_wait_fails))).
    vm_compute. repeat split.
Qed.

Lemma begin_frame (cmd : string) (w w' : World) :
  world_of (sendCommand cmd w) = Some w' -> disc w' = disc w.
Proof. intros H. apply sendCommand_disc in H. tauto. Qed.

Lemma StartSync_begin_state (w : World) (r : option error) (w' : World) :
  StartSync_begin w = Ret r w' -> state (disc w') = state (disc w).
Proof.
  unfold StartSync_begin. unfold bind at 1. unfold Lock.
  destruct (statusMutex (disc w)); [discriminate|].
  unfold bind, on_panic.
  destruct (sendCommand _ _) as [[e|] w1| |] eqn:S; unfold Unlock, modDisc, ret, bind, panic;
    try discriminate.
  - intros [= _ <-].
    pose proof (sendCommand_disc ("START_SYNC" ++ newline)
                  (upd_disc (set_statusMutex true) w) w1) as F.
    rewrite S in F. destruct (F eq_refl) as (E & _).
    cbn [state disc upd_disc set_statusMutex]. rewrite E. reflexivity.
  - intros [= _ <-].
    pose proof (sendCommand_disc ("START_SYNC" ++ newline)
                  (upd_disc (set_statusMutex true) w) w1) as F.
    rewrite S in F. destruct (F eq_refl) as (E & _).
    cbn [state disc upd_disc set_statusMutex]. rewrite E. reflexivity.
Qed.

(** C4 (amended).  When the wait times out, [Start], [Stop], [List] and
    [StartSync] return the timeout error of [waitMessage], wrapped with the
    name of the command, and the state of the [Client] is as before the
    call: sending the command does not touch the [Client], and the second
    half of the call leaves the world as it was ([StartSync] only gives the
    mutex back).  [Run] returns the wrapped timeout error too, after
    [killProcess], which leaves the state [Dead] when [Kill] and [Wait]
    succeed; it returns when no event channel is registered or the
    registered one can take the "stop" event.  [Quit] has no result: its
    wait returns nothing and it goes on to its next statement, and whenever
    it gets through its [killProcess] the state is [Dead] when [Kill] and
    [Wait] succeed. *)
Theorem C4_timeout_keeps_state (w : World) (size : Z) :
  Start_end CaseAfter w
  = Ret (Some (Wrapf "calling START: " (timeout_error (disc w)))) w
  /\ Stop_end CaseAfter w
     = Ret (Some (Wrapf "calling STOP: " (timeout_error (disc w)))) w
  /\ List_end CaseAfter w
     = Ret ([], Some (Wrapf "calling LIST: " (timeout_error (disc w)))) w
  /\ StartSync_end size CaseAfter w
     = Ret (None, Some (Wrapf "calling START_SYNC: " (timeout_error (disc w))))
           (upd_disc (set_statusMutex false) w)
  /\ (forall w0, world_of (Start_begin w) = Some w0 -> disc w0 = disc w)
  /\ (forall w0, world_of (Stop_begin w) = Some w0 -> disc w0 = disc w)
  /\ (forall w0, world_of (List_begin w) = Some w0 -> disc w0 = disc w)
  /\ (forall r w0, StartSync_begin w = Ret r w0 -> state (disc w0) = state (disc w))
  /\ (forall proc,
        statusMutex (disc w) = false -> eventChan_ok w -> room 1 w ->
        process (disc w) = Some proc ->
        Run_end CaseAfter w
        = Ret (Some (Wrapf "calling HELLO: " (timeout_error (disc w)))) (killed_world proc w))
  /\ (quitting w = AtWait ->
      step (QuitWait CaseAfter) w = Ret tt (set_quitting AtCheck w))
  /\ (forall w', step QuitKill w = Ret tt w' ->
        kill_result (os w) = None -> state (disc w') = Dead).
Proof.
  repeat (split; [reflexivity|]).
  split; [intros w0; apply begin_frame|].
  split; [intros w0; apply begin_frame|].
  split; [intros w0; apply begin_frame|].
  split; [apply StartSync_begin_state|].
  split; [|split].
  - intros proc Hm Hok Hr Hp.
    unfold Run_end, bind. rewrite waitMessage_after. unfold ret.
    apply Run_deferred_kills; assumption.
  - intros Hq. cbn [step]. unfold bind at 1. rewrite (at_Quit_at _ _ Hq). reflexivity.
  - intros w'. apply step_QuitKill_Dead.
Qed.

Lemma C4_timeout_keeps_state_witness :
  Run_end CaseAfter (hello_sent_world OS_ok)
  = Ret (Some (Wrapf "calling HELLO: " (timeout_error (disc (hello_sent_world OS_ok)))))
        (killed_world 0%nat (hello_sent_world OS_ok))
  /\ step (QuitWait CaseAfter) quit_sent_world = Ret tt (set_quitting AtCheck quit_sent_world).
Proof.
  split.
  - apply (C4_timeout_keeps_state (hello_sent_world OS_ok) 0).
    + vm_compute. reflexivity.
    + intros ch H. vm_compute in H. discriminate H.
    + intros ch c H. vm_compute in H. discriminate H.
    + vm_compute. reflexivity.
  - apply (C4_timeout_keeps_state quit_sent_world 0). vm_compute. reflexivity.
Defined.

(** ** Quit *)

(** C7, as it is stated, fails: when [Kill] returns an error, [Quit] called
    in state [Syncing], with its reply received, returns with the state
    still [Syncing], and [Wait] was not called. *)
Lemma C7_counterexample :
  exists w',
    steps (Quit_rest CaseRecv true) (quitting_world OS_kill_fails) = Ret tt w'
    /\ state (disc (quitting_world OS_kill_fails)) = Syncing
    /\ state (disc w') = Syncing
    /\ p_calls <$> procs w' !! 0%nat
       = Some [(CallStart, None);
               (CallKill, Some (Foreign "os: process already finished"))].
Proof.
  exists (world_or fresh_world
            (steps (Quit_rest CaseRecv true) (quitting_world OS_kill_fails))).
  vm_compute. repeat split.
Qed.

(** C7 (amended).  [Quit] drops the result of sending QUIT, and whatever its
    wait gives (a reply, a closed channel, a timeout) it goes on to the
    statements of [stopSync] and to [killProcess].  When no transition of
    another goroutine comes between them and the registered event channel
    can take one more event (or none is registered), [Quit] returns: the
    channel got its "stop" event and was closed, and [Kill] was called on
    the subprocess.  On a full channel [Quit] waits in the send of
    [stopSync].  Whenever [Quit] gets through [killProcess], [Kill] was
    called, [Wait] was called only after a [Kill] without error, and the
    state is [Dead] only when [Kill] and [Wait] both return without error;
    otherwise [killProcess] returns early and the state is as it was. *)
Theorem C7_Quit_teardown (w : World) (sc : SelectCase) (proc : nat) (p : Process) :
  quitting w = AtWait ->
  statusMutex (disc w) = false ->
  eventChan_ok w ->
  process (disc w) = Some proc ->
  procs w !! proc = Some p ->
  ready w sc ->
  (room 1 w ->
   exists w',
      steps (Quit_rest sc (registered w)) w = Ret tt w'
      /\ eventChan (disc w') = None
      /\ eventChans w' = flushed_chans w
      /\ procs w' !! proc = Some (add_calls (kill_calls (os w)) p)
      /\ In (CallKill, Kill_err (os w)) (kill_calls (os w))
      /\ (Kill_err (os w) = None -> In (CallWait, Wait_err (os w)) (kill_calls (os w)))
      /\ (kill_result (os w) = None -> state (disc w') = Dead)
      /\ (kill_result (os w) <> None -> state (disc w') = state (disc w)))
  /\ (full w ->
      exists w1, steps [QuitWait sc; QuitCheck] w = Ret tt w1
                 /\ disc w1 = disc w /\ eventChans w1 = eventChans w
                 /\ step QuitSend w1 = Blocked)
  /\ (forall w1 w' proc1 p1,
        process (disc w1) = Some proc1 ->
        procs w1 !! proc1 = Some p1 ->
        step QuitKill w1 = Ret tt w' ->
        procs w' !! proc1 = Some (add_calls (kill_calls (os w1)) p1)
        /\ (kill_result (os w1) = None -> state (disc w') = Dead)
        /\ (kill_result (os w1) <> None -> state (disc w') = state (disc w1)))
  /\ (forall pipe, outgoingCommandsPipe (disc w) = Some pipe ->
        exists w1, Quit_begin w = Ret tt w1 /\ disc w1 = disc w).
Proof.
  intros Hq Hm Hok Hp Hl Hrdy.
  destruct (step_QuitWait w sc Hq Hrdy) as (w0 & W & Hd & He & Hps & Hos).
  split; [|split; [|split]].
  - intros Hr.
    set (wa := set_quitting AtCheck w0).
    assert (Hoka : eventChan_ok wa).
    { unfold eventChan_ok, wa. cbn. rewrite Hd, He. exact Hok. }
    assert (Hra : room 1 wa).
    { unfold room, wa. cbn. rewrite Hd, He. exact Hr. }
    assert (Hreg : registered wa = registered w).
    { unfold registered, wa. cbn. rewrite Hd. reflexivity. }
    pose proof (Quit_flush_runs wa eq_refl Hoka Hra) as F. rewrite Hreg in F.
    set (wb := set_quitting AtKill (flush wa)) in *.
    destruct (flush_frame wa) as (Fp & Fo & _ & Fs & Fm & Fe).
    destruct (flush_fields wa) as (Fc & Fpr & _).
    assert (K : step QuitKill wb = Ret tt (set_quitting NotQuitting (killed_world proc wb))).
    { apply step_QuitKill.
      - reflexivity.
      - unfold wb. cbn. rewrite Fm. unfold wa. cbn. rewrite Hd. exact Hm.
      - intros ch H. unfold wb in H. cbn in H. rewrite Fe in H. discriminate.
      - intros ch c H. unfold wb in H. cbn in H. rewrite Fe in H. discriminate.
      - unfold wb. cbn. rewrite Fpr. unfold wa. cbn. rewrite Hd. exact Hp. }
    exists (set_quitting NotQuitting (killed_world proc wb)).
    assert (Hfc : flushed_chans wa = flushed_chans w).
    { unfold flushed_chans, wa. cbn. rewrite Hd, He. reflexivity. }
    assert (Hosb : os wb = os w) by (unfold wb; cbn; rewrite Fo; unfold wa; cbn; exact Hos).
    assert (Hpsb : procs wb = procs w) by (unfold wb; cbn; rewrite Fp; unfold wa; cbn; exact Hps).
    assert (Heb : eventChan (disc wb) = None) by (unfold wb; cbn; exact Fe).
    assert (Hcb : eventChans wb = flushed_chans w) by (unfold wb; cbn; rewrite Fc; exact Hfc).
    assert (Hsb : state (disc wb) = state (disc w)).
    { unfold wb. cbn. rewrite Fs. unfold wa. cbn. rewrite Hd. reflexivity. }
    destruct (killed_world_chans wb proc Heb) as (Ke & Kc).
    split.
    { unfold Quit_rest. change ([QuitWait sc; QuitCheck] ++ ?l)%list
        with (QuitWait sc :: QuitCheck :: l).
      cbn [steps]. unfold bind at 1. rewrite W. fold wa.
      change (step QuitCheck ;; steps ?l) with (steps (QuitCheck :: l)).
      change (QuitCheck :: (?l ++ [QuitKill]))%list with ((QuitCheck :: l) ++ [QuitKill])%list.
      rewrite steps_app. unfold bind at 1. rewrite F.
      cbn [steps]. unfold bind at 1. rewrite K. reflexivity. }
    cbn [disc eventChans procs set_quitting].
    split; [exact Ke|]. split; [rewrite Kc; exact Hcb|].
    split.
    { rewrite <- Hosb. apply killed_world_calls. rewrite Hpsb. exact Hl. }
    split.
    { unfold kill_calls. destruct (Kill_err (os w)); left; reflexivity. }
    split.
    { intros Hk. unfold kill_calls. rewrite Hk. right. left. reflexivity. }
    split.
    { intros Hk. apply killed_world_Dead. rewrite Hosb. exact Hk. }
    intros Hk. destruct (killed_world_alive wb proc) as (E & _).
    { rewrite Hosb. exact Hk. }
    rewrite E. exact Hsb.
  - intros Hf.
    exists (set_quitting AtSend (set_quitting AtCheck w0)).
    assert (Hreg : registered (set_quitting AtCheck w0) = true).
    { destruct Hf as (ch & c & E & _). unfold registered. cbn. rewrite Hd, E. reflexivity. }
    split.
    { cbn [steps]. unfold bind at 1. rewrite W.
      unfold bind at 1. rewrite (step_QuitCheck (set_quitting AtCheck w0) eq_refl), Hreg.
      reflexivity. }
    split; [exact Hd|]. split; [exact He|].
    apply step_QuitSend_full; [reflexivity|].
    unfold full. cbn. rewrite Hd, He. exact Hf.
  - intros w1 w' proc1 p1 Hp1 Hl1 H.
    apply step_QuitKill_returns in H. destruct H as (r & w2 & K & ->).
    apply killProcess_returns in K. destruct K as (K1 & K2 & K3 & K4).
    rewrite Hp1 in K1. cbn [disc procs set_quitting].
    split.
    { rewrite (K2 proc1 Hp1), list_lookup_alter_eq, Hl1. reflexivity. }
    split.
    { intros Hk. apply K3. rewrite K1. exact Hk. }
    intros Hk. destruct K4 as (E & _); [rewrite K1; exact Hk|].
    rewrite E. reflexivity.
  - intros pipe Hpipe. unfold Quit_begin, bind.
    destruct (sendCommand_returns ("QUIT" ++ newline) w pipe Hpipe) as (r & w1 & S).
    rewrite S. exists w1. split; [reflexivity|].
    apply (begin_frame ("QUIT" ++ newline)). rewrite S. reflexivity.
Qed.

Lemma quitting_world_ok : eventChan_ok (quitting_world OS_ok).
Proof.
  intros ch H. vm_compute in H. injection H as <-.
  eexists. split; vm_compute; reflexivity.
Qed.

Lemma quitting_world_room : room 1 (quitting_world OS_ok).
Proof.
  intros ch c H Hc. vm_compute in H. injection H as <-.
  vm_compute in Hc. injection Hc as <-. vm_compute. discriminate.
Qed.

Lemma C7_Quit_teardown_witness :
  exists w',
    steps (Quit_rest CaseRecv (registered (quitting_world OS_ok))) (quitting_world OS_ok)
    = Ret tt w'
    /\ eventChan (disc w') = None
    /\ eventChans w' = flushed_chans (quitting_world OS_ok)
    /\ procs w' !! 0%nat
       = Some (add_calls (kill_calls (os (quitting_world OS_ok)))
                 (proc0 (quitting_world OS_ok)))
    /\ In (CallKill, Kill_err (os (quitting_world OS_ok)))
          (kill_calls (os (quitting_world OS_ok)))
    /\ (Kill_err (os (quitting_world OS_ok)) = None ->
        In (CallWait, Wait_err (os (quitting_world OS_ok)))
           (kill_calls (os (quitting_world OS_ok))))
    /\ (kill_result (os (quitting_world OS_ok)) = None -> state (disc w') = Dead)
    /\ (kill_result (os (quitting_world OS_ok)) <> None ->
        state (disc w') = state (disc (quitting_world OS_ok))).
Proof.
  apply (proj1 (C7_Quit_teardown (quitting_world OS_ok) CaseRecv 0%nat
                  (proc0 (quitting_world OS_ok))
                  eq_refl eq_refl quitting_world_ok eq_refl eq_refl
                  (ready_offer (quitting_world OS_ok) quit_reply
                     (ex_intro _ 0%nat (conj eq_refl eq_refl))))
           quitting_world_room).
Defined.

(** ** The decode loop and "add"/"remove" envelopes *)

Lemma closeAndReportError_reported (outChan : nat) (err : error) (w : World) :
  msgChans w !! outChan = Some MEmpty ->
  statusMutex (disc w) = false ->
  closeAndReportError outChan err w = Ret tt (reported outChan err w).
Proof.
  intros Hc Hm. unfold closeAndReportError, bind, Lock. rewrite Hm.
  unfold modDisc, Unlock, modDisc, close_Message.
  cbn [msgChans upd_disc]. rewrite Hc. reflexivity.
Qed.

Lemma closeAndReportError_held (outChan : nat) (err : error) (w : World) :
  statusMutex (disc w) = true -> closeAndReportError outChan err w = Blocked.
Proof.
  intros Hm. unfold closeAndReportError, bind, Lock. rewrite Hm. reflexivity.
Qed.

Lemma deliver_delivered (type : string) (port : option Port) (w : World) :
  statusMutex (disc w) = false ->
  eventChan_ok w ->
  room 1 w ->
  deliver type port w
  = Ret tt (delivered {| e_Type := type; e_Port := port; e_DiscoveryID := disc_id (disc w) |} w).
Proof.
  intros Hm Hok Hr. unfold deliver, delivered, bind, Lock. rewrite Hm.
  unfold getDisc. cbn [disc upd_disc eventChan set_statusMutex].
  destruct (eventChan (disc w)) as [ch|] eqn:E.
  - destruct (Hok ch E) as (c & Hc & Hopen).
    unfold send_Event. cbn [eventChans upd_disc].
    rewrite Hc, Hopen, (room_has_room w ch c Hr E Hc).
    unfold Unlock, modDisc, GetID. reflexivity.
  - reflexivity.
Qed.

(** On a full channel the critical section waits in its send. *)
Lemma deliver_full (type : string) (port : option Port) (w : World) :
  statusMutex (disc w) = false -> full w -> deliver type port w = Blocked.
Proof.
  intros Hm (ch & c & E & Hc & Hopen & Hf). unfold deliver, bind, Lock. rewrite Hm.
  unfold getDisc. cbn [disc upd_disc eventChan set_statusMutex]. rewrite E.
  unfold send_Event. cbn [eventChans upd_disc]. rewrite Hc, Hopen, Hf. reflexivity.
Qed.

Lemma deliver_held (type : string) (port : option Port) (w : World) :
  statusMutex (disc w) = true -> deliver type port w = Blocked.
Proof. intros Hm. unfold deliver, bind, Lock. rewrite Hm. reflexivity. Qed.

(** An iteration on an "add" or "remove" envelope, with the mutex free:
    without port, with a port and room on the channel, and with a port and
    a full channel. *)
Lemma iter_missing_port (outChan : nat) (m : discoveryMessage) (w : World) :
  is_port_event m ->
  m_Port m = None ->
  msgChans w !! outChan = Some MEmpty ->
  statusMutex (disc w) = false ->
  jsonDecodeLoop_iter outChan (Value m) w = Ret Return (reported outChan (missing_port m) w).
Proof.
  intros Hpe P Hc Hm. unfold jsonDecodeLoop_iter. unfold bind at 1.
  unfold loop_head. rewrite Hc. unfold missing_port.
  destruct Hpe as [-> | ->]; cbn [String.eqb Ascii.eqb Bool.eqb];
    rewrite P; unfold bind;
    rewrite closeAndReportError_reported by assumption; reflexivity.
Qed.

Lemma iter_port_event (outChan : nat) (m : discoveryMessage) (w : World) :
  is_port_event m ->
  m_Port m <> None ->
  msgChans w !! outChan = Some MEmpty ->
  statusMutex (disc w) = false ->
  eventChan_ok w ->
  room 1 w ->
  jsonDecodeLoop_iter outChan (Value m) w
  = Ret Continue (delivered (Event_of (disc w) m) w).
Proof.
  intros Hpe P Hc Hm Hok Hr. unfold jsonDecodeLoop_iter. unfold bind at 1.
  unfold loop_head. rewrite Hc. unfold Event_of.
  destruct Hpe as [-> | ->]; cbn [String.eqb Ascii.eqb Bool.eqb];
    (destruct (m_Port m) as [p|] eqn:P'; [|contradiction]; unfold bind;
     rewrite deliver_delivered by assumption; reflexivity).
Qed.

Lemma iter_port_event_full (outChan : nat) (m : discoveryMessage) (w : World) :
  is_port_event m ->
  m_Port m <> None ->
  msgChans w !! outChan = Some MEmpty ->
  statusMutex (disc w) = false ->
  full w ->
  jsonDecodeLoop_iter outChan (Value m) w = Blocked.
Proof.
  intros Hpe P Hc Hm Hf. unfold jsonDecodeLoop_iter. unfold bind at 1.
  unfold loop_head. rewrite Hc.
  destruct Hpe as [-> | ->]; cbn [String.eqb Ascii.eqb Bool.eqb];
    (destruct (m_Port m) as [p|] eqn:P'; [|contradiction]; unfold bind;
     rewrite deliver_full by assumption; reflexivity).
Qed.

(** With the mutex held the iteration on such an envelope cannot go on. *)
Lemma iter_port_event_held (outChan : nat) (m : discoveryMessage) (w : World) :
  is_port_event m ->
  statusMutex (disc w) = true ->
  jsonDecodeLoop_iter outChan (Value m) w = Blocked.
Proof.
  intros Hpe Hm. unfold jsonDecodeLoop_iter. unfold bind at 1.
  unfold loop_head. destruct (msgChans w !! outChan) as [[| |]|]; try reflexivity.
  destruct Hpe as [-> | ->]; cbn [String.eqb Ascii.eqb Bool.eqb];
    (destruct (m_Port m) as [p|]; unfold bind;
     [ rewrite deliver_held by assumption; reflexivity
     | rewrite closeAndReportError_held by assumption; reflexivity ]).
Qed.

Lemma closeAndReportError_msgChans (outChan : nat) (err : error) (w w' : World) :
  msgChans w !! outChan = Some MEmpty ->
  world_of (closeAndReportError outChan err w) = Some w' ->
  msgChans w' = <[outChan := MClosed]> (msgChans w).
Proof.
  intros Hc. destruct (statusMutex (disc w)) eqn:Hm.
  - rewrite closeAndReportError_held by assumption. discriminate.
  - rewrite closeAndReportError_reported by assumption. intros [= <-]. reflexivity.
Qed.

Lemma deliver_msgChans (type : string) (port : option Port) (w w' : World) :
  world_of (deliver type port w) = Some w' -> msgChans w' = msgChans w.
Proof.
  unfold deliver, bind, Lock, getDisc.
  destruct (statusMutex (disc w)); [discriminate|].
  cbn [disc upd_disc eventChan set_statusMutex].
  destruct (eventChan (disc w)) as [ch|].
  - unfold send_Event. cbn [eventChans upd_disc].
    destruct (eventChans w !! ch) as [c|]; [|intros [= <-]; reflexivity].
    destruct (closed c); [intros [= <-]; reflexivity|].
    destruct (has_room c); [intros [= <-]; reflexivity|discriminate].
  - intros [= <-]. reflexivity.
Qed.

(** An iteration on an "add" or "remove" envelope puts nothing on offer. *)
Lemma iter_port_event_msgChans (outChan : nat) (m : discoveryMessage) (w w' : World) :
  is_port_event m ->
  world_of (jsonDecodeLoop_iter outChan (Value m) w) = Some w' ->
  msgChans w' = msgChans w \/ msgChans w' = <[outChan := MClosed]> (msgChans w).
Proof.
  intros Hpe. unfold jsonDecodeLoop_iter. unfold bind at 1. unfold loop_head.
  destruct (msgChans w !! outChan) as [[| |]|] eqn:Hc; try (cbn; discriminate).
  destruct Hpe as [-> | ->]; cbn [String.eqb Ascii.eqb Bool.eqb];
    (destruct (m_Port m) as [p|]; unfold bind;
     [ destruct (deliver _ _ w) as [[] w1| |] eqn:D; cbn; try discriminate;
       intros [= <-]; left; eapply deliver_msgChans; rewrite D; reflexivity
     | destruct (closeAndReportError _ _ w) as [[] w1| |] eqn:D; cbn; try discriminate;
       intros [= <-]; right; eapply closeAndReportError_msgChans;
       first [exact Hc|rewrite D; reflexivity] ]).
Qed.

(** A wait that reads the closed channel fails with the recorded error, in
    every command. *)
Lemma closed_wait (w : World) (e : error) (size : Z) :
  hung_up w ->
  incomingMessagesError (disc w) = Some e ->
  waitMessage CaseRecv w = Ret (None, Some e) w
  /\ Start_end CaseRecv w = Ret (Some (Wrapf "calling START: " e)) w
  /\ Stop_end CaseRecv w = Ret (Some (Wrapf "calling STOP: " e)) w
  /\ List_end CaseRecv w = Ret ([], Some (Wrapf "calling LIST: " e)) w
  /\ StartSync_end size CaseRecv w
     = Ret (None, Some (Wrapf "calling START_SYNC: " e)) (upd_disc (set_statusMutex false) w)
  /\ Run_end CaseRecv w = Run_deferred (Some (Wrapf "calling HELLO: " e)) w.
Proof.
  intros Hc He.
  assert (W : waitMessage CaseRecv w = Ret (None, Some e) w).
  { rewrite (waitMessage_closed w Hc), He. reflexivity. }
  split; [exact W|].
  unfold Start_end, Stop_end, List_end, StartSync_end, Run_end, defer_, bind.
  rewrite W. repeat split.
Qed.

Lemma idle_world_ok : eventChan_ok idle_world.
Proof. intros ch H. vm_compute in H. discriminate H. Qed.

(** C6, as it is stated, fails for a wait in flight in [StartSync] and for the
    wait of a later [Run].  [StartSync] holds the mutex while it waits: an
    "add" envelope without port that arrives then leaves the loop blocked,
    the channel is not closed, and the wait can only time out, with the
    timeout error and not the one the loop records afterwards.  And after
    the loop has recorded its error and closed the channel, a new [Run]
    waits on the channel of a new loop and returns [nil]. *)
Lemma C6_counterexample :
  exists w1 w2 w3 w4 w5 w6,
    StartSync_begin idle_world = Ret None w1
    /\ jsonDecodeLoop_iter 0%nat (port_event "add" None) w1 = Blocked
    /\ StartSync_end 10 CaseRecv w1 = Blocked
    /\ StartSync_end 10 CaseAfter w1
       = Ret (None, Some (Wrapf "calling START_SYNC: "
                            (ErrorsNew "timeout waiting for message from dummy"))) w2
    /\ jsonDecodeLoop_iter 0%nat (port_event "add" None) w2 = Ret Return w3
    /\ state (disc w3) = Dead
    /\ incomingMessagesError (disc w3) = Some (ErrorsNew "invalid 'add' message: missing port")
    /\ Wrapf "calling START_SYNC: " (ErrorsNew "timeout waiting for message from dummy")
       <> Wrapf "calling START_SYNC: " (ErrorsNew "invalid 'add' message: missing port")
    /\ Run_begin w3 = Ret None w4
    /\ jsonDecodeLoop_iter 1%nat (reply "hello" 1) w4 = Ret Continue w5
    /\ Run_end CaseRecv w5 = Ret None w6.
Proof.
  exists (world_or idle_world (steps [StartSyncBegin] idle_world)).
  exists (world_or idle_world (steps [StartSyncBegin; StartSyncEnd 10 CaseAfter] idle_world)).
  exists (world_or idle_world
            (steps [StartSyncBegin; StartSyncEnd 10 CaseAfter;
                    Loop 0%nat (port_event "add" None)] idle_world)).
  exists (world_or idle_world
            (steps [StartSyncBegin; StartSyncEnd 10 CaseAfter;
                    Loop 0%nat (port_event "add" None); RunBegin] idle_world)).
  exists (world_or idle_world
            (steps [StartSyncBegin; StartSyncEnd 10 CaseAfter;
                    Loop 0%nat (port_event "add" None); RunBegin;
                    Loop 1%nat (reply "hello" 1)] idle_world)).
  exists (world_or idle_world
            (steps [StartSyncBegin; StartSyncEnd 10 CaseAfter;
                    Loop 0%nat (port_event "add" None); RunBegin;
                    Loop 1%nat (reply "hello" 1); RunEnd CaseRecv] idle_world)).
  vm_compute. repeat split. discriminate.
Qed.

(** The critical section of the loop taken apart. *)
Lemma step_LoopCheck (outChan : nat) (m : discoveryMessage) (w : World) (ch : nat) :
  is_port_event m ->
  m_Port m <> None ->
  delivering w = NotDelivering ->
  msgChans w !! outChan = Some MEmpty ->
  statusMutex (disc w) = false ->
  eventChan (disc w) = Some ch ->
  step (LoopCheck outChan m) w
  = Ret tt (set_delivering (Checked outChan (m_EventType m) (m_Port m))
              (upd_disc (set_statusMutex true) w)).
Proof.
  intros Hpe P Hd Hc Hm E. cbn [step]. unfold bind at 1. unfold at_head, bind, getDelivering.
  rewrite Hd. unfold ret at 1.
  unfold jsonDecodeLoop_check. unfold bind at 1. unfold loop_head. rewrite Hc.
  destruct Hpe as [Ht | Ht]; rewrite Ht; cbn [String.eqb Ascii.eqb Bool.eqb];
    (destruct (m_Port m) as [p|] eqn:P'; [|contradiction];
     unfold deliver_check, bind, Lock; rewrite Hm; unfold getDisc;
     cbn [disc upd_disc eventChan set_statusMutex]; rewrite E; reflexivity).
Qed.

Lemma step_LoopEval (w : World) (outChan : nat) (type : string) (port : option Port) :
  delivering w = Checked outChan type port ->
  step LoopEval w
  = Ret tt (set_delivering
              (Evaluated outChan (eventChan (disc w))
                 {| e_Type := type; e_Port := port; e_DiscoveryID := disc_id (disc w) |}) w).
Proof.
  intros Hd. cbn [step]. unfold deliver_eval, bind, getDelivering. rewrite Hd. reflexivity.
Qed.

Lemma step_LoopSend (w : World) (outChan ch : nat) (ev : Event) (c : EventChan) :
  delivering w = Evaluated outChan (Some ch) ev ->
  eventChans w !! ch = Some c ->
  closed c = false ->
  has_room c = true ->
  step LoopSend w
  = Ret tt (set_delivering NotDelivering
              (upd_disc (set_statusMutex false)
                 (set_eventChans
                    (<[ch := {| cap := cap c; sent := sent c ++ [ev]; wanted := wanted c;
                                closed := false |}]> (eventChans w)) w))).
Proof.
  intros Hd Hc Hopen Hroom. cbn [step]. unfold deliver_send, bind, getDelivering.
  rewrite Hd. unfold send_Event. rewrite Hc, Hopen, Hroom. reflexivity.
Qed.

Lemma step_LoopSend_full (w : World) (outChan ch : nat) (ev : Event) (c : EventChan) :
  delivering w = Evaluated outChan (Some ch) ev ->
  eventChans w !! ch = Some c ->
  closed c = false ->
  has_room c = false ->
  step LoopSend w = Blocked.
Proof.
  intros Hd Hc Hopen Hf. cbn [step]. unfold deliver_send, bind, getDelivering.
  rewrite Hd. unfold send_Event. rewrite Hc, Hopen, Hf. reflexivity.
Qed.

(** The check, the operands and the send, with no transition of another
    goroutine between them, are the iteration. *)
Lemma Loop_taken_apart (outChan : nat) (m : discoveryMessage) (w : World) (ch : nat) :
  is_port_event m ->
  m_Port m <> None ->
  delivering w = NotDelivering ->
  msgChans w !! outChan = Some MEmpty ->
  statusMutex (disc w) = false ->
  eventChan_ok w ->
  room 1 w ->
  eventChan (disc w) = Some ch ->
  steps [LoopCheck outChan m; LoopEval; LoopSend] w = step (Loop outChan (Value m)) w.
Proof.
  intros Hpe P Hd Hc Hm Hok Hr E.
  destruct (Hok ch E) as (c & Hl & Hopen).
  pose proof (room_has_room w ch c Hr E Hl) as Hroom.
  cbn [steps]. unfold bind at 1.
  rewrite (step_LoopCheck outChan m w ch Hpe P Hd Hc Hm E).
  set (w1 := set_delivering _ _).
  unfold bind at 1.
  rewrite (step_LoopEval w1 outChan (m_EventType m) (m_Port m) eq_refl).
  set (w2 := set_delivering _ _).
  assert (Hd2 : delivering w2
                = Evaluated outChan (Some ch)
                    {| e_Type := m_EventType m; e_Port := m_Port m;
                       e_DiscoveryID := disc_id (disc w) |}).
  { unfold w2, w1. cbn. rewrite E. reflexivity. }
  unfold bind at 1.
  rewrite (step_LoopSend w2 outChan ch _ c Hd2 Hl Hopen Hroom).
  change (step (Loop outChan (Value m)) w)
    with ((at_head outChan ;; jsonDecodeLoop_iter outChan (Value m) ;; ret tt) w).
  unfold at_head, bind, getDelivering. rewrite Hd. unfold ret. cbn beta iota.
  rewrite (iter_port_event outChan m w Hpe P Hc Hm Hok Hr).
  unfold ret, delivered, Event_of. rewrite E, Hl.
  unfold w2, w1. destruct w as [dc mcs ecs ps o dl qt]. cbn in *. subst dl. reflexivity.
Qed.

(** C6 (amended).  An iteration of the decode loop on an "add" or "remove"
    envelope puts nothing on offer for a waiting caller.  With the mutex
    free: if the envelope has no port the loop returns, the state is [Dead],
    the error is recorded and the channel of the loop is closed; if it has a
    port and the registered event channel can take one more event, or none
    is registered, the loop goes on, and the event went to the registered
    channel, or nowhere when none is registered; if it has a port and the
    channel is full, the iteration cannot complete: the loop takes the
    mutex and waits in its send, holding it.  Every wait that reads the
    closed channel fails with the recorded error, in every command: a wait
    that was in flight without holding the mutex, or a later wait on that
    channel. *)
Theorem C6_decode_loop_port_events (w : World) (outChan : nat) (m : discoveryMessage) :
  is_port_event m ->
  (forall w' ch m',
      world_of (jsonDecodeLoop_iter outChan (Value m) w) = Some w' ->
      msgChans w' !! ch = Some (MOffer m') -> msgChans w !! ch = Some (MOffer m'))
  /\ (msgChans w !! outChan = Some MEmpty ->
      statusMutex (disc w) = false ->
      eventChan_ok w ->
      match m_Port m with
      | None =>
          exists w',
            jsonDecodeLoop_iter outChan (Value m) w = Ret Return w'
            /\ state (disc w') = Dead
            /\ incomingMessagesError (disc w') = Some (missing_port m)
            /\ msgChans w' !! outChan = Some MClosed
            /\ (incomingMessagesChan (disc w) = Some outChan -> hung_up w')
      | Some p =>
          (room 1 w ->
           exists w',
             jsonDecodeLoop_iter outChan (Value m) w = Ret Continue w'
             /\ state (disc w') = state (disc w)
             /\ eventChan (disc w') = eventChan (disc w)
             /\ msgChans w' = msgChans w
             /\ match eventChan (disc w) with
                | Some ch =>
                    exists c,
                      eventChans w !! ch = Some c
                      /\ eventChans w'
                         = <[ch := {| cap := cap c; sent := sent c ++ [Event_of (disc w) m];
                                      wanted := wanted c; closed := false |}]> (eventChans w)
                | None => eventChans w' = eventChans w
                end)
          /\ (full w ->
              jsonDecodeLoop_iter outChan (Value m) w = Blocked
              /\ (delivering w = NotDelivering ->
                  exists w1,
                    steps [LoopCheck outChan m; LoopEval] w = Ret tt w1
                    /\ statusMutex (disc w1) = true
                    /\ eventChans w1 = eventChans w
                    /\ step LoopSend w1 = Blocked))
      end)
  /\ (forall w'' e size,
        hung_up w'' ->
        incomingMessagesError (disc w'') = Some e ->
        waitMessage CaseRecv w'' = Ret (None, Some e) w''
        /\ Start_end CaseRecv w'' = Ret (Some (Wrapf "calling START: " e)) w''
        /\ Stop_end CaseRecv w'' = Ret (Some (Wrapf "calling STOP: " e)) w''
        /\ List_end CaseRecv w'' = Ret ([], Some (Wrapf "calling LIST: " e)) w''
        /\ StartSync_end size CaseRecv w''
           = Ret (None, Some (Wrapf "calling START_SYNC: " e))
                 (upd_disc (set_statusMutex false) w'')
        /\ Run_end CaseRecv w'' = Run_deferred (Some (Wrapf "calling HELLO: " e)) w'').
Proof.
  intros Hpe. split; [|split].
  - intros w' ch m' Hw Hoff.
    destruct (iter_port_event_msgChans outChan m w w' Hpe Hw) as [E|E]; rewrite E in Hoff.
    + exact Hoff.
    + destruct (decide (outChan = ch)) as [->|Hne].
      * destruct (decide (ch < length (msgChans w))%nat) as [Hlt|Hge].
        -- rewrite list_lookup_insert_eq in Hoff by exact Hlt. discriminate.
        -- rewrite list_insert_ge in Hoff by lia. exact Hoff.
      * rewrite list_lookup_insert_ne in Hoff by exact Hne. exact Hoff.
  - intros Hc Hm Hok.
    destruct (m_Port m) as [p|] eqn:P.
    + assert (P' : m_Port m <> None) by (rewrite P; discriminate).
      split.
      * intros Hr. rewrite (iter_port_event outChan m w Hpe P' Hc Hm Hok Hr).
        eexists. split; [reflexivity|]. unfold delivered.
        destruct (eventChan (disc w)) as [ch|] eqn:E.
        -- destruct (Hok ch E) as (c & Hl & _). rewrite Hl. cbn.
           rewrite E. repeat split. exists c. split; reflexivity.
        -- cbn. rewrite E. repeat split.
      * intros Hf. split; [apply iter_port_event_full; assumption|].
        intros Hd. destruct Hf as (ch & c & E & Hl & Hopen & Hfull).
        eexists. split.
        { cbn [steps]. unfold bind at 1.
          rewrite (step_LoopCheck outChan m w ch Hpe P' Hd Hc Hm E).
          unfold bind at 1. erewrite step_LoopEval by reflexivity. reflexivity. }
        split; [reflexivity|]. split; [reflexivity|].
        eapply step_LoopSend_full.
        -- cbn [delivering set_delivering disc upd_disc eventChan set_statusMutex].
           rewrite E. reflexivity.
        -- exact Hl.
        -- exact Hopen.
        -- exact Hfull.
    + rewrite (iter_missing_port outChan m w Hpe P Hc Hm).
      eexists. split; [reflexivity|]. unfold reported. cbn.
      split; [reflexivity|]. split; [reflexivity|].
      assert (L : <[outChan := MClosed]> (msgChans w) !! outChan = Some MClosed).
      { apply list_lookup_insert_eq. eapply lookup_lt_Some. exact Hc. }
      split; [exact L|]. intros Hi. exists outChan. cbn. split; [exact Hi|exact L].
  - intros w'' e size. apply closed_wait.
Qed.

Lemma C6_decode_loop_port_events_witness :
  exists w',
    jsonDecodeLoop_iter 0%nat (port_event "remove" None) idle_world = Ret Return w'
    /\ state (disc w') = Dead
    /\ incomingMessagesError (disc w')
       = Some (ErrorsNew "invalid 'remove' message: missing port")
    /\ msgChans w' !! 0%nat = Some MClosed
    /\ (incomingMessagesChan (disc idle_world) = Some 0%nat -> hung_up w').
Proof.
  apply (proj1 (proj2 (C6_decode_loop_port_events idle_world 0%nat
                         (envelope "remove" EmptyString 0 [] None)
                         (or_intror eq_refl)))
           eq_refl eq_refl idle_world_ok).
Defined.

(** ** What every transition does to the event channels *)

Lemma ev_eq_refl (w : World) : ev_eq w w.
Proof. repeat split. Qed.

Lemma ev_eq_trans (a b c : World) : ev_eq a b -> ev_eq b c -> ev_eq a c.
Proof. intros (? & ? & ? & ?) (? & ? & ? & ?). repeat split; congruence. Qed.

Section Always.

Variable R : World -> World -> Prop.
Hypothesis R_refl : forall w, R w w.
Hypothesis R_trans : forall a b c, R a b -> R b c -> R a c.

Lemma always_ret {A} (a : A) : always R (ret a).
Proof. intros w w' [= <-]. apply R_refl. Qed.

Lemma always_panic {A} (why : string) : always R (@panic A why).
Proof. intros w w' [= <-]. apply R_refl. Qed.

Lemma always_blocked {A} : always R (@blocked A).
Proof. intros w w' H. discriminate H. Qed.

Lemma always_bind {A B} (c : M A) (k : A -> M B) :
  always R c -> (forall a, always R (k a)) -> always R (bind c k).
Proof.
  intros Hc Hk w w'. unfold bind. destruct (c w) as [a w1|why w1|] eqn:E.
  - intros H. apply (R_trans w w1 w').
    + apply Hc. rewrite E. reflexivity.
    + apply (Hk a). exact H.
  - intros [= <-]. apply Hc. rewrite E. reflexivity.
  - discriminate.
Qed.

Lemma always_defer {A} (d : M unit) (body : M A) :
  always R d -> always R body -> always R (defer_ d body).
Proof.
  intros Hd Hb w w'. unfold defer_. destruct (body w) as [a w1|why w1|] eqn:E.
  - intros H. apply (R_trans w w1 w').
    + apply Hb. rewrite E. reflexivity.
    + apply (always_bind d (fun _ => ret a) Hd (fun _ => always_ret a)). exact H.
  - intros H. apply (R_trans w w1 w').
    + apply Hb. rewrite E. reflexivity.
    + apply (@always_bind unit A d (fun _ => panic why) Hd (fun _ => always_panic why)).
      exact H.
  - discriminate.
Qed.

Lemma always_on_panic {A} (d : M unit) (body : M A) :
  always R d -> always R body -> always R (on_panic d body).
Proof.
  intros Hd Hb w w'. unfold on_panic. destruct (body w) as [a w1|why w1|] eqn:E.
  - intros [= <-]. apply Hb. rewrite E. reflexivity.
  - intros H. apply (R_trans w w1 w').
    + apply Hb. rewrite E. reflexivity.
    + apply (@always_bind unit A d (fun _ => panic why) Hd (fun _ => always_panic why)).
      exact H.
  - discriminate.
Qed.

Hypothesis R_frame : forall w w', ev_eq w w' -> R w w'.

Lemma always_frame {A} (c : M A) : always ev_eq c -> always R c.
Proof. intros H w w' E. apply R_frame, H, E. Qed.

End Always.

(** The transitions that leave the event channels alone. *)
Lemma frame_getDisc : always ev_eq getDisc.
Proof. intros w w' [= <-]. apply ev_eq_refl. Qed.

Lemma frame_modDisc (f : Client -> Client) :
  (forall c, eventChan (f c) = eventChan c /\ disc_id (f c) = disc_id c) ->
  always ev_eq (modDisc f).
Proof.
  intros Hf w w' [= <-]. destruct (Hf (disc w)) as (E1 & E2).
  repeat split; cbn; first [assumption|reflexivity].
Qed.

Lemma frame_Lock : always ev_eq Lock.
Proof.
  intros w w'. unfold Lock. destruct (statusMutex (disc w)); [discriminate|].
  intros [= <-]. repeat split.
Qed.

Lemma frame_Unlock : always ev_eq Unlock.
Proof. apply frame_modDisc. intros c. split; reflexivity. Qed.

Lemma frame_sendCommand (cmd : string) : always ev_eq (sendCommand cmd).
Proof.
  intros w w' H. apply sendCommand_disc in H. destruct H as (Hd & He & _ & Hl & _).
  unfold ev_eq. rewrite Hd, He, Hl. repeat split.
Qed.

Lemma frame_waitMessage (sc : SelectCase) : always ev_eq (waitMessage sc).
Proof.
  intros w w'. destruct sc; unfold waitMessage, bind, getDisc, recv_Message, ret.
  - destruct (incomingMessagesChan (disc w)) as [ch|]; [|discriminate].
    destruct (msgChans w !! ch) as [[| |]|]; try discriminate;
      intros [= <-]; repeat split.
  - intros [= <-]. repeat split.
Qed.

Lemma frame_loop_head (outChan : nat) : always ev_eq (loop_head outChan).
Proof.
  intros w w'. unfold loop_head.
  destruct (msgChans w !! outChan) as [[| |]|]; try discriminate.
  intros [= <-]. apply ev_eq_refl.
Qed.

Lemma frame_send_Message (ch : nat) (m : discoveryMessage) : always ev_eq (send_Message ch m).
Proof.
  intros w w'. unfold send_Message.
  destruct (msgChans w !! ch) as [[| |]|]; try discriminate; intros [= <-]; repeat split.
Qed.

Lemma frame_close_Message (ch : nat) : always ev_eq (close_Message ch).
Proof.
  intros w w'. unfold close_Message.
  destruct (msgChans w !! ch) as [[| |]|]; try discriminate; intros [= <-]; repeat split.
Qed.

Lemma frame_NewProcess (args : list string) : always ev_eq (NewProcess args).
Proof.
  intros w w'. unfold NewProcess.
  destruct (NewProcess_err (os w)); intros [= <-]; repeat split.
Qed.

Lemma frame_StdoutPipe (proc : nat) : always ev_eq (StdoutPipe proc).
Proof. intros w w' [= <-]. apply ev_eq_refl. Qed.

Lemma frame_StdinPipe (proc : nat) : always ev_eq (StdinPipe proc).
Proof. intros w w' [= <-]. apply ev_eq_refl. Qed.

Lemma frame_proc_call (call : ProcessCall) (r : OS -> option error) (proc : nat) :
  always ev_eq (proc_call call r proc).
Proof. intros w w' [= <-]. repeat split. Qed.

Lemma frame_make_chan_Message : always ev_eq make_chan_Message.
Proof. intros w w' [= <-]. repeat split. Qed.

Lemma frame_go_jsonDecodeLoop (proc outChan : nat) :
  always ev_eq (go_jsonDecodeLoop proc outChan).
Proof. intros w w' [= <-]. repeat split. Qed.

Lemma frame_getQuitting : always ev_eq getQuitting.
Proof. intros w w' [= <-]. apply ev_eq_refl. Qed.

Lemma frame_getDelivering : always ev_eq getDelivering.
Proof. intros w w' [= <-]. apply ev_eq_refl. Qed.

Lemma frame_goto_Quit (pc : QuitPC) : always ev_eq (goto_Quit pc).
Proof. intros w w' [= <-]. repeat split. Qed.

Lemma frame_stopSync_check : always ev_eq stopSync_check.
Proof.
  intros w w'. unfold stopSync_check, bind, getDisc, ret.
  destruct (eventChan (disc w)); intros [= <-]; apply ev_eq_refl.
Qed.

Create HintDb always_db.

#[local] Hint Resolve frame_getDisc frame_Lock frame_Unlock frame_sendCommand
  frame_waitMessage frame_loop_head frame_send_Message frame_close_Message
  frame_NewProcess frame_StdoutPipe frame_StdinPipe frame_proc_call
  frame_make_chan_Message frame_go_jsonDecodeLoop
  frame_getQuitting frame_getDelivering frame_goto_Quit frame_stopSync_check : always_db.

#[local] Hint Extern 1 (always ev_eq (modDisc _)) =>
  (apply frame_modDisc; intros ?; split; reflexivity) : always_db.

#[local] Hint Extern 1 (always ev_eq (proc_Start _)) => apply frame_proc_call : always_db.
#[local] Hint Extern 1 (always ev_eq (proc_Kill _)) => apply frame_proc_call : always_db.
#[local] Hint Extern 1 (always ev_eq (proc_Wait _)) => apply frame_proc_call : always_db.

(** Walks down a transition written with [bind]: the relation is given by
    its reflexivity [Rr], its transitivity [Rt] and the fact [Rf] that it
    holds across transitions that leave the event channels alone. *)
Ltac walk Rr Rt Rf :=
  repeat (intros;
          try solve [auto with always_db];
          lazymatch goal with
          | |- always _ (bind _ _) => apply (always_bind _ Rt)
          | |- always _ (ret _) => apply (always_ret _ Rr)
          | |- always _ (panic _) => apply (always_panic _ Rr)
          | |- always _ blocked => apply always_blocked
          | |- always _ (defer_ _ _) => apply (always_defer _ Rr Rt)
          | |- always _ (on_panic _ _) => apply (always_on_panic _ Rr Rt)
          | |- always _ (match ?x with _ => _ end) => destruct x
          | |- always _ _ =>
              first [ solve [auto with always_db]
                    | apply (always_frame _ Rf); solve [auto with always_db] ]
          end).

Lemma ev_eq_frame (w w' : World) : ev_eq w w' -> ev_eq w w'.
Proof. exact (fun H => H). Qed.

Lemma frame_runProcess : always ev_eq runProcess.
Proof. unfold runProcess. walk ev_eq_refl ev_eq_trans ev_eq_frame. Qed.

(** ** Every event channel is closed once, after one "stop" *)

Lemma keeps_refl (w : World) : keeps w w.
Proof. intros H. exact H. Qed.

Lemma keeps_trans (a b c : World) : keeps a b -> keeps b c -> keeps a c.
Proof. unfold keeps. auto. Qed.

Lemma keeps_frame (w w' : World) : ev_eq w w' -> keeps w w'.
Proof.
  intros (E1 & E2 & _). unfold keeps, closed_once. rewrite E1, E2. auto.
Qed.

Lemma has_room_room (w : World) (ch : nat) (c : EventChan) :
  eventChan (disc w) = Some ch -> eventChans w !! ch = Some c -> has_room c = true ->
  room 1 w.
Proof.
  intros E Hc Hr ch' c' E' Hc'. rewrite E in E'. injection E' as <-.
  rewrite Hc in Hc'. injection Hc' as <-. unfold has_room in Hr.
  apply Z.ltb_lt in Hr. lia.
Qed.

(** With the registered channel open, either there is room for an event or
    the channel is full. *)
Lemma room_or_full (w : World) : eventChan_ok w -> room 1 w \/ full w.
Proof.
  intros Hok. destruct (eventChan (disc w)) as [ch|] eqn:E.
  - destruct (Hok ch E) as (c & Hc & Hopen). destruct (has_room c) eqn:Hr.
    + left. exact (has_room_room w ch c E Hc Hr).
    + right. exists ch, c. auto.
  - left. intros ch c E'. rewrite E in E'. discriminate.
Qed.

Lemma closed_once_ok (w : World) : closed_once w -> eventChan_ok w.
Proof.
  intros (H & _) ch E. destruct (H ch E) as (c & Hc & Ho & _). eauto.
Qed.

Lemma closed_once_flush (w : World) : closed_once w -> closed_once (flush w).
Proof.
  intros (Hreg & Hret). unfold flush, flushed_chans.
  destruct (eventChan (disc w)) as [ch|] eqn:E.
  2:{ split; [intros ch H; rewrite E in H; discriminate|].
      intros ch c Hl _. apply (Hret ch c Hl). discriminate. }
  destruct (Hreg ch eq_refl) as (c & Hc & Ho & Hn). rewrite Hc.
  split; cbn; [discriminate|].
  intros ch' c' Hl _. destruct (decide (ch = ch')) as [<-|Hne].
  - rewrite list_lookup_insert_eq in Hl by (eapply lookup_lt_Some; exact Hc).
    injection Hl as <-. split; [reflexivity|].
    exists (sent c), (stop_Event (disc w)). cbn. auto.
  - rewrite list_lookup_insert_ne in Hl by exact Hne.
    apply (Hret ch' c' Hl). congruence.
Qed.

Lemma keeps_stopSync : always keeps stopSync.
Proof.
  intros w w' H Hw. pose proof (closed_once_ok w Hw) as Hok.
  destruct (room_or_full w Hok) as [Hr|Hf].
  - rewrite (stopSync_flush w Hok Hr) in H.
    injection H as <-. apply closed_once_flush, Hw.
  - rewrite (stopSync_full w Hf) in H. discriminate.
Qed.

Lemma closed_once_delivered (ev : Event) (w : World) :
  e_Type ev <> "stop" -> closed_once w -> closed_once (delivered ev w).
Proof.
  intros Hev (Hreg & Hret). unfold delivered.
  destruct (eventChan (disc w)) as [ch|] eqn:E.
  - destruct (Hreg ch eq_refl) as (c & Hc & Ho & Hn). rewrite Hc.
    split; cbn; rewrite E.
    + intros ch' [= <-]. eexists. split.
      * apply list_lookup_insert_eq. eapply lookup_lt_Some; exact Hc.
      * split; [reflexivity|]. cbn. apply Forall_app. split; [exact Hn|].
        constructor; [exact Hev|constructor].
    + intros ch' c' Hl Hne. rewrite list_lookup_insert_ne in Hl by congruence.
      apply (Hret ch' c' Hl). exact Hne.
  - split; cbn; rewrite E; [discriminate|]. intros ch' c' Hl _.
    apply (Hret ch' c' Hl). discriminate.
Qed.

Lemma keeps_deliver (type : string) (port : option Port) :
  type = "add" \/ type = "remove" -> always keeps (deliver type port).
Proof.
  intros Ht w w' H Hw. destruct (statusMutex (disc w)) eqn:Hm.
  - rewrite deliver_held in H by exact Hm. discriminate.
  - pose proof (closed_once_ok w Hw) as Hok.
    destruct (room_or_full w Hok) as [Hr|Hf].
    + rewrite deliver_delivered in H by assumption.
      injection H as <-. apply closed_once_delivered; [|exact Hw].
      cbn. destruct Ht as [-> | ->]; discriminate.
    + rewrite deliver_full in H by assumption. discriminate.
Qed.

Lemma replace_chan_runs (size : Z) (w : World) :
  eventChan_ok w ->
  room 1 w ->
  replace_chan size w
  = if (size <? 0)%Z then Panic "makechan: size out of range" (flush w)
    else Ret (Some (length (eventChans w)), None)
             (upd_disc (set_eventChan (Some (length (eventChans w))))
                (set_eventChans (replaced_chans size w) (flush w))).
Proof.
  intros Hok Hr. unfold replace_chan, bind. rewrite (stopSync_flush w Hok Hr).
  unfold make_chan_Event. destruct (size <? 0)%Z; [reflexivity|].
  unfold modDisc, ret, replaced_chans.
  destruct (flush_fields w) as (-> & _).
  assert (L : length (flushed_chans w) = length (eventChans w)).
  { unfold flushed_chans. destruct (eventChan (disc w)) as [ch|]; [|reflexivity].
    destruct (eventChans w !! ch); [|reflexivity]. apply length_insert. }
  rewrite L. destruct w as [c mcs ecs ps o dl qt]. unfold flush. cbn.
  destruct (eventChan c); reflexivity.
Qed.

Lemma replace_chan_full (size : Z) (w : World) : full w -> replace_chan size w = Blocked.
Proof. intros Hf. unfold replace_chan, bind. rewrite (stopSync_full w Hf). reflexivity. Qed.

Lemma closed_once_replaced (size : Z) (w : World) :
  closed_once w ->
  closed_once (upd_disc (set_eventChan (Some (length (eventChans w))))
                 (set_eventChans (replaced_chans size w) (flush w))).
Proof.
  intros Hw. pose proof (closed_once_flush w Hw) as (_ & Hret).
  destruct (flush_frame w) as (_ & _ & _ & _ & _ & Hnone).
  destruct (flush_fields w) as (Hfc & _).
  assert (L : length (flushed_chans w) = length (eventChans w)).
  { unfold flushed_chans. destruct (eventChan (disc w)) as [ch|]; [|reflexivity].
    destruct (eventChans w !! ch); [|reflexivity]. apply length_insert. }
  unfold replaced_chans. split; cbn.
  - intros ch [= <-]. eexists. split.
    + apply list_lookup_middle. symmetry. exact L.
    + split; [reflexivity|constructor].
  - intros ch c Hl Hne.
    destruct (decide (ch < length (flushed_chans w))%nat) as [Hlt|Hge].
    + rewrite lookup_app_l in Hl by exact Hlt. rewrite <- Hfc in Hl.
      apply (Hret ch c Hl). rewrite Hnone. discriminate.
    + exfalso. apply lookup_lt_Some in Hl. rewrite length_app in Hl. cbn in Hl.
      apply Hne. f_equal. lia.
Qed.

Lemma keeps_replace_chan (size : Z) : always keeps (replace_chan size).
Proof.
  intros w w' H Hw. pose proof (closed_once_ok w Hw) as Hok.
  destruct (room_or_full w Hok) as [Hr|Hf].
  - rewrite (replace_chan_runs size w Hok Hr) in H.
    destruct (size <? 0)%Z; injection H as <-.
    + apply closed_once_flush, Hw.
    + apply closed_once_replaced, Hw.
  - rewrite (replace_chan_full size w Hf) in H. discriminate.
Qed.

(** The consumer takes nothing back. *)
Lemma keeps_receive_Event (ch : nat) : always keeps (receive_Event ch).
Proof.
  intros w w'. unfold receive_Event.
  destruct (eventChans w !! ch) as [c|] eqn:Hc; [|discriminate].
  intros [= <-] (Hreg & Hret). split; cbn.
  - intros ch' E. destruct (Hreg ch' E) as (c' & Hc' & Hl).
    destruct (decide (ch = ch')) as [<-|Hne].
    + rewrite Hc in Hc'. injection Hc' as <-. eexists. split.
      * apply list_lookup_insert_eq. eapply lookup_lt_Some. exact Hc.
      * exact Hl.
    + exists c'. split; [|exact Hl]. rewrite list_lookup_insert_ne by exact Hne. exact Hc'.
  - intros ch' c' Hl Hne. destruct (decide (ch = ch')) as [<-|Hne'].
    + rewrite list_lookup_insert_eq in Hl by (eapply lookup_lt_Some; exact Hc).
      injection Hl as <-. exact (Hret ch c Hc Hne).
    + rewrite list_lookup_insert_ne in Hl by exact Hne'. exact (Hret ch' c' Hl Hne).
Qed.

(** The check and the operands of the critical section touch no channel. *)
Lemma keeps_deliver_check (outChan : nat) (type : string) (port : option Port) :
  always keeps (deliver_check outChan type port).
Proof.
  intros w w'. unfold deliver_check, bind, Lock, getDisc.
  destruct (statusMutex (disc w)); [discriminate|].
  cbn [disc upd_disc eventChan set_statusMutex].
  destruct (eventChan (disc w)); intros [= <-] Hw; exact Hw.
Qed.

Lemma keeps_deliver_eval : always keeps deliver_eval.
Proof.
  intros w w'. unfold deliver_eval, bind, getDelivering.
  destruct (delivering w); try discriminate. intros [= <-] Hw. exact Hw.
Qed.

(** The send of the critical section, when what is sent is no "stop"
    event. *)
Lemma closed_once_deliver_send (w w' : World) :
  world_of (deliver_send w) = Some w' ->
  pending_ok w -> closed_once w -> closed_once w'.
Proof.
  unfold deliver_send, pending_ok, bind, getDelivering.
  destruct (delivering w) as [|o t p|o [ch|] ev]; try discriminate.
  unfold send_Event.
  destruct (eventChans w !! ch) as [c|] eqn:Hc; [|intros [= <-] _ Hw; exact Hw].
  destruct (closed c) eqn:Hopen; [intros [= <-] _ Hw; exact Hw|].
  destruct (has_room c); [|discriminate].
  unfold Unlock, modDisc. intros [= <-] (_ & Ht & _) (Hreg & Hret).
  assert (E : eventChan (disc w) = Some ch).
  { destruct (decide (eventChan (disc w) = Some ch)) as [E|N]; [exact E|].
    destruct (Hret ch c Hc N) as (Hcl & _). congruence. }
  destruct (Hreg ch E) as (c0 & Hc0 & _ & Hn). rewrite Hc in Hc0. injection Hc0 as <-.
  split; cbn.
  - intros ch' E'. rewrite E in E'. injection E' as <-. eexists. split.
    + apply list_lookup_insert_eq. eapply lookup_lt_Some. exact Hc.
    + split; [reflexivity|]. cbn. apply Forall_app. split; [exact Hn|].
      constructor; [|constructor]. destruct Ht as [-> | ->]; discriminate.
  - intros ch' c' Hl Hne. rewrite E in Hne.
    rewrite list_lookup_insert_ne in Hl by congruence.
    apply (Hret ch' c' Hl). rewrite E. exact Hne.
Qed.

#[local] Hint Resolve keeps_stopSync keeps_receive_Event keeps_deliver_check
  keeps_deliver_eval : always_db.
#[local] Hint Extern 1 (always keeps (deliver _ _)) =>
  (apply keeps_deliver; first [left; reflexivity | right; reflexivity]) : always_db.
#[local] Hint Extern 1 (always keeps (bind stopSync _)) =>
  apply keeps_replace_chan : always_db.

(** Every transition keeps [closed_once], but for the send of the critical
    section of the loop, which needs what it sends, and for the statements
    of [stopSync] in [Quit]. *)
Lemma step_keeps (s : Step) :
  locked s = true -> s <> LoopSend -> always keeps (step s).
Proof.
  destruct s; try discriminate; intros _ N; try contradiction;
    unfold step, SetUserAgent, State_, Run_begin, Run_end, Run_deferred,
    Start_begin, Start_end, Stop_begin, Stop_end, List_begin, List_end,
    StartSync_begin, StartSync_end, Quit_begin, Quit_wait, Quit_kill, jsonDecodeLoop_iter,
    jsonDecodeLoop_check, closeAndReportError, killProcess, runProcess, at_Quit, at_head;
    walk keeps_refl keeps_trans keeps_frame.
Qed.

(** ** Two calls of StartSync *)

Lemma keeps_reg_refl (w : World) : keeps_reg w w.
Proof. reflexivity. Qed.

Lemma keeps_reg_trans (a b c : World) : keeps_reg a b -> keeps_reg b c -> keeps_reg a c.
Proof. unfold keeps_reg. congruence. Qed.

Lemma keeps_reg_frame (w w' : World) : ev_eq w w' -> keeps_reg w w'.
Proof. intros (E & _). exact E. Qed.

Lemma keeps_reg_deliver (type : string) (port : option Port) :
  always keeps_reg (deliver type port).
Proof.
  intros w w'. unfold deliver, bind, Lock, getDisc, keeps_reg.
  destruct (statusMutex (disc w)); [discriminate|].
  cbn [disc upd_disc eventChan set_statusMutex].
  destruct (eventChan (disc w)) as [ch|] eqn:E.
  - unfold send_Event. cbn [eventChans upd_disc].
    destruct (eventChans w !! ch) as [c|]; [|intros [= <-]; cbn; exact E].
    destruct (closed c); [intros [= <-]; cbn; exact E|].
    destruct (has_room c); [intros [= <-]; cbn; exact E|discriminate].
  - intros [= <-]. cbn. exact E.
Qed.

Lemma keeps_reg_receive_Event (ch : nat) : always keeps_reg (receive_Event ch).
Proof.
  intros w w'. unfold receive_Event.
  destruct (eventChans w !! ch); [|discriminate]. intros [= <-]. reflexivity.
Qed.

#[local] Hint Resolve keeps_reg_deliver keeps_reg_receive_Event : always_db.

Lemma between_keeps_reg (s : Step) : between s = true -> always keeps_reg (step s).
Proof.
  destruct s; try discriminate; intros _;
    unfold step, StartSync_begin, jsonDecodeLoop_iter, closeAndReportError, at_head;
    walk keeps_reg_refl keeps_reg_trans keeps_reg_frame.
Qed.

Lemma between_locked (s : Step) : between s = true -> locked s = true /\ s <> LoopSend.
Proof. destruct s; try discriminate; intros _; (split; [reflexivity|discriminate]). Qed.

Lemma between_steps (l : list Step) : forall w w',
  forallb between l = true ->
  steps l w = Ret tt w' ->
  closed_once w ->
  eventChan (disc w') = eventChan (disc w) /\ closed_once w'.
Proof.
  induction l as [|s l IH]; intros w w' Hb Hs Hw; cbn [steps forallb] in *.
  - injection Hs as <-. auto.
  - apply andb_true_iff in Hb. destruct Hb as (Hb1 & Hb2).
    unfold bind in Hs. destruct (step s w) as [[] w1| |] eqn:E; try discriminate.
    assert (E' : world_of (step s w) = Some w1) by (rewrite E; reflexivity).
    destruct (between_locked s Hb1) as (Hl1 & Hl2).
    destruct (IH w1 w' Hb2 Hs (step_keeps s Hl1 Hl2 w w1 E' Hw)) as (H1 & H2).
    split; [|exact H2]. rewrite H1. apply (between_keeps_reg s Hb1 w w1 E').
Qed.

(** A [StartSync] that returns a channel has flushed the registered one and
    registered a new one. *)
Lemma StartSync_end_channel (size : Z) (sc : SelectCase) (w w' : World) (ch : nat) :
  closed_once w ->
  StartSync_end size sc w = Ret (Some ch, None) w' ->
  ch = length (eventChans w)
  /\ eventChan (disc w') = Some ch
  /\ eventChans w' = replaced_chans size w
  /\ state (disc w') = Syncing.
Proof.
  intros Hw. unfold StartSync_end, defer_. unfold bind at 1.
  destruct (waitMessage sc w) as [[msg err] w0| |] eqn:W; [|discriminate|discriminate].
  assert (F : ev_eq w w0) by (apply (frame_waitMessage sc); rewrite W; reflexivity).
  destruct F as (F1 & F2 & F3 & _).
  destruct msg as [msg|], err as [err|]; unfold ret, panic, Unlock, modDisc, bind;
    try discriminate.
  destruct (negb (m_EventType msg =? "start_sync")); [discriminate|].
  destruct (m_Error msg); [discriminate|].
  destruct (negb (ToUpper (m_Message msg) =? "OK")); [discriminate|].
  change (match replace_chan size (upd_disc (set_state Syncing) w0) with
          | Ret a w'0 => Ret a (upd_disc (set_statusMutex false) w'0)
          | Panic why w'0 => Panic why (upd_disc (set_statusMutex false) w'0)
          | Blocked => Blocked
          end = Ret (Some ch, None) w' -> ch = length (eventChans w)
            /\ eventChan (disc w') = Some ch /\ eventChans w' = replaced_chans size w
            /\ state (disc w') = Syncing).
  assert (Hok : eventChan_ok (upd_disc (set_state Syncing) w0)).
  { intros c. cbn. rewrite F1, F2. apply (closed_once_ok w Hw). }
  destruct (room_or_full _ Hok) as [Hr|Hf];
    [|rewrite (replace_chan_full size _ Hf); discriminate].
  rewrite (replace_chan_runs size _ Hok Hr).
  destruct (size <? 0)%Z; [discriminate|].
  intros [= <- <-]. cbn. rewrite F2. unfold replaced_chans, flushed_chans. cbn.
  unfold stop_Event. cbn. rewrite F1, F2, F3.
  split; [reflexivity|]. split; [reflexivity|]. split; [reflexivity|].
  destruct (flush_frame (upd_disc (set_state Syncing) w0)) as (_ & _ & _ & -> & _).
  reflexivity.
Qed.

Lemma reachable_steps (l : list Step) : forall w w',
  steps l w = Ret tt w' -> reachable w -> reachable w'.
Proof.
  induction l as [|s l IH]; intros w w' Hs Hr; cbn [steps] in Hs.
  - injection Hs as <-. exact Hr.
  - unfold bind in Hs. destruct (step s w) as [[] w1| |] eqn:E; try discriminate.
    apply (IH w1 w' Hs). apply (reachable_step s w w1 Hr). rewrite E. reflexivity.
Qed.

Lemma reachable_by_steps (ok : Step -> bool) (l : list Step) : forall w w',
  forallb ok l = true -> steps l w = Ret tt w' -> reachable_by ok w -> reachable_by ok w'.
Proof.
  induction l as [|s l IH]; intros w w' Hb Hs Hr; cbn [steps forallb] in *.
  - injection Hs as <-. exact Hr.
  - apply andb_true_iff in Hb. destruct Hb as (Hb1 & Hb2).
    unfold bind in Hs. destruct (step s w) as [[] w1| |] eqn:E; try discriminate.
    apply (IH w1 w' Hb2 Hs). apply (reachable_by_step ok s w w1 Hb1 Hr).
    rewrite E. reflexivity.
Qed.

(** What a loop is about to send stays an "add" or "remove" event with its
    port. *)
Lemma pending_eq_refl (w : World) : pending_eq w w.
Proof. split; reflexivity. Qed.

Lemma pending_eq_trans (a b c : World) : pending_eq a b -> pending_eq b c -> pending_eq a c.
Proof. intros (? & ?) (? & ?). split; congruence. Qed.

Lemma pending_eq_frame (w w' : World) : ev_eq w w' -> pending_eq w w'.
Proof. intros (_ & _ & E1 & E2). split; assumption. Qed.

Lemma pending_eq_send_Event (ch : nat) (ev : Event) : always pending_eq (send_Event ch ev).
Proof.
  intros w w'. unfold send_Event.
  destruct (eventChans w !! ch) as [c|]; [|intros [= <-]; apply pending_eq_refl].
  destruct (closed c); [intros [= <-]; apply pending_eq_refl|].
  destruct (has_room c); [|discriminate]. intros [= <-]. split; reflexivity.
Qed.

Lemma pending_eq_close_Event (ch : nat) : always pending_eq (close_Event ch).
Proof.
  intros w w'. unfold close_Event.
  destruct (eventChans w !! ch) as [c|]; [|intros [= <-]; apply pending_eq_refl].
  destruct (closed c); intros [= <-]; split; reflexivity.
Qed.

Lemma pending_eq_make_chan_Event (size : Z) : always pending_eq (make_chan_Event size).
Proof.
  intros w w'. unfold make_chan_Event.
  destruct (size <? 0)%Z; intros [= <-]; split; reflexivity.
Qed.

Lemma pending_eq_receive_Event (ch : nat) : always pending_eq (receive_Event ch).
Proof.
  intros w w'. unfold receive_Event.
  destruct (eventChans w !! ch); [|discriminate]. intros [= <-]. split; reflexivity.
Qed.

Lemma pending_eq_modDisc (f : Client -> Client) :
  (forall c, disc_id (f c) = disc_id c) -> always pending_eq (modDisc f).
Proof. intros Hf w w' [= <-]. split; [reflexivity|apply Hf]. Qed.

Lemma keeps_pending_eq (w w' : World) : pending_eq w w' -> keeps_pending w w'.
Proof. intros (E1 & E2). unfold keeps_pending, pending_ok. rewrite E1, E2. auto. Qed.

Lemma keeps_pending_trans (a b c : World) :
  keeps_pending a b -> keeps_pending b c -> keeps_pending a c.
Proof. unfold keeps_pending. auto. Qed.

Lemma always_keeps_pending {A} (c : M A) : always pending_eq c -> always keeps_pending c.
Proof. intros H w w' E. apply keeps_pending_eq, H, E. Qed.

Ltac pending_walk :=
  repeat (intros;
          lazymatch goal with
          | |- always pending_eq (bind _ _) => apply (always_bind _ pending_eq_trans)
          | |- always pending_eq (ret _) => apply (always_ret _ pending_eq_refl)
          | |- always pending_eq (panic _) => apply (always_panic _ pending_eq_refl)
          | |- always pending_eq blocked => apply always_blocked
          | |- always pending_eq (defer_ _ _) =>
              apply (always_defer _ pending_eq_refl pending_eq_trans)
          | |- always pending_eq (on_panic _ _) =>
              apply (always_on_panic _ pending_eq_refl pending_eq_trans)
          | |- always pending_eq (send_Event _ _) => apply pending_eq_send_Event
          | |- always pending_eq (close_Event _) => apply pending_eq_close_Event
          | |- always pending_eq (make_chan_Event _) => apply pending_eq_make_chan_Event
          | |- always pending_eq (receive_Event _) => apply pending_eq_receive_Event
          | |- always pending_eq (modDisc _) =>
              apply pending_eq_modDisc; intros ?; reflexivity
          | |- always pending_eq (match ?x with _ => _ end) => destruct x
          | |- always pending_eq _ =>
              apply (always_frame _ pending_eq_frame); solve [auto with always_db]
          end).

Lemma keeps_pending_deliver_check (outChan : nat) (type : string) (port : option Port) :
  (type = "add" \/ type = "remove") -> port <> None ->
  always keeps_pending (deliver_check outChan type port).
Proof.
  intros Ht Hp w w'. unfold deliver_check, bind, Lock, getDisc.
  destruct (statusMutex (disc w)); [discriminate|].
  cbn [disc upd_disc eventChan set_statusMutex].
  destruct (eventChan (disc w)); intros [= <-] Hw.
  - unfold pending_ok. cbn. auto.
  - exact Hw.
Qed.

Lemma keeps_pending_deliver_eval : always keeps_pending deliver_eval.
Proof.
  intros w w'. unfold deliver_eval, keeps_pending, pending_ok, bind, getDelivering.
  destruct (delivering w) as [|o t p|o ch ev]; try discriminate.
  intros [= <-] (Ht & Hp). cbn. repeat split; assumption.
Qed.

Lemma keeps_pending_deliver_send : always keeps_pending deliver_send.
Proof.
  intros w w'. unfold deliver_send, bind, getDelivering.
  destruct (delivering w) as [|o t p|o [ch|] ev] eqn:D; try discriminate.
  unfold send_Event.
  destruct (eventChans w !! ch) as [c|]; [|intros [= <-] Hw; exact Hw].
  destruct (closed c); [intros [= <-] Hw; exact Hw|].
  destruct (has_room c); [|discriminate].
  unfold Unlock, modDisc. intros [= <-] _. exact I.
Qed.

(** Every transition keeps [pending_ok]. *)
Lemma step_keeps_pending (s : Step) : always keeps_pending (step s).
Proof.
  destruct s;
    try (apply always_keeps_pending;
         unfold step, SetUserAgent, State_, Run_begin, Run_end, Run_deferred,
           Start_begin, Start_end, Stop_begin, Stop_end, List_begin, List_end,
           StartSync_begin, StartSync_end, Quit_begin, Quit_wait, Quit_kill,
           stopSync_send, stopSync_close, stopSync_nil, jsonDecodeLoop_iter, deliver,
           closeAndReportError, killProcess, runProcess, stopSync, at_Quit, at_head;
         pending_walk; fail).
  - unfold step, jsonDecodeLoop_check.
    apply (always_bind _ keeps_pending_trans);
      [apply always_keeps_pending; unfold at_head; pending_walk|intros _].
    apply (always_bind _ keeps_pending_trans);
      [apply always_keeps_pending; pending_walk|intros _].
    destruct (m_EventType msg =? "add").
    + destruct (m_Port msg) eqn:P; [|apply always_blocked].
      apply keeps_pending_deliver_check; [left; reflexivity|discriminate].
    + destruct (m_EventType msg =? "remove"); [|apply always_blocked].
      destruct (m_Port msg) eqn:P; [|apply always_blocked].
      apply keeps_pending_deliver_check; [right; reflexivity|discriminate].
  - exact keeps_pending_deliver_eval.
  - exact keeps_pending_deliver_send.
Qed.

(** The invariant of the transitions that run under the mutex. *)
Lemma reachable_by_locked (w : World) :
  reachable_by locked w -> closed_once w /\ pending_ok w.
Proof.
  induction 1 as [id args o|s w w' Hl _ IH Hs|o w _ IH].
  - split; [|exact I].
    split; cbn; [discriminate|]. intros ch c Hc. rewrite lookup_nil in Hc. discriminate.
  - destruct IH as (IH1 & IH2). split; [|exact (step_keeps_pending s w w' Hs IH2)].
    assert (D : s = LoopSend \/ s <> LoopSend)
      by (destruct s; first [left; reflexivity | right; discriminate]).
    destruct D as [->|N].
    + exact (closed_once_deliver_send w w' Hs IH2 IH1).
    + exact (step_keeps s Hl N w w' Hs IH1).
  - exact IH.
Qed.

(** An iteration after which the loop returns leaves the event channels and
    the registration as they are. *)
Lemma Return_leaves_channel (outChan : nat) (d : Decoded) (w w' : World) :
  jsonDecodeLoop_iter outChan d w = Ret Return w' ->
  state (disc w') = Dead
  /\ incomingMessagesError (disc w') <> None
  /\ eventChan (disc w') = eventChan (disc w)
  /\ eventChans w' = eventChans w.
Proof.
  assert (G : forall err w0 w1 (u : unit),
             closeAndReportError outChan err w0 = Ret u w1 ->
             state (disc w1) = Dead /\ incomingMessagesError (disc w1) <> None
             /\ eventChan (disc w1) = eventChan (disc w0) /\ eventChans w1 = eventChans w0).
  { intros err w0 w1 []. unfold closeAndReportError, bind, Lock.
    destruct (statusMutex (disc w0)); [discriminate|].
    unfold modDisc, Unlock, modDisc, close_Message. cbn [msgChans upd_disc].
    destruct (msgChans w0 !! outChan) as [[| |]|]; try discriminate;
      intros [= <-]; cbn; repeat split; discriminate. }
  unfold jsonDecodeLoop_iter. unfold bind at 1. unfold loop_head.
  destruct (msgChans w !! outChan) as [[| |]|] eqn:Hc; try discriminate.
  destruct d as [msg|err].
  - destruct (m_EventType msg =? "add").
    + destruct (m_Port msg).
      * unfold bind. destruct (deliver _ _ w); discriminate.
      * unfold bind. destruct (closeAndReportError _ _ w) as [u w1| |] eqn:C;
          try discriminate. intros [= <-]. exact (G _ _ _ _ C).
    + destruct (m_EventType msg =? "remove").
      * destruct (m_Port msg).
        -- unfold bind. destruct (deliver _ _ w); discriminate.
        -- unfold bind. destruct (closeAndReportError _ _ w) as [u w1| |] eqn:C;
             try discriminate. intros [= <-]. exact (G _ _ _ _ C).
      * unfold bind. destruct (send_Message _ _ w); discriminate.
  - destruct (errors_Is_EOF err).
    + unfold bind, Lock. destruct (statusMutex (disc w)); [discriminate|].
      unfold modDisc, Unlock, modDisc, close_Message. cbn [msgChans upd_disc].
      rewrite Hc. unfold ret. intros [= <-]. cbn. repeat split; discriminate.
    + unfold bind. destruct (closeAndReportError _ _ w) as [u w1| |] eqn:C;
        try discriminate. intros [= <-]. exact (G _ _ _ _ C).
Qed.

(** C5, as it is stated, fails in two places.  Where the client reaches
    [Dead] through the decode loop: after the end of the output the state
    is [Dead], and the event channel that [StartSync] returned is open
    still, with the "add" event it got and no "stop" event.  And in [Quit],
    whose [stopSync] runs without the mutex: an "add" event that the loop
    delivers between the send and the [close] of [stopSync] comes after the
    "stop" event on the channel that is then closed. *)
Lemma C5_counterexample :
  (exists w',
     steps sync_then_EOF fresh_world = Ret tt w'
     /\ state (disc w') = Dead
     /\ eventChan (disc w') = Some 0%nat
     /\ eventChans w' !! 0%nat
        = Some {| cap := 10;
                  sent := [{| e_Type := "add"; e_Port := Some (aPort "1");
                              e_DiscoveryID := "dummy" |}];
                  wanted := 0;
                  closed := false |})
  /\ (exists w',
        steps Quit_race fresh_world = Ret tt w'
        /\ state (disc w') = Dead
        /\ eventChan (disc w') = None
        /\ eventChans w' !! 0%nat
           = Some {| cap := 10;
                     sent := [{| e_Type := "stop"; e_Port := None;
                                 e_DiscoveryID := "dummy" |};
                              {| e_Type := "add"; e_Port := Some (aPort "1");
                                 e_DiscoveryID := "dummy" |}];
                     wanted := 0;
                     closed := true |}).
Proof.
  split.
  - exists (world_or fresh_world (steps sync_then_EOF fresh_world)).
    vm_compute. repeat split.
  - exists (world_or fresh_world (steps Quit_race fresh_world)).
    vm_compute. repeat split.
Qed.

(** C5 (amended).  In every world the client can get into by the
    transitions that run under the mutex, the registered event channel is
    open and has no "stop" event, and every other event channel ever made
    (one replaced or discarded by [Stop], by a later [StartSync] or by
    [killProcess]) is closed and the last event sent on it is its only
    "stop" event.  The statements of [stopSync] in [Quit] keep this when no
    transition of another goroutine comes between them.  An iteration after
    which the decode loop returns leaves the state [Dead] and the registered
    channel registered and as it was.  Two [StartSync] calls that return
    channels, with only decode loop iterations, receives of the consumer and
    the start of the second call between them, return two different
    channels; at the end of the second call the first channel got its "stop"
    event after what it had and is closed, and the second is registered,
    open and empty. *)
Theorem C5_event_channels_closed_once :
  (forall w, reachable_by locked w -> closed_once w)
  /\ (forall w, closed_once w -> quitting w = AtCheck -> room 1 w ->
        exists w',
          steps (QuitCheck :: (if registered w then [QuitSend; QuitClose; QuitNil] else [])) w
          = Ret tt w'
          /\ closed_once w' /\ eventChan (disc w') = None)
  /\ (forall outChan d w w',
        jsonDecodeLoop_iter outChan d w = Ret Return w' ->
        state (disc w') = Dead
        /\ eventChan (disc w') = eventChan (disc w)
        /\ eventChans w' = eventChans w)
  /\ (forall (w0 w1 w2 w3 : World) (size1 size2 : Z) (sc1 sc2 : SelectCase)
             (ch1 ch2 : nat) (l : list Step),
        closed_once w0 ->
        StartSync_end size1 sc1 w0 = Ret (Some ch1, None) w1 ->
        forallb between l = true ->
        steps l w1 = Ret tt w2 ->
        StartSync_end size2 sc2 w2 = Ret (Some ch2, None) w3 ->
        ch1 <> ch2
        /\ eventChan (disc w3) = Some ch2
        /\ eventChans w3 !! ch2
           = Some {| cap := size2; sent := []; wanted := 0; closed := false |}
        /\ exists c,
             eventChans w2 !! ch1 = Some c
             /\ live c
             /\ eventChans w3 !! ch1
                = Some {| cap := cap c; sent := sent c ++ [stop_Event (disc w2)];
                          wanted := wanted c; closed := true |}).
Proof.
  split; [intros w H; exact (proj1 (reachable_by_locked w H))|].
  split.
  { intros w Hw Hq Hr. exists (set_quitting AtKill (flush w)).
    split; [exact (Quit_flush_runs w Hq (closed_once_ok w Hw) Hr)|].
    pose proof (closed_once_flush w Hw) as Hf.
    destruct (flush_frame w) as (_ & _ & _ & _ & _ & He).
    split; [exact Hf|exact He]. }
  split.
  { intros outChan d w w' H. apply Return_leaves_channel in H. tauto. }
  intros w0 w1 w2 w3 size1 size2 sc1 sc2 ch1 ch2 l Hw0 S1 Hb Hl S2.
  assert (Hw1 : closed_once w1).
  { apply (step_keeps (StartSyncEnd size1 sc1) eq_refl) with (w := w0);
      [discriminate| |exact Hw0].
    cbn [step]. unfold bind. rewrite S1. reflexivity. }
  destruct (StartSync_end_channel size1 sc1 w0 w1 ch1 Hw0 S1) as (_ & R1 & _).
  destruct (between_steps l w1 w2 Hb Hl Hw1) as (R2 & Hw2).
  rewrite R1 in R2.
  destruct (StartSync_end_channel size2 sc2 w2 w3 ch2 Hw2 S2) as (E2 & R3 & C3 & _).
  destruct Hw2 as (Hreg & _). destruct (Hreg ch1 R2) as (c & Hc & Hlive).
  assert (Hlt : (ch1 < length (eventChans w2))%nat) by (eapply lookup_lt_Some; exact Hc).
  assert (L : length (flushed_chans w2) = length (eventChans w2)).
  { unfold flushed_chans. rewrite R2, Hc. apply length_insert. }
  split; [lia|]. split; [exact R3|]. rewrite C3. unfold replaced_chans. split.
  - rewrite E2. apply list_lookup_middle. symmetry. exact L.
  - exists c. split; [exact Hc|]. split; [exact Hlive|].
    rewrite lookup_app_l by (rewrite L; exact Hlt).
    unfold flushed_chans. rewrite R2, Hc. apply list_lookup_insert_eq. exact Hlt.
Qed.

Lemma C5_event_channels_closed_once_witness :
  0%nat <> 1%nat
  /\ eventChan (disc after_second) = Some 1%nat
  /\ eventChans after_second !! 1%nat
     = Some {| cap := 7; sent := []; wanted := 0; closed := false |}
  /\ exists c,
       eventChans before_second !! 0%nat = Some c
       /\ live c
       /\ eventChans after_second !! 0%nat
          = Some {| cap := cap c; sent := sent c ++ [stop_Event (disc before_second)];
                    wanted := wanted c; closed := true |}.
Proof.
  apply (proj2 (proj2 (proj2 C5_event_channels_closed_once))
           before_first after_first before_second after_second
           5 7 CaseRecv CaseRecv 0%nat 1%nat second_sync).
  - apply (proj1 C5_event_channels_closed_once).
    apply (reachable_by_steps locked first_sync fresh_world).
    + reflexivity.
    + vm_compute. reflexivity.
    + apply reachable_by_boot.
  - vm_compute. reflexivity.
  - reflexivity.
  - vm_compute. reflexivity.
  - vm_compute. reflexivity.
Defined.

(** ** The scenario of the specification *)

(** The scenario runs to its end: the state goes through [Idling], [Running]
    and [Syncing], the event channel receives the two "add" events, the
    "remove" and the "stop" event and is closed, and the subprocess received
    the five commands and was killed and waited on. *)
Example scenario_runs :
  exists w',
    steps scenario fresh_world = Ret tt w'
    /\ state (disc (run_on OS_ok handshake)) = Idling
    /\ state (disc w') = Dead
    /\ eventChan (disc w') = None
    /\ closed <$> eventChans w' !! 0%nat = Some true
    /\ (fun c => map e_Type (sent c)) <$> eventChans w' !! 0%nat
       = Some ["add"; "add"; "remove"; "stop"]
    /\ p_calls <$> procs w' !! 0%nat
       = Some [(CallStart, None); (CallKill, None); (CallWait, None)]
    /\ p_stdin <$> procs w' !! 0%nat
       = Some (HELLO_line client0 ++ "START" ++ newline ++ "START_SYNC" ++ newline
               ++ "STOP" ++ newline ++ "QUIT" ++ newline).
Proof.
  exists (run_on OS_ok scenario). vm_compute. repeat split.
Qed.

(** * Further properties *)

(** ** The dummy discovery: emitters and ports *)

Section DummyEmitters.

Import Dummy.

Lemma call_emitters_ok (c : Call) (w : World) :
  emitters_ok w -> emitters_ok (snd (call c w)).
Proof.
  intros H. pose proof H as (He & Hs & Hlt & Hsub & Hc).
  destruct c as [ua pr| | |]; cbn [call Hello Quit snd]; try exact H.
  - unfold Stop. destruct (closeChan (d w)) as [c|] eqn:E; cbn [snd]; [|exact H].
    destruct (Hc c eq_refl) as (Hin & Hnot).
    split; [|split; [|split; [|split]]]; cbn [emitters stopped chans d closeChan].
    + exact He.
    + apply NoDup_app. repeat split; [exact Hs| |apply NoDup_singleton].
      intros x Hx Hx'. apply list_elem_of_In in Hx'. cbn in Hx'.
      destruct Hx' as [<-|[]]. apply Hnot. apply list_elem_of_In. exact Hx.
    + exact Hlt.
    + intros x Hx. apply in_app_or in Hx. destruct Hx as [Hx|[<-|[]]]; auto.
    + discriminate.
  - unfold StartSync. destruct (Z.rem _ 5 =? 0)%Z; cbn [snd].
    + exact H.
    + assert (Hfresh : ~ In (chans w) (emitters w)).
      { intros Hx. apply Hlt in Hx. lia. }
      split; [|split; [|split; [|split]]]; cbn [emitters stopped chans d closeChan].
      * apply NoDup_app. repeat split; [exact He| |apply NoDup_singleton].
        intros x Hx Hx'. apply list_elem_of_In in Hx'. cbn in Hx'.
        destruct Hx' as [<-|[]]. apply Hfresh. apply list_elem_of_In. exact Hx.
      * exact Hs.
      * intros x Hx. apply in_app_or in Hx. destruct Hx as [Hx|[<-|[]]]; [|lia].
        apply Hlt in Hx. lia.
      * intros x Hx. apply in_or_app. left. auto.
      * intros x [= <-]. split.
        -- apply in_or_app. right. left. reflexivity.
        -- intros Hx. apply Hfresh. auto.
Qed.

Lemma calls_emitters_ok (l : list Call) : forall w : World,
  emitters_ok w -> emitters_ok (calls l w).
Proof.
  induction l as [|c l IH]; intros w H; [exact H|].
  apply (IH (snd (call c w))). apply call_emitters_ok. exact H.
Qed.

Lemma main_emitters_ok : emitters_ok main.
Proof.
  repeat split; cbn; try apply NoDup_nil_2; try contradiction; discriminate.
Qed.

(** X1.  After any calls, [Stop] signals an emitter only if the discovery holds
    its channel, an emitter it started and did not signal yet, and forgets
    the channel: no emitter is signalled twice, and a [Stop] that follows at
    once signals nothing. *)
Theorem Stop_signals_once (l : list Call) :
  let w := calls l main in
  let w' := snd (Stop w) in
  fst (Stop w) = None
  /\ closeChan (d w') = None
  /\ NoDup (stopped w')
  /\ (forall c, In c (stopped w') -> In c (emitters w'))
  /\ (forall c, closeChan (d w) = Some c ->
        ~ In c (stopped w) /\ stopped w' = (stopped w ++ [c])%list)
  /\ (closeChan (d w) = None -> w' = w)
  /\ snd (Stop w') = w'.
Proof.
  intros w w'.
  pose proof (calls_emitters_ok l main main_emitters_ok) as Hw. fold w in Hw.
  pose proof (call_emitters_ok CallStop w Hw) as Hw'. cbn [call] in Hw'. fold w' in Hw'.
  destruct Hw as (_ & _ & _ & _ & Hc). destruct Hw' as (_ & Hs' & _ & Hsub' & _).
  assert (E : closeChan (d w') = None).
  { unfold w', Stop. destruct (closeChan (d w)) eqn:E; cbn; [reflexivity|exact E]. }
  split; [unfold Stop; destruct (closeChan (d w)); reflexivity|].
  split; [exact E|]. split; [exact Hs'|]. split; [exact Hsub'|].
  split; [|split].
  - intros c E1. split; [apply (Hc c E1)|]. unfold w', Stop. rewrite E1. reflexivity.
  - intros E1. unfold w', Stop. rewrite E1. reflexivity.
  - unfold Stop at 1. rewrite E. reflexivity.
Qed.

Lemma call_abandoned (x : nat) (c : Call) (w : World) :
  emitters_ok w -> abandoned x w -> abandoned x (snd (call c w)).
Proof.
  intros (He & Hs & Hlt & Hsub & Hc) Hab. pose proof Hab as (Hin & Hnot & Hne).
  destruct c as [ua pr| | |]; cbn [call Hello Quit snd]; try exact Hab.
  - unfold Stop. destruct (closeChan (d w)) as [c|] eqn:E; cbn [snd]; [|exact Hab].
    repeat split; cbn [emitters stopped chans d closeChan]; try assumption; [|discriminate].
    intros Hx. apply in_app_or in Hx. destruct Hx as [Hx|[<-|[]]]; [auto|].
    apply Hne. reflexivity.
  - unfold StartSync. destruct (Z.rem _ 5 =? 0)%Z; cbn [snd].
    + repeat split; cbn [emitters stopped chans d closeChan]; assumption.
    + repeat split; cbn [emitters stopped chans d closeChan]; try assumption.
      * apply in_or_app. left. exact Hin.
      * intros [= <-]. apply Hlt in Hin. lia.
Qed.

(** X2.  When [StartSync] is accepted while the discovery holds the channel of
    an emitter, that emitter is abandoned: it was not signalled, and
    whatever calls follow, none of them signals it. *)
Theorem StartSync_abandons_emitter (l l' : list Call) (c : nat) :
  let w := calls l main in
  closeChan (d w) = Some c ->
  fst (StartSync w) = None ->
  In c (emitters (calls l' (snd (StartSync w))))
  /\ ~ In c (stopped (calls l' (snd (StartSync w))))
  /\ closeChan (d (snd (StartSync w))) = Some (chans w)
  /\ chans w <> c.
Proof.
  intros w Hc Hacc.
  pose proof (calls_emitters_ok l main main_emitters_ok) as Hw. fold w in Hw.
  pose proof (call_emitters_ok CallStartSync w Hw) as Hw1. cbn [call] in Hw1.
  assert (Hab : abandoned c (snd (StartSync w)) /\
                closeChan (d (snd (StartSync w))) = Some (chans w) /\ chans w <> c).
  { destruct Hw as (_ & _ & Hlt & _ & Hcc). destruct (Hcc c Hc) as (Hin & Hnot).
    revert Hacc. unfold StartSync. destruct (Z.rem _ 5 =? 0)%Z; cbn; [discriminate|].
    intros _. pose proof (Hlt c Hin) as L.
    repeat split.
    - apply in_or_app. left. exact Hin.
    - exact Hnot.
    - intros [= E]. lia.
    - lia. }
  destruct Hab as (Hab & E & Hne).
  assert (G : forall l' w0, emitters_ok w0 -> abandoned c w0 -> abandoned c (calls l' w0)).
  { clear. induction l' as [|x l' IH]; intros w0 H0 H1; [exact H1|].
    apply (IH (snd (call x w0))).
    - apply call_emitters_ok. exact H0.
    - apply call_abandoned; assumption. }
  destruct (G l' _ Hw1 Hab) as (H1 & H2 & _).
  repeat split; assumption.
Qed.

Lemma StartSync_abandons_emitter_witness :
  In 0%nat (emitters (calls [CallStop; CallStartSync; CallStop]
                        (snd (StartSync (calls [CallStartSync] main)))))
  /\ ~ In 0%nat (stopped (calls [CallStop; CallStartSync; CallStop]
                            (snd (StartSync (calls [CallStartSync] main))))).
Proof.
  destruct (StartSync_abandons_emitter [CallStartSync] [CallStop; CallStartSync; CallStop]
              0%nat eq_refl eq_refl) as (H1 & H2 & _).
  split; [exact H1|exact H2].
Defined.

End DummyEmitters.

Section DummyPorts.

Import Dummy.

Lemma to_int_not_nil (z : Z) :
  Z.to_int z <> Decimal.Pos Decimal.Nil /\ Z.to_int z <> Decimal.Neg Decimal.Nil.
Proof.
  split; intros E; pose proof (DecimalZ.of_to z) as H; rewrite E in H; cbn in H;
    subst z; discriminate E.
Qed.

Lemma Atoi_Sprintf_d (z : Z) : Atoi (Sprintf_d z) = Some z.
Proof.
  unfold Atoi, Sprintf_d. destruct (to_int_not_nil z) as (H1 & H2).
  rewrite NilZero.isi by assumption. cbn. rewrite DecimalZ.of_to. reflexivity.
Qed.

Lemma Sprintf_d_inj (a b : Z) : Sprintf_d a = Sprintf_d b -> a = b.
Proof.
  intros E. pose proof (Atoi_Sprintf_d a) as Ha. rewrite E, Atoi_Sprintf_d in Ha.
  congruence.
Qed.

Lemma CreateDummyPort_next (o : nat) (c : Z) :
  (- 2 ^ 63 <= c < 2 ^ 63 - 1)%Z ->
  snd (CreateDummyPort o c) = (c + 1)%Z
  /\ Address (fst (CreateDummyPort o c)) = Sprintf_d (c + 1)
  /\ Protocol (fst (CreateDummyPort o c)) = "dummy".
Proof.
  intros H. unfold CreateDummyPort. cbn [fst snd Address Protocol].
  rewrite wrap64_small by lia. repeat split.
Qed.

(** X3.  [CreateDummyPort] counts: as long as the counter does not wrap around, a
    call moves [dummyCounter] up by one and gives a port of protocol "dummy"
    whose address is the new value in decimal, so that reading the address
    back gives the counter and two calls never give the same address,
    whatever the order of the properties. *)
Theorem CreateDummyPort_fresh_address (o o' : nat) (c c' : Z) :
  (- 2 ^ 63 <= c < 2 ^ 63 - 1)%Z ->
  (- 2 ^ 63 <= c' < 2 ^ 63 - 1)%Z ->
  snd (CreateDummyPort o c) = (c + 1)%Z
  /\ Atoi (Address (fst (CreateDummyPort o c))) = Some (c + 1)%Z
  /\ Protocol (fst (CreateDummyPort o c)) = "dummy"
  /\ (c <> c' ->
      Address (fst (CreateDummyPort o c)) <> Address (fst (CreateDummyPort o' c'))).
Proof.
  intros H H'.
  destruct (CreateDummyPort_next o c H) as (E1 & E2 & E3).
  destruct (CreateDummyPort_next o' c' H') as (_ & E2' & _).
  split; [exact E1|]. split; [rewrite E2; apply Atoi_Sprintf_d|].
  split; [exact E3|].
  intros Hne E. rewrite E2, E2' in E. apply Sprintf_d_inj in E. lia.
Qed.

Lemma CreateDummyPort_fresh_address_witness :
  Atoi (Address (fst (CreateDummyPort 0 41))) = Some 42%Z
  /\ Address (fst (CreateDummyPort 0 41)) <> Address (fst (CreateDummyPort 3 7)).
Proof.
  destruct (CreateDummyPort_fresh_address 0 3 41 7) as (_ & H1 & _ & H2); [lia|lia|].
  split; [exact H1|]. apply H2. lia.
Defined.





(** X5.  The emitter ends at the first [select] that takes the close signal: when
    that is its [k]-th [select] it has made [2 + k] event callbacks and no
    error callback.  When none of its four [select]s takes the signal it
    makes six event callbacks, four of them "add" events, and then the error
    callback, once and last. *)
Theorem emitter_ends (sel : nat -> Select) (others order : nat -> nat) (counter : Z) :
  let out := fst (emitter sel others order counter) in
  (forall k : nat,
      (k < 4)%nat -> (forall j : nat, (j < k)%nat -> sel j = After2s) -> sel k = CloseChan ->
      length out = (2 + k)%nat /\ existsb is_ErrorCB out = false)
  /\ ((forall j : nat, (j < 4)%nat -> sel j = After2s) ->
      length out = 7%nat
      /\ out !! 6%nat = Some (ErrorCB "unrecoverable error, cannot send more events")
      /\ existsb is_ErrorCB (take 6 out) = false
      /\ length (added out) = 4%nat).
Proof.
  intros out. unfold out, emitter.
  destruct (nextPort others order 0 counter) as [p1 c1].
  destruct (nextPort others order 1 c1) as [p2 c2].
  cbn [emit_rounds].
  destruct (nextPort others order 2 c2) as [p3 c3].
  destruct (nextPort others order 3 c3) as [p4 c4].
  split.
  - intros k Hk Hbefore Hat.
    destruct k as [|[|[|[|k]]]]; [| | | |lia].
    + rewrite Hat. cbn. auto.
    + rewrite (Hbefore 0%nat) by lia. rewrite Hat. cbn. auto.
    + rewrite (Hbefore 0%nat), (Hbefore 1%nat) by lia. rewrite Hat. cbn. auto.
    + rewrite (Hbefore 0%nat), (Hbefore 1%nat), (Hbefore 2%nat) by lia. rewrite Hat.
      cbn. auto.
  - intros Hall. rewrite !Hall by lia. cbn. auto.
Qed.

End DummyPorts.

(** ** sendCommand: short writes and the nil pipe *)

Lemma Write_loop_prefix (pipe : nat) (script : list (nat * option error)) :
  forall (data : string) (w : World) (e : error) (w' : World),
    Write_loop pipe script data w = Ret (Some e) w' ->
    exists n : nat,
      (n <= String.length data)%nat
      /\ procs w' = alter (add_stdin (str_take n data)) pipe (procs w)
      /\ exists k, In (k, Some e) script.
Proof.
  induction script as [|[take err] script IH]; intros data w e w'; cbn [Write_loop].
  - discriminate.
  - destruct err as [e0|].
    + intros [= <- <-]. exists (Nat.min take (String.length data)).
      split; [lia|]. split; [reflexivity|]. exists take. left. reflexivity.
    + destruct (Nat.eqb_spec (Nat.min take (String.length data)) (String.length data))
        as [E|E]; [discriminate|].
      intros H. apply IH in H. destruct H as (n & Hn & Hp & k & Hk).
      assert (L : forall m s, (m <= String.length s)%nat ->
                    String.length (str_drop m s) = (String.length s - m)%nat).
      { induction m as [|m IHm]; intros [|c s] Hl; cbn in *; try lia. apply IHm. lia. }
      assert (T : forall m n s, (m <= String.length s)%nat ->
                    str_take m s ++ str_take n (str_drop m s) = str_take (m + n) s).
      { induction m as [|m IHm]; intros n0 [|c s] Hl; cbn in *; try reflexivity; try lia.
        rewrite IHm by lia. reflexivity. }
      exists (Nat.min take (String.length data) + n)%nat.
      rewrite L in Hn by lia. split; [lia|]. split.
      * rewrite Hp. cbn [procs set_procs set_Write_script].
        rewrite add_stdin_twice, T by lia. reflexivity.
      * exists k. right. exact Hk.
Qed.

(** X6.  [sendCommand] on a client with a pipe returns, whatever the pipe does
    with the single writes, and does not touch the [Client].  When it
    returns [nil] the subprocess has received the whole command after what
    it had received before; when it returns an error, this is an error of a
    [Write], and the subprocess has received the first bytes of the command
    that the writes before it took. *)
Theorem sendCommand_short_writes (cmd : string) (w : World) (pipe : nat) :
  outgoingCommandsPipe (disc w) = Some pipe ->
  exists r w',
    sendCommand cmd w = Ret r w'
    /\ disc w' = disc w
    /\ match r with
       | None => procs w' = alter (add_stdin cmd) pipe (procs w)
       | Some e =>
           exists n : nat,
             (n <= String.length cmd)%nat
             /\ procs w' = alter (add_stdin (str_take n cmd)) pipe (procs w)
             /\ exists k, In (k, Some e) (Write_script (os w))
       end.
Proof.
  intros Hp. destruct (sendCommand_returns cmd w pipe Hp) as (r & w' & E).
  exists r, w'. split; [exact E|]. split.
  - apply (sendCommand_disc cmd w w'). rewrite E. reflexivity.
  - destruct r as [e|].
    + unfold sendCommand in E. rewrite Hp in E. apply Write_loop_prefix in E. exact E.
    + apply (sendCommand_all cmd w w' pipe Hp E).
Qed.

Lemma sendCommand_short_writes_witness :
  exists w',
    sendCommand ("LIST" ++ newline) (set_Write_script [(2, None); (0, None); (1, None)]%nat
                                       idle_world) = Ret None w'
    /\ p_stdin <$> procs w' !! 0%nat = Some (HELLO_line client0 ++ "LIST" ++ newline).
Proof.
  destruct (sendCommand_short_writes ("LIST" ++ newline)
              (set_Write_script [(2, None); (0, None); (1, None)]%nat idle_world) 0%nat
              eq_refl) as (r & w' & E & _ & H).
  assert (Hr : r = None).
  { revert E. vm_compute. intros E. injection E as <- _. reflexivity. }
  subst r. exists w'. split; [exact E|]. rewrite H. vm_compute. reflexivity.
Defined.

(** X7.  A [Client] that has no pipe yet, as [NewClient] makes it: every command
    but [Run] panics on the nil pipe without changing anything; [StartSync],
    which has taken the mutex by then, gives it back on the way out. *)
Theorem commands_without_pipe_panic (w : World) :
  outgoingCommandsPipe (disc w) = None ->
  Start_begin w = Panic "nil pointer dereference" w
  /\ Stop_begin w = Panic "nil pointer dereference" w
  /\ List_begin w = Panic "nil pointer dereference" w
  /\ Quit_begin w = Panic "nil pointer dereference" w
  /\ (statusMutex (disc w) = false ->
      StartSync_begin w = Panic "nil pointer dereference" w).
Proof.
  intros Hp.
  unfold Start_begin, Stop_begin, List_begin, Quit_begin, StartSync_begin, bind, on_panic,
    sendCommand, Lock.
  rewrite Hp. repeat (split; [reflexivity|]).
  intros Hm. rewrite Hm. cbn. rewrite Hp. unfold bind, Unlock, modDisc, panic.
  destruct w as [[] ? ? ? ?]. cbn in *. subst. reflexivity.
Qed.

Lemma commands_without_pipe_panic_witness :
  Start_begin fresh_world = Panic "nil pointer dereference" fresh_world.
Proof.
  destruct (commands_without_pipe_panic fresh_world eq_refl) as (H & _). exact H.
Defined.

(** ** Start and StartSync: the checks on the reply *)

Lemma not_reply_ok (type : string) (m : discoveryMessage) :
  reply_ok type m <->
  negb (m_EventType m =? type) = false /\ m_Error m = false
  /\ negb (ToUpper (m_Message m) =? "OK") = false.
Proof.
  unfold reply_ok. rewrite <- ToUpper_OK.
  rewrite !negb_false_iff, !String.eqb_eq. tauto.
Qed.

(** X8.  [Start] with a reply on offer returns.  It returns [nil] exactly when
    the reply is a "start" envelope without error and with message "OK" up to
    case; then the state is [Running], whatever it was, and the registered
    event channel stays registered and untouched.  In every other case it
    returns an error that tells what was wrong with the reply, and the
    [Client], the event channels and the processes are as they were. *)
Theorem Start_checks_reply (w : World) (m : discoveryMessage) :
  offers w m ->
  statusMutex (disc w) = false ->
  exists r w',
    Start_end CaseRecv w = Ret r w'
    /\ (r = None <-> reply_ok "start" m)
    /\ (r = None -> state (disc w') = Running /\ statusMutex (disc w') = false)
    /\ (r <> None -> disc w' = disc w)
    /\ eventChan (disc w') = eventChan (disc w)
    /\ eventChans w' = eventChans w /\ procs w' = procs w
    /\ (m_EventType m <> "start" ->
        r = Some (ErrorsNew ("event out of sync, expected 'start', received '"
                               ++ m_EventType m ++ "'")))
    /\ (m_EventType m = "start" -> m_Error m = true ->
        r = Some (ErrorsNew ("command failed: " ++ m_Message m)))
    /\ (m_EventType m = "start" -> m_Error m = false -> ~ case_insensitive_OK (m_Message m) ->
        r = Some (ErrorsNew ("communication out of sync, expected 'OK', received '"
                               ++ m_Message m ++ "'"))).
Proof.
  intros Hoff Hm.
  destruct (taken_frame w) as (Hd & Hev & Hps & _).
  unfold Start_end, bind. rewrite (waitMessage_recv w m Hoff). cbn beta iota.
  pose proof (not_reply_ok "start" m) as Hok.
  pose proof (ToUpper_OK (m_Message m)) as Hup.
  destruct (negb (m_EventType m =? "start")) eqn:E1.
  { eexists _, _. split; [reflexivity|].
    apply negb_true_iff, String.eqb_neq in E1.
    split; [split; [discriminate|intros (H & _); contradiction]|].
    split; [discriminate|]. split; [intros _; exact Hd|].
    rewrite Hd, Hev, Hps. repeat split; try reflexivity; intros; contradiction. }
  apply negb_false_iff, String.eqb_eq in E1.
  destruct (m_Error m) eqn:E2.
  { eexists _, _. split; [reflexivity|].
    split; [split; [discriminate|intros (_ & H & _); congruence]|].
    split; [discriminate|]. split; [intros _; exact Hd|].
    rewrite Hd, Hev, Hps. repeat split; try reflexivity; intros; try contradiction.
    discriminate. }
  destruct (negb (ToUpper (m_Message m) =? "OK")) eqn:E3.
  { eexists _, _. split; [reflexivity|].
    apply negb_true_iff, String.eqb_neq in E3.
    split; [split; [discriminate|intros (_ & _ & H); apply Hup in H; contradiction]|].
    split; [discriminate|]. split; [intros _; exact Hd|].
    rewrite Hd, Hev, Hps. repeat split; try reflexivity; intros; try contradiction.
    discriminate. }
  apply negb_false_iff, String.eqb_eq in E3.
  unfold Lock, defer_, bind, modDisc, Unlock, modDisc, ret. rewrite Hd, Hm.
  eexists _, _. split; [reflexivity|]. cbn. rewrite Hd, Hev, Hps.
  split; [split; [intros _; split; [exact E1|split; [exact E2|apply Hup, E3]]
                 |reflexivity]|].
  split; [auto|]. split; [intros H; contradiction|].
  repeat split; intros; try contradiction; try discriminate.
  exfalso. apply Hup in E3. contradiction.
Qed.

Lemma Start_checks_reply_witness :
  exists w',
    Start_end CaseRecv (run_on OS_ok (handshake ++ [StartBegin; Loop 0%nat (reply "start" 0)])%list)
    = Ret None w' /\ state (disc w') = Running.
Proof.
  destruct (Start_checks_reply
              (run_on OS_ok (handshake ++ [StartBegin; Loop 0%nat (reply "start" 0)])%list)
              (envelope "start" "OK" 0 [] None))
    as (r & w' & E & Hr & Hs & _).
  - exists 0%nat. vm_compute. split; reflexivity.
  - vm_compute. reflexivity.
  - assert (R : r = None).
    { apply Hr. vm_compute. repeat split. left. reflexivity. }
    subst r. exists w'. split; [exact E|]. apply Hs. reflexivity.
Defined.

(** X9.  [List] with a reply on offer returns.  It returns the ports of the reply
    and no error exactly when the reply is a "list" envelope without error;
    unlike [Start], [Stop] and [StartSync] it does not look at the message
    of the reply.  In every other case it returns no ports and an error that
    tells what was wrong.  In both cases only the reply is taken: the
    [Client], the event channels and the processes are as they were. *)
Theorem List_checks_reply (w : World) (m : discoveryMessage) :
  offers w m ->
  exists ports r,
    List_end CaseRecv w = Ret (ports, r) (taken w)
    /\ (r = None <-> m_EventType m = "list" /\ m_Error m = false)
    /\ (r = None -> ports = m_Ports m)
    /\ (r <> None -> ports = [])
    /\ (m_EventType m <> "list" ->
        r = Some (ErrorsNew ("event out of sync, expected 'list', received '"
                               ++ m_EventType m ++ "'")))
    /\ (m_EventType m = "list" -> m_Error m = true ->
        r = Some (ErrorsNew ("command failed: " ++ m_Message m))).
Proof.
  intros Hoff. unfold List_end, bind. rewrite (waitMessage_recv w m Hoff). cbn beta iota.
  destruct (negb (m_EventType m =? "list")) eqn:E1.
  { apply negb_true_iff, String.eqb_neq in E1.
    eexists _, _. split; [reflexivity|].
    split; [split; [discriminate|intros (H & _); contradiction]|].
    split; [discriminate|]. split; [reflexivity|].
    split; [reflexivity|]. intros H; contradiction. }
  apply negb_false_iff, String.eqb_eq in E1.
  destruct (m_Error m) eqn:E2.
  { eexists _, _. split; [reflexivity|].
    split; [split; [discriminate|intros (_ & H); discriminate H]|].
    split; [discriminate|]. split; [reflexivity|].
    split; [intros H; contradiction|]. reflexivity. }
  eexists _, _. split; [reflexivity|].
  split; [split; [intros _; split; [exact E1|reflexivity]|reflexivity]|].
  split; [reflexivity|]. split; [intros H; contradiction|].
  split; [intros H; contradiction|]. intros _ H. discriminate H.
Qed.

Lemma List_checks_reply_witness :
  exists ports r,
    List_end CaseRecv
      (run_on OS_ok (handshake ++ [ListBegin; Loop 0%nat (reply "start" 0)])%list)
    = Ret (ports, r)
          (taken (run_on OS_ok (handshake ++ [ListBegin; Loop 0%nat (reply "start" 0)])%list))
    /\ ports = []
    /\ r = Some (ErrorsNew "event out of sync, expected 'list', received 'start'").
Proof.
  destruct (List_checks_reply
              (run_on OS_ok (handshake ++ [ListBegin; Loop 0%nat (reply "start" 0)])%list)
              (envelope "start" "OK" 0 [] None))
    as (ports & r & E & _ & _ & H1 & H2 & _).
  - exists 0%nat. vm_compute. split; reflexivity.
  - assert (Hr : r = Some (ErrorsNew "event out of sync, expected 'list', received 'start'")).
    { apply H2. vm_compute. discriminate. }
    exists ports, r. split; [exact E|]. split; [|exact Hr].
    apply H1. rewrite Hr. discriminate.
Defined.

(** X10.  [StartSync] with a reply on offer that is not a "start_sync" envelope
    without error and with message "OK" up to case returns an error and no
    channel: the state is as it was, the event channel registered before
    stays registered, open and without "stop" event, and the mutex is free
    again. *)
Theorem StartSync_rejected_keeps_channel (w : World) (m : discoveryMessage) (size : Z) :
  offers w m ->
  ~ reply_ok "start_sync" m ->
  exists e w',
    StartSync_end size CaseRecv w = Ret (None, Some e) w'
    /\ state (disc w') = state (disc w)
    /\ eventChan (disc w') = eventChan (disc w)
    /\ eventChans w' = eventChans w
    /\ procs w' = procs w
    /\ statusMutex (disc w') = false.
Proof.
  intros Hoff Hno.
  destruct (taken_frame w) as (Hd & Hev & Hps & _).
  rewrite (not_reply_ok "start_sync" m) in Hno.
  unfold StartSync_end, defer_, bind. rewrite (waitMessage_recv w m Hoff). cbn beta iota.
  destruct (negb (m_EventType m =? "start_sync")).
  { eexists _, _. split; [reflexivity|]. cbn. rewrite Hd, Hev, Hps. repeat split. }
  destruct (m_Error m).
  { eexists _, _. split; [reflexivity|]. cbn. rewrite Hd, Hev, Hps. repeat split. }
  destruct (negb (ToUpper (m_Message m) =? "OK")).
  { eexists _, _. split; [reflexivity|]. cbn. rewrite Hd, Hev, Hps. repeat split. }
  exfalso. apply Hno. repeat split.
Qed.

Lemma StartSync_rejected_keeps_channel_witness :
  exists e w',
    StartSync_end 10 CaseRecv
      (run_on OS_ok (handshake ++ sync_start
                     ++ [StartSyncBegin; Loop 0%nat (reply "stop" 0)])%list)
    = Ret (None, Some e) w'
    /\ eventChan (disc w') = Some 0%nat.
Proof.
  destruct (StartSync_rejected_keeps_channel
              (run_on OS_ok (handshake ++ sync_start
                             ++ [StartSyncBegin; Loop 0%nat (reply "stop" 0)])%list)
              (envelope "stop" "OK" 0 [] None) 10)
    as (e & w' & E & _ & H & _).
  - exists 0%nat. vm_compute. split; reflexivity.
  - intros (H & _). vm_compute in H. discriminate H.
  - exists e, w'. split; [exact E|]. rewrite H. vm_compute. reflexivity.
Defined.

(** X11.  [StartSync] with a negative size and an accepted reply, when the
    event channel that is registered can take its "stop" event or none is
    registered, panics in [make], after it has set the state to [Syncing]
    and flushed that channel; no channel is registered then, and the
    deferred [Unlock] has freed the mutex.  When the registered channel is
    full, [StartSync] waits in the send of [stopSync] and does not get to
    [make]. *)
Theorem StartSync_negative_size_panics (w : World) (m : discoveryMessage) (size : Z) :
  offers w m ->
  reply_ok "start_sync" m ->
  eventChan_ok w ->
  (size < 0)%Z ->
  (full w -> StartSync_end size CaseRecv w = Blocked)
  /\ (room 1 w ->
  exists w',
    StartSync_end size CaseRecv w = Panic "makechan: size out of range" w'
    /\ state (disc w') = Syncing
    /\ eventChan (disc w') = None
    /\ eventChans w' = flushed_chans w
    /\ statusMutex (disc w') = false).
Proof.
  intros Hoff Hok Hev Hneg.
  destruct (taken_frame w) as (Hd & He & Hps & _).
  apply (not_reply_ok "start_sync" m) in Hok. destruct Hok as (E1 & E2 & E3).
  set (w1 := upd_disc (set_state Syncing) (taken w)).
  assert (Hrun : StartSync_end size CaseRecv w
                 = match replace_chan size w1 with
                   | Ret a w' => Ret a (upd_disc (set_statusMutex false) w')
                   | Panic why w' => Panic why (upd_disc (set_statusMutex false) w')
                   | Blocked => Blocked
                   end).
  { unfold StartSync_end, defer_. unfold bind at 1.
    rewrite (waitMessage_recv w m Hoff). cbn beta iota. rewrite E1, E2, E3.
    reflexivity. }
  rewrite Hrun.
  assert (Hok1 : eventChan_ok w1).
  { unfold eventChan_ok, w1. cbn. rewrite Hd, He. exact Hev. }
  split.
  { intros Hf. assert (Hf1 : full w1).
    { unfold full, w1. cbn. rewrite Hd, He. exact Hf. }
    rewrite (replace_chan_full size w1 Hf1). reflexivity. }
  intros Hr. assert (Hr1 : room 1 w1).
  { unfold room, w1. cbn. rewrite Hd, He. exact Hr. }
  rewrite (replace_chan_runs size w1 Hok1 Hr1).
  apply Z.ltb_lt in Hneg. rewrite Hneg.
  eexists. split; [reflexivity|].
  destruct (flush_frame w1) as (_ & _ & _ & Fs & _ & Fe).
  destruct (flush_fields w1) as (Ff & _).
  cbn. rewrite Fs, Fe, Ff. repeat split.
  unfold flushed_chans, w1. cbn. rewrite Hd, He. reflexivity.
Qed.

Lemma StartSync_negative_size_panics_witness :
  exists w',
    StartSync_end (-1) CaseRecv
      (run_on OS_ok (handshake ++ sync_start
                     ++ [StartSyncBegin; Loop 0%nat (reply "start_sync" 0)])%list)
    = Panic "makechan: size out of range" w'
    /\ closed <$> eventChans w' !! 0%nat = Some true.
Proof.
  destruct (StartSync_negative_size_panics
              (run_on OS_ok (handshake ++ sync_start
                             ++ [StartSyncBegin; Loop 0%nat (reply "start_sync" 0)])%list)
              (envelope "start_sync" "OK" 0 [] None) (-1))
    as (_ & G).
  - exists 0%nat. vm_compute. split; reflexivity.
  - vm_compute. repeat split. left. reflexivity.
  - intros ch. vm_compute. intros [= <-]. eexists. split; reflexivity.
  - lia.
  - destruct G as (w' & E & _ & _ & H & _).
    + intros ch c H Hc. vm_compute in H. injection H as <-.
      vm_compute in Hc. injection Hc as <-. vm_compute. discriminate.
    + exists w'. split; [exact E|]. rewrite H. vm_compute. reflexivity.
Defined.

(** ** The decode loop: replies and failures of the decoder *)

Lemma insert_back (l : list MsgChan) (i : nat) (x y : MsgChan) :
  l !! i = Some x -> <[i := x]> (<[i := y]> l) = l.
Proof.
  intros H. rewrite list_insert_insert_eq. apply list_insert_id. exact H.
Qed.

(** X12.  An envelope that is neither "add" nor "remove" goes from the decode loop
    to the waiting caller as it is, whatever its type and whoever holds the
    mutex: the iteration puts it on offer, the next wait of the client takes
    it, and the world is then as before the iteration.  Until it is taken
    the loop is stuck in its send: it reads nothing and delivers no event. *)
Theorem reply_round_trip (w : World) (outChan : nat) (m : discoveryMessage) :
  incomingMessagesChan (disc w) = Some outChan ->
  msgChans w !! outChan = Some MEmpty ->
  ~ is_port_event m ->
  exists w1,
    jsonDecodeLoop_iter outChan (Value m) w = Ret Continue w1
    /\ offers w1 m
    /\ waitMessage CaseRecv w1 = Ret (Some m, None) w
    /\ (forall d, jsonDecodeLoop_iter outChan d w1 = Blocked).
Proof.
  intros Hc He Hno.
  assert (E1 : (m_EventType m =? "add") = false).
  { apply String.eqb_neq. intros E. apply Hno. left. exact E. }
  assert (E2 : (m_EventType m =? "remove") = false).
  { apply String.eqb_neq. intros E. apply Hno. right. exact E. }
  pose proof (lookup_lt_Some _ _ _ He) as Hlt.
  unfold jsonDecodeLoop_iter, bind, loop_head. rewrite He, E1, E2.
  unfold send_Message. rewrite He. cbn beta iota.
  eexists. split; [reflexivity|].
  split; [|split].
  - exists outChan. cbn. split; [exact Hc|]. apply list_lookup_insert_eq. exact Hlt.
  - unfold waitMessage, bind, getDisc, recv_Message. cbn. rewrite Hc.
    rewrite list_lookup_insert_eq by exact Hlt. unfold ret, set_msgChans. cbn.
    rewrite (insert_back _ _ _ _ He). destruct w. reflexivity.
  - intros d. cbn. rewrite list_lookup_insert_eq by exact Hlt. reflexivity.
Qed.

Lemma reply_round_trip_witness :
  exists w1,
    jsonDecodeLoop_iter 0%nat (Value list_reply) (run_on OS_ok (handshake ++ [ListBegin])%list)
    = Ret Continue w1
    /\ waitMessage CaseRecv w1
       = Ret (Some list_reply, None) (run_on OS_ok (handshake ++ [ListBegin])%list).
Proof.
  destruct (reply_round_trip (run_on OS_ok (handshake ++ [ListBegin])%list) 0%nat list_reply)
    as (w1 & E & _ & H & _).
  - vm_compute. reflexivity.
  - vm_compute. reflexivity.
  - intros [H|H]; vm_compute in H; discriminate H.
  - exists w1. split; [exact E|exact H].
Defined.

Lemma failure_reported (outChan : nat) (err : error) (w : World) :
  msgChans w !! outChan = Some MEmpty ->
  statusMutex (disc w) = false ->
  jsonDecodeLoop_iter outChan (Failure err) w = Ret Return (reported outChan err w).
Proof.
  intros He Hm. unfold jsonDecodeLoop_iter. unfold bind at 1. unfold loop_head.
  rewrite He. cbn beta iota.
  pose proof (closeAndReportError_reported outChan err w He Hm) as R.
  destruct (errors_Is_EOF err).
  - unfold closeAndReportError in R. unfold bind in *. unfold Lock in *. rewrite Hm in *.
    cbn beta iota in *. unfold modDisc in *. cbn beta iota in *.
    unfold Unlock, modDisc in *. cbn beta iota in *.
    destruct (close_Message outChan _) as [[] w1|why w1|]; try discriminate.
    injection R as ->. reflexivity.
  - unfold bind. rewrite R. reflexivity.
Qed.

(** X13.  When the decoder fails, at the end of the output of the subprocess or
    on output it cannot decode, and the mutex is free, the loop ends: the
    state is [Dead], the error of the decoder is recorded as it is, and the
    channel of the loop is closed; the registered event channel is left as
    it is.  The loop does nothing more.  A wait of [Start], [Stop] or
    [List] on that channel returns at once with the recorded error behind
    the name of the command, so that [errors.Is(err, io.EOF)] tells the
    caller whether the output ended. *)
Theorem decoder_failure_ends_loop (w : World) (outChan : nat) (err : error) :
  msgChans w !! outChan = Some MEmpty ->
  statusMutex (disc w) = false ->
  exists w',
    jsonDecodeLoop_iter outChan (Failure err) w = Ret Return w'
    /\ state (disc w') = Dead
    /\ incomingMessagesError (disc w') = Some err
    /\ msgChans w' = <[outChan := MClosed]> (msgChans w)
    /\ eventChan (disc w') = eventChan (disc w)
    /\ eventChans w' = eventChans w
    /\ (forall d, jsonDecodeLoop_iter outChan d w' = Blocked)
    /\ (incomingMessagesChan (disc w) = Some outChan ->
        Start_end CaseRecv w' = Ret (Some (Wrapf "calling START: " err)) w'
        /\ Stop_end CaseRecv w' = Ret (Some (Wrapf "calling STOP: " err)) w'
        /\ List_end CaseRecv w' = Ret ([], Some (Wrapf "calling LIST: " err)) w'
        /\ errors_Is_EOF (Wrapf "calling LIST: " err) = errors_Is_EOF err).
Proof.
  intros He Hm. exists (reported outChan err w).
  pose proof (lookup_lt_Some _ _ _ He) as Hlt.
  split; [apply failure_reported; assumption|].
  repeat (split; [reflexivity|]).
  split.
  - intros d. unfold jsonDecodeLoop_iter, bind, loop_head. cbn.
    rewrite list_lookup_insert_eq by exact Hlt. reflexivity.
  - intros Hc.
    assert (Hh : hung_up (reported outChan err w)).
    { exists outChan. cbn. split; [exact Hc|]. apply list_lookup_insert_eq. exact Hlt. }
    destruct (closed_wait (reported outChan err w) err 0 Hh eq_refl)
      as (_ & H1 & H2 & H3 & _).
    repeat split; assumption.
Qed.

Lemma decoder_failure_ends_loop_witness :
  exists w',
    jsonDecodeLoop_iter 0%nat (Failure EOF) idle_world = Ret Return w'
    /\ Start_end CaseRecv w' = Ret (Some (Wrapf "calling START: " EOF)) w'.
Proof.
  destruct (decoder_failure_ends_loop idle_world 0%nat EOF)
    as (w' & E & _ & _ & _ & _ & _ & _ & H).
  - vm_compute. reflexivity.
  - vm_compute. reflexivity.
  - exists w'. split; [exact E|]. apply H. vm_compute. reflexivity.
Defined.

(** ** State *)

Lemma unlock_lock (w : World) :
  statusMutex (disc w) = false ->
  upd_disc (set_statusMutex false) (upd_disc (set_statusMutex true) w) = w.
Proof. destruct w as [[] ? ? ? ?]. cbn. intros ->. reflexivity. Qed.

(** X14.  [State] returns the state and changes nothing when the mutex is free,
    and waits while it is held.  [StartSync] holds it from before it sends
    until it returns: a [State] called meanwhile waits for the reply or the
    timeout of that [StartSync], and goes through once it has returned. *)
Theorem State_waits_for_StartSync (w : World) :
  (statusMutex (disc w) = false -> State_ w = Ret (state (disc w)) w)
  /\ (statusMutex (disc w) = true -> State_ w = Blocked)
  /\ (forall w1, StartSync_begin w = Ret None w1 ->
        State_ w1 = Blocked
        /\ forall size sc r w2,
             StartSync_end size sc w1 = Ret r w2 -> State_ w2 = Ret (state (disc w2)) w2).
Proof.
  assert (F : forall w0, statusMutex (disc w0) = false ->
                         State_ w0 = Ret (state (disc w0)) w0).
  { intros w0 Hm. unfold State_, bind, Lock, defer_. rewrite Hm. cbn.
    unfold Unlock, modDisc, bind, ret. rewrite unlock_lock by exact Hm. reflexivity. }
  split; [apply F|]. split.
  - intros Hm. unfold State_, bind, Lock. rewrite Hm. reflexivity.
  - intros w1. unfold StartSync_begin. unfold bind at 1. unfold Lock.
    destruct (statusMutex (disc w)) eqn:Hm; [discriminate|].
    unfold bind, on_panic.
    destruct (sendCommand _ _) as [[e|] w0|why w0|] eqn:S; try discriminate.
    unfold ret. intros [= <-].
    pose proof (sendCommand_disc ("START_SYNC" ++ newline)
                  (upd_disc (set_statusMutex true) w) w0) as D.
    rewrite S in D. destruct (D eq_refl) as (Dd & _).
    assert (Hh : statusMutex (disc w0) = true) by (rewrite Dd; reflexivity).
    split.
    + unfold State_, bind, Lock. rewrite Hh. reflexivity.
    + intros size sc r w2 E. apply F.
      revert E. unfold StartSync_end, defer_.
      destruct (bind (waitMessage sc) _ w0) as [a w3|why w3|]; try discriminate.
      unfold Unlock, modDisc, bind, ret. intros [= _ <-]. reflexivity.
Qed.

(** ** The mutex *)

Lemma keeps_mutex_ret {A} (a : A) : keeps_mutex (ret a).
Proof. intros w a' w' [= _ <-]. reflexivity. Qed.

Lemma keeps_mutex_bind {A B} (c : M A) (k : A -> M B) :
  keeps_mutex c -> (forall a, keeps_mutex (k a)) -> keeps_mutex (bind c k).
Proof.
  intros Hc Hk w b w'. unfold bind. destruct (c w) as [a w1| |] eqn:E; try discriminate.
  intros H. rewrite (Hk a w1 b w' H). apply (Hc w a w1 E).
Qed.

Lemma frees_mutex_bind_r {A B} (c : M A) (k : A -> M B) :
  (forall a, frees_mutex (k a)) -> frees_mutex (bind c k).
Proof.
  intros Hk w b w'. unfold bind. destruct (c w) as [a w1| |]; try discriminate.
  apply Hk.
Qed.

Lemma frees_mutex_bind_l {A B} (c : M A) (k : A -> M B) :
  frees_mutex c -> (forall a, keeps_mutex (k a)) -> frees_mutex (bind c k).
Proof.
  intros Hc Hk w b w'. unfold bind. destruct (c w) as [a w1| |] eqn:E; try discriminate.
  intros H. rewrite (Hk a w1 b w' H). apply (Hc w a w1 E).
Qed.

Lemma frees_mutex_Unlock : frees_mutex Unlock.
Proof. intros w a w' E. unfold Unlock, modDisc in E. simplify_eq. reflexivity. Qed.

Lemma frees_mutex_defer {A} (body : M A) : frees_mutex (defer_ Unlock body).
Proof.
  intros w a w'. unfold defer_. destruct (body w) as [a1 w1|why w1|]; try discriminate.
  intros [= _ <-]. reflexivity.
Qed.

Lemma hands_back_keeps {A} (c : M A) : keeps_mutex c -> hands_back_mutex c.
Proof. intros H w a w' E Hm. rewrite (H w a w' E). exact Hm. Qed.

Lemma hands_back_frees {A} (c : M A) : frees_mutex c -> hands_back_mutex c.
Proof. intros H w a w' E _. apply (H w a w' E). Qed.

Lemma hands_back_bind {A B} (c : M A) (k : A -> M B) :
  hands_back_mutex c -> (forall a, hands_back_mutex (k a)) -> hands_back_mutex (bind c k).
Proof.
  intros Hc Hk w b w'. unfold bind. destruct (c w) as [a w1| |] eqn:E; try discriminate.
  intros H Hm. apply (Hk a w1 b w' H). apply (Hc w a w1 E Hm).
Qed.

Lemma hands_back_on_panic {A} (d : M unit) (body : M A) :
  hands_back_mutex body -> hands_back_mutex (on_panic d body).
Proof.
  intros Hb w a w'. unfold on_panic. destruct (body w) as [a1 w1|why w1|] eqn:E.
  - intros [= <- <-]. apply (Hb w a1 w1 E).
  - unfold bind, panic. destruct (d w1); discriminate.
  - discriminate.
Qed.

Lemma keeps_mutex_panic {A} (why : string) : keeps_mutex (@panic A why).
Proof. intros w a w' H. discriminate H. Qed.

Lemma keeps_mutex_getDisc : keeps_mutex getDisc.
Proof. intros w a w' [= _ <-]. reflexivity. Qed.

Lemma keeps_mutex_modDisc (f : Client -> Client) :
  (forall c, statusMutex (f c) = statusMutex c) -> keeps_mutex (modDisc f).
Proof. intros Hf w a w' E. unfold modDisc in E. simplify_eq. apply Hf. Qed.

Lemma keeps_mutex_disc {A} (c : M A) :
  (forall w a w', c w = Ret a w' -> disc w' = disc w) -> keeps_mutex c.
Proof. intros H w a w' E. rewrite (H w a w' E). reflexivity. Qed.

Lemma keeps_mutex_sendCommand (cmd : string) : keeps_mutex (sendCommand cmd).
Proof.
  apply keeps_mutex_disc. intros w a w' E.
  apply (sendCommand_disc cmd w w'). rewrite E. reflexivity.
Qed.

Lemma keeps_mutex_waitMessage (sc : SelectCase) : keeps_mutex (waitMessage sc).
Proof.
  apply keeps_mutex_disc. intros w a w' E. apply waitMessage_frame in E. tauto.
Qed.

Ltac disc_kept :=
  apply keeps_mutex_disc; intros w a w';
  unfold loop_head, send_Message, close_Message, NewProcess, StdoutPipe, StdinPipe,
    proc_Start, proc_Kill, proc_Wait, proc_call, make_chan_Message, go_jsonDecodeLoop,
    send_Event, close_Event, make_chan_Event, receive_Event, getQuitting, getDelivering,
    goto_Quit, goto_deliver;
  repeat case_match; intros E; simplify_eq; reflexivity.

Lemma keeps_mutex_loop_head (outChan : nat) : keeps_mutex (loop_head outChan).
Proof. disc_kept. Qed.

Lemma keeps_mutex_send_Message (ch : nat) (m : discoveryMessage) :
  keeps_mutex (send_Message ch m).
Proof. disc_kept. Qed.

Lemma keeps_mutex_close_Message (ch : nat) : keeps_mutex (close_Message ch).
Proof. disc_kept. Qed.

Lemma keeps_mutex_NewProcess (args : list string) : keeps_mutex (NewProcess args).
Proof. disc_kept. Qed.

Lemma keeps_mutex_StdoutPipe (proc : nat) : keeps_mutex (StdoutPipe proc).
Proof. disc_kept. Qed.

Lemma keeps_mutex_StdinPipe (proc : nat) : keeps_mutex (StdinPipe proc).
Proof. disc_kept. Qed.

Lemma keeps_mutex_proc_call (call : ProcessCall) (r : OS -> option error) (proc : nat) :
  keeps_mutex (proc_call call r proc).
Proof. disc_kept. Qed.

Lemma keeps_mutex_make_chan_Message : keeps_mutex make_chan_Message.
Proof. disc_kept. Qed.

Lemma keeps_mutex_go_jsonDecodeLoop (proc outChan : nat) :
  keeps_mutex (go_jsonDecodeLoop proc outChan).
Proof. disc_kept. Qed.

Lemma keeps_mutex_send_Event (ch : nat) (ev : Event) : keeps_mutex (send_Event ch ev).
Proof. disc_kept. Qed.

Lemma keeps_mutex_close_Event (ch : nat) : keeps_mutex (close_Event ch).
Proof. disc_kept. Qed.

Lemma keeps_mutex_make_chan_Event (size : Z) : keeps_mutex (make_chan_Event size).
Proof. disc_kept. Qed.

Lemma keeps_mutex_receive_Event (ch : nat) : keeps_mutex (receive_Event ch).
Proof. disc_kept. Qed.

Lemma keeps_mutex_getQuitting : keeps_mutex getQuitting.
Proof. disc_kept. Qed.

Lemma keeps_mutex_getDelivering : keeps_mutex getDelivering.
Proof. disc_kept. Qed.

Lemma keeps_mutex_goto_Quit (pc : QuitPC) : keeps_mutex (goto_Quit pc).
Proof. disc_kept. Qed.

Lemma keeps_mutex_goto_deliver (pc : DeliverPC) : keeps_mutex (goto_deliver pc).
Proof. disc_kept. Qed.

Lemma frees_mutex_deliver_send : frees_mutex deliver_send.
Proof.
  intros w [] w'. unfold deliver_send, bind, getDelivering.
  destruct (delivering w) as [|o t p|o [ch|] ev]; try discriminate.
  destruct (send_Event ch ev w) as [[] w1| |]; try discriminate.
  unfold Unlock, modDisc, goto_deliver. intros [= <-]. reflexivity.
Qed.

Create HintDb mutex_db.

#[local] Hint Resolve keeps_mutex_getDisc keeps_mutex_sendCommand keeps_mutex_waitMessage
  keeps_mutex_loop_head keeps_mutex_send_Message keeps_mutex_close_Message
  keeps_mutex_NewProcess keeps_mutex_StdoutPipe keeps_mutex_StdinPipe
  keeps_mutex_proc_call keeps_mutex_make_chan_Message keeps_mutex_go_jsonDecodeLoop
  keeps_mutex_send_Event keeps_mutex_close_Event keeps_mutex_make_chan_Event
  keeps_mutex_receive_Event keeps_mutex_getQuitting keeps_mutex_getDelivering
  keeps_mutex_goto_Quit keeps_mutex_goto_deliver : mutex_db.

#[local] Hint Extern 1 (keeps_mutex (modDisc _)) =>
  (apply keeps_mutex_modDisc; intros ?; reflexivity) : mutex_db.
#[local] Hint Extern 1 (keeps_mutex (proc_Start _)) => apply keeps_mutex_proc_call : mutex_db.
#[local] Hint Extern 1 (keeps_mutex (proc_Kill _)) => apply keeps_mutex_proc_call : mutex_db.
#[local] Hint Extern 1 (keeps_mutex (proc_Wait _)) => apply keeps_mutex_proc_call : mutex_db.

(** Walk down a transition written with [bind]. *)
Ltac mutex_kept :=
  lazymatch goal with
  | |- keeps_mutex (bind _ _) =>
      apply keeps_mutex_bind; [mutex_kept | intros; mutex_kept]
  | |- keeps_mutex (ret _) => apply keeps_mutex_ret
  | |- keeps_mutex (panic _) => apply keeps_mutex_panic
  | |- keeps_mutex blocked => intros ? ? ?; discriminate
  | |- keeps_mutex (match ?x with _ => _ end) => destruct x; mutex_kept
  | |- keeps_mutex _ => solve [auto with mutex_db]
  end.

Ltac mutex_freed :=
  lazymatch goal with
  | |- frees_mutex (defer_ Unlock _) => apply frees_mutex_defer
  | |- frees_mutex Unlock => apply frees_mutex_Unlock
  | |- frees_mutex (bind Unlock _) =>
      apply frees_mutex_bind_l; [apply frees_mutex_Unlock | intros; mutex_kept]
  | |- frees_mutex (bind _ _) => apply frees_mutex_bind_r; intros; mutex_freed
  | |- frees_mutex (match ?x with _ => _ end) => destruct x; mutex_freed
  end.

Ltac mutex_back :=
  lazymatch goal with
  | |- hands_back_mutex (bind Lock _) => apply hands_back_frees; mutex_freed
  | |- hands_back_mutex (defer_ Unlock _) => apply hands_back_frees, frees_mutex_defer
  | |- hands_back_mutex (bind _ _) =>
      apply hands_back_bind; [mutex_back | intros; mutex_back]
  | |- hands_back_mutex (on_panic _ _) => apply hands_back_on_panic; mutex_back
  | |- hands_back_mutex (match ?x with _ => _ end) => destruct x; mutex_back
  | |- hands_back_mutex _ => apply hands_back_keeps; mutex_kept
  end.

(** X15.  The mutex is held from one transition to the next only by
    [StartSync] and by a decode loop inside its critical section.  Every
    other transition that finds the mutex free and returns leaves it free.
    [StartSync] returns from its first half with the mutex held when it goes
    on to wait, and free when sending failed; its second half leaves the
    mutex free however it ends, by a return or by a panic.  The check of
    the critical section leaves the mutex held exactly when it found a
    channel registered, and the send leaves it free. *)
Theorem mutex_held_across_transitions :
  (forall s w w',
      s <> StartSyncBegin -> (forall outChan msg, s <> LoopCheck outChan msg) ->
      step s w = Ret tt w' ->
      statusMutex (disc w) = false -> statusMutex (disc w') = false)
  /\ (forall w r w',
        StartSync_begin w = Ret r w' ->
        statusMutex (disc w') = match r with None => true | Some _ => false end)
  /\ (forall size sc w w',
        world_of (StartSync_end size sc w) = Some w' -> statusMutex (disc w') = false)
  /\ (forall outChan msg w w',
        step (LoopCheck outChan msg) w = Ret tt w' ->
        statusMutex (disc w) = false /\ statusMutex (disc w') = registered w)
  /\ (forall w w', step LoopSend w = Ret tt w' -> statusMutex (disc w') = false).
Proof.
  split; [|split; [|split; [|split]]].
  - intros s w w' Hs Hc. revert w w'.
    assert (H : hands_back_mutex (step s)); [|intros w w'; apply (H w tt w')].
    destruct s; try contradiction; try (exfalso; eapply Hc; reflexivity);
      try (apply hands_back_frees; exact frees_mutex_deliver_send);
      unfold step, SetUserAgent, State_, Run_begin, Run_end, Run_deferred,
        Start_begin, Start_end, Stop_begin, Stop_end, List_begin, List_end,
        StartSync_end, Quit_begin, Quit_wait, Quit_kill, stopSync_check, stopSync_send,
        stopSync_close, stopSync_nil, jsonDecodeLoop_iter, deliver_eval, at_Quit, at_head,
        closeAndReportError, deliver, stopSync, killProcess, runProcess;
      mutex_back.
  - intros w r w'. unfold StartSync_begin. unfold bind at 1. unfold Lock.
    destruct (statusMutex (disc w)); [discriminate|].
    unfold bind, on_panic.
    destruct (sendCommand _ _) as [[e|] w0|why w0|] eqn:S; try discriminate.
    + unfold Unlock, modDisc, ret. intros [= <- <-]. reflexivity.
    + unfold ret. intros [= <- <-].
      pose proof (sendCommand_disc ("START_SYNC" ++ newline)
                    (upd_disc (set_statusMutex true) w) w0) as D.
      rewrite S in D. destruct (D eq_refl) as (-> & _). reflexivity.
  - intros size sc w w'. unfold StartSync_end, defer_.
    destruct (bind (waitMessage sc) _ w) as [a w1|why w1|]; try discriminate;
      unfold Unlock, modDisc, bind, ret; intros [= <-]; reflexivity.
  - intros outChan msg w w'. cbn [step]. unfold bind at 1, at_head, bind, getDelivering.
    assert (G : forall type port,
               deliver_check outChan type port w = Ret tt w' ->
               statusMutex (disc w) = false /\ statusMutex (disc w') = registered w).
    { intros type port. unfold deliver_check, bind, Lock, getDisc, registered.
      destruct (statusMutex (disc w)); [discriminate|].
      cbn [disc upd_disc eventChan set_statusMutex].
      destruct (eventChan (disc w)); unfold Unlock, modDisc, goto_deliver;
        intros [= <-]; auto. }
    assert (G' : jsonDecodeLoop_check outChan msg w = Ret tt w' ->
                 statusMutex (disc w) = false /\ statusMutex (disc w') = registered w).
    { unfold jsonDecodeLoop_check. unfold bind at 1. unfold loop_head.
      destruct (msgChans w !! outChan) as [[| |]|]; try discriminate.
      destruct (m_EventType msg =? "add").
      - destruct (m_Port msg); [apply G|discriminate].
      - destruct (m_EventType msg =? "remove"); [|discriminate].
        destruct (m_Port msg); [apply G|discriminate]. }
    destruct (delivering w) as [|o ? ?|o ? ?]; [exact G'| |];
      (destruct (o =? outChan)%nat; [discriminate|exact G']).
  - intros w w'. apply (frees_mutex_deliver_send w tt w').
Qed.

(** ** Run when the process cannot be started *)

Lemma alter_last (f : Process -> Process) (l : list Process) (x : Process) :
  alter f (length l) (l ++ [x])%list = (l ++ [f x])%list.
Proof. induction l as [|y l IH]; cbn; [reflexivity|]. f_equal. exact IH. Qed.

Lemma lookup_new (l : list Process) (x p : Process) (i : nat) :
  (l ++ [x])%list !! i = Some p -> l !! i = None -> p = x.
Proof.
  intros H1 H2. apply lookup_ge_None in H2.
  rewrite lookup_app_r in H1 by exact H2.
  destruct (i - length l)%nat; cbn in H1; [congruence|discriminate].
Qed.

(** X16.  When making the process, one of its pipes or starting it fails, [Run]
    returns that error as it is, the first in the order of the calls.  It
    sends nothing and kills nothing: the state, the process handle, the
    event channels and the processes of earlier runs are as they were, and
    the process it made, if any, got nothing on its standard input and no
    call but the [Start] that failed.  When it was [Start] that failed, the
    client has by then taken the pipe and the channel of the process that
    did not start. *)
Theorem Run_fails_to_start (w : World) (e : error) :
  runProcess_error (os w) = Some e ->
  exists w',
    Run_begin w = Ret (Some e) w'
    /\ state (disc w') = state (disc w)
    /\ process (disc w') = process (disc w)
    /\ eventChan (disc w') = eventChan (disc w)
    /\ eventChans w' = eventChans w
    /\ (forall i p, procs w !! i = Some p -> procs w' !! i = Some p)
    /\ (forall i p, procs w' !! i = Some p -> procs w !! i = None ->
          p_stdin p = EmptyString
          /\ forall c, In c (p_calls p) -> c = (CallStart, Some e))
    /\ (NewProcess_err (os w) = None -> StdoutPipe_err (os w) = None ->
        StdinPipe_err (os w) = None ->
        outgoingCommandsPipe (disc w') = Some (length (procs w))
        /\ incomingMessagesChan (disc w') = Some (length (msgChans w))).
Proof.
  assert (Old : forall x i q, procs w !! i = Some q -> (procs w ++ [x])%list !! i = Some q).
  { intros x i q Hq. apply lookup_app_l_Some. exact Hq. }
  unfold runProcess_error, Run_begin, runProcess, bind, getDisc, NewProcess, StdoutPipe,
    StdinPipe, ret.
  destruct (NewProcess_err (os w)) as [e0|] eqn:E0.
  { intros [= ->]. eexists. split; [reflexivity|].
    repeat (split; [reflexivity|]).
    split; [intros i q Hq; exact Hq|].
    split; [intros i q Hq Hn; congruence|].
    intros Hn. discriminate Hn. }
  cbn [os set_procs]. destruct (StdoutPipe_err (os w)) as [e1|] eqn:E1; cbn beta iota.
  { intros [= ->]. eexists. split; [reflexivity|]. cbn.
    repeat (split; [reflexivity|]).
    split; [apply Old|].
    split; [|intros _ Hn; discriminate Hn].
    intros i q Hq Hn. apply (lookup_new _ _ _ _ Hq) in Hn. subst q.
    split; [reflexivity|]. intros c []. }
  cbn [os set_procs]. destruct (StdinPipe_err (os w)) as [e2|] eqn:E2; cbn beta iota.
  { intros [= ->]. eexists. split; [reflexivity|]. cbn.
    repeat (split; [reflexivity|]).
    split; [apply Old|].
    split; [|intros _ _ Hn; discriminate Hn].
    intros i q Hq Hn. apply (lookup_new _ _ _ _ Hq) in Hn. subst q.
    split; [reflexivity|]. intros c []. }
  unfold modDisc, make_chan_Message, go_jsonDecodeLoop, proc_Start, proc_call.
  cbn [os set_procs upd_disc set_msgChans disc msgChans procs eventChans].
  intros E3. rewrite E3. cbn beta iota.
  eexists. split; [reflexivity|]. cbn.
  rewrite list_alter_alter_eq, alter_last.
  repeat (split; [reflexivity|]).
  split; [apply Old|].
  split; [|intros _ _ _; split; reflexivity].
  intros i q Hq Hn. apply (lookup_new _ _ _ _ Hq) in Hn. subst q.
  split; [reflexivity|]. cbn. intros c [<-|[]]. reflexivity.
Qed.

Lemma Run_fails_to_start_witness :
  exists w',
    Run_begin (set_os {| NewProcess_err := None; StdoutPipe_err := None;
                         StdinPipe_err := None;
                         Start_err := Some (Foreign "exec: not found");
                         Kill_err := None; Wait_err := None; Write_script := [] |}
                 idle_world)
    = Ret (Some (Foreign "exec: not found")) w'
    /\ state (disc w') = Idling
    /\ process (disc w') = Some 0%nat
    /\ outgoingCommandsPipe (disc w') = Some 1%nat.
Proof.
  destruct (Run_fails_to_start
              (set_os {| NewProcess_err := None; StdoutPipe_err := None;
                         StdinPipe_err := None;
                         Start_err := Some (Foreign "exec: not found");
                         Kill_err := None; Wait_err := None; Write_script := [] |}
                 idle_world) (Foreign "exec: not found") eq_refl)
    as (w' & E & H1 & H2 & _ & _ & _ & _ & H3).
  exists w'. split; [exact E|]. rewrite H1, H2.
  destruct (H3 eq_refl eq_refl eq_refl) as (-> & _).
  vm_compute. repeat split.
Defined.

(** ** The order of the events *)

Lemma step_Loop (outChan : nat) (d : Decoded) (w : World) :
  delivering w = NotDelivering ->
  step (Loop outChan d) w = (jsonDecodeLoop_iter outChan d ;; ret tt) w.
Proof.
  intros H. cbn [step]. unfold bind at 1. unfold at_head, bind, getDelivering.
  rewrite H. reflexivity.
Qed.

Lemma Loops_Some (outChan : nat) (ms : list discoveryMessage) :
  Forall (fun m => is_port_event m /\ m_Port m <> None) ms ->
  forall (w : World) (ch : nat) (c : EventChan),
    msgChans w !! outChan = Some MEmpty ->
    statusMutex (disc w) = false ->
    delivering w = NotDelivering ->
    eventChan (disc w) = Some ch ->
    eventChans w !! ch = Some c ->
    closed c = false ->
    (Z.of_nat (length (sent c)) + Z.of_nat (length ms) <= Z.of_nat (wanted c) + cap c)%Z ->
    steps (Loops outChan ms) w
    = Ret tt (set_eventChans
                (<[ch := {| cap := cap c; sent := sent c ++ map (Event_of (disc w)) ms;
                            wanted := wanted c; closed := false |}]> (eventChans w)) w).
Proof.
  induction 1 as [|m ms (Hpe & Hport) _ IH]; intros w ch c He Hm Hd Hch Hc Hopen Hroom.
  - cbn. unfold ret. f_equal. rewrite app_nil_r.
    destruct w as [d mcs ecs ps o dl qt]. unfold set_eventChans. cbn in *. f_equal.
    rewrite list_insert_id; [reflexivity|]. rewrite Hc. destruct c. cbn in *.
    subst. reflexivity.
  - assert (Hok : eventChan_ok w).
    { intros ch' E. rewrite Hch in E. injection E as <-. eauto. }
    assert (Hr : room 1 w).
    { intros ch' c' E Hc'. rewrite Hch in E. injection E as <-.
      rewrite Hc in Hc'. injection Hc' as <-. cbn [length] in Hroom. lia. }
    cbn [Loops map steps]. unfold bind at 1. rewrite (step_Loop _ _ _ Hd).
    unfold bind at 1.
    rewrite (iter_port_event outChan m w Hpe Hport He Hm Hok Hr).
    unfold ret at 1. cbn beta iota.
    unfold delivered. rewrite Hch, Hc.
    pose proof (lookup_lt_Some _ _ _ Hc) as Hlt.
    set (c1 := {| cap := cap c; sent := sent c ++ [Event_of (disc w) m];
                  wanted := wanted c; closed := false |}).
    set (w1 := upd_disc _ _).
    assert (D1 : disc w1 = disc w).
    { unfold w1. destruct w as [[] ? ? ? ? ? ?]. cbn in *. subst. reflexivity. }
    fold (Loops outChan ms).
    rewrite (IH w1 ch c1).
    + f_equal. rewrite D1. unfold w1. cbn. rewrite list_insert_insert_eq.
      unfold c1. cbn. rewrite <- app_assoc. cbn.
      destruct w as [[] ? ? ? ? ? ?]. cbn in *. subst. reflexivity.
    + exact He.
    + rewrite D1. exact Hm.
    + exact Hd.
    + rewrite D1. exact Hch.
    + unfold w1. cbn. apply list_lookup_insert_eq. exact Hlt.
    + reflexivity.
    + unfold c1. cbn [sent wanted cap]. rewrite length_app. cbn [length] in *. lia.
Qed.

Lemma Loops_None (outChan : nat) (ms : list discoveryMessage) :
  Forall (fun m => is_port_event m /\ m_Port m <> None) ms ->
  forall w : World,
    msgChans w !! outChan = Some MEmpty ->
    statusMutex (disc w) = false ->
    delivering w = NotDelivering ->
    eventChan (disc w) = None ->
    steps (Loops outChan ms) w = Ret tt w.
Proof.
  induction 1 as [|m ms (Hpe & Hport) _ IH]; intros w He Hm Hd Hch.
  - reflexivity.
  - assert (Hok : eventChan_ok w).
    { intros ch' E. rewrite Hch in E. discriminate. }
    assert (Hr : room 1 w).
    { intros ch' c' E. rewrite Hch in E. discriminate. }
    cbn [Loops map steps]. unfold bind at 1. rewrite (step_Loop _ _ _ Hd).
    unfold bind at 1.
    rewrite (iter_port_event outChan m w Hpe Hport He Hm Hok Hr).
    unfold ret at 1. cbn beta iota.
    unfold delivered. rewrite Hch. rewrite unlock_lock by exact Hm.
    fold (Loops outChan ms). apply IH; assumption.
Qed.

(** X17.  The decode loop hands the events on in the order of the envelopes.
    With the mutex free and room on the registered channel for as many
    events as there are envelopes, iterations on "add" and "remove"
    envelopes that have their port put on the registered channel, after what
    was sent on it before, one event for each envelope, in their order, each
    with the type and the port of its envelope and the identifier of the
    client; nothing else changes.  When no channel is registered the
    envelopes are dropped and nothing changes at all. *)
Theorem events_in_order (w : World) (outChan : nat) (ms : list discoveryMessage) :
  Forall (fun m => is_port_event m /\ m_Port m <> None) ms ->
  msgChans w !! outChan = Some MEmpty ->
  statusMutex (disc w) = false ->
  delivering w = NotDelivering ->
  eventChan_ok w ->
  room (length ms) w ->
  exists w',
    steps (Loops outChan ms) w = Ret tt w'
    /\ disc w' = disc w /\ msgChans w' = msgChans w /\ procs w' = procs w
    /\ match eventChan (disc w) with
       | Some ch =>
           exists c,
             eventChans w !! ch = Some c
             /\ eventChans w'
                = <[ch := {| cap := cap c;
                             sent := sent c ++ map (Event_of (disc w)) ms;
                             wanted := wanted c;
                             closed := false |}]> (eventChans w)
       | None => w' = w
       end.
Proof.
  intros Hms He Hm Hd Hok Hr. destruct (eventChan (disc w)) as [ch|] eqn:Hch.
  - destruct (Hok ch Hch) as (c & Hc & Hopen).
    rewrite (Loops_Some outChan ms Hms w ch c He Hm Hd Hch Hc Hopen (Hr ch c Hch Hc)).
    eexists. split; [reflexivity|]. repeat split. exists c. split; [exact Hc|reflexivity].
  - rewrite (Loops_None outChan ms Hms w He Hm Hd Hch).
    exists w. repeat split.
Qed.

Lemma events_in_order_witness :
  exists w',
    steps (Loops 0%nat [envelope "add" EmptyString 0 [] (Some (aPort "1"));
                        envelope "add" EmptyString 0 [] (Some (aPort "2"));
                        envelope "remove" EmptyString 0 [] (Some (aPort "1"))])
          (run_on OS_ok (handshake ++ sync_start)%list) = Ret tt w'
    /\ (fun c => map e_Type (sent c)) <$> eventChans w' !! 0%nat
       = Some ["add"; "add"; "remove"].
Proof.
  destruct (events_in_order (run_on OS_ok (handshake ++ sync_start)%list) 0%nat
              [envelope "add" EmptyString 0 [] (Some (aPort "1"));
               envelope "add" EmptyString 0 [] (Some (aPort "2"));
               envelope "remove" EmptyString 0 [] (Some (aPort "1"))])
    as (w' & E & _ & _ & _ & H).
  - repeat constructor; try discriminate; right; reflexivity.
  - vm_compute. reflexivity.
  - vm_compute. reflexivity.
  - vm_compute. reflexivity.
  - intros ch. vm_compute. intros [= <-]. eexists. split; reflexivity.
  - intros ch c H Hc. vm_compute in H. injection H as <-.
    vm_compute in Hc. injection Hc as <-. vm_compute. discriminate.
  - exists w'. split; [exact E|].
    assert (Hch : eventChan (disc (run_on OS_ok (handshake ++ sync_start)%list))
                  = Some 0%nat) by (vm_compute; reflexivity).
    rewrite Hch in H. destruct H as (c & Hc & Hw').
    assert (Ec : c = {| cap := 10; sent := []; wanted := 0; closed := false |}).
    { vm_compute in Hc. congruence. }
    subst c. rewrite Hw'. vm_compute. reflexivity.
Defined.

(** ** A closed channel has its error *)

Lemma msg_eq_refl (w : World) : msg_eq w w.
Proof. repeat split. Qed.

Lemma msg_eq_trans (a b c : World) : msg_eq a b -> msg_eq b c -> msg_eq a c.
Proof. intros (? & ? & ?) (? & ? & ?). repeat split; congruence. Qed.

Lemma keeps_wired_refl (w : World) : keeps_wired w w.
Proof. intros H. exact H. Qed.

Lemma keeps_wired_trans (a b c : World) :
  keeps_wired a b -> keeps_wired b c -> keeps_wired a c.
Proof. unfold keeps_wired. auto. Qed.

Lemma keeps_wired_frame (w w' : World) : msg_eq w w' -> keeps_wired w w'.
Proof. intros (E1 & E2 & E3). unfold keeps_wired, wired. rewrite E1, E2, E3. auto. Qed.

Lemma always_keeps_wired {A} (c : M A) : always msg_eq c -> always keeps_wired c.
Proof. intros H w w' E. apply keeps_wired_frame, (H w w' E). Qed.

Ltac msg_kept :=
  intros w w';
  unfold Lock, Unlock, modDisc, getDisc, loop_head, NewProcess, StdoutPipe, StdinPipe,
    proc_Start, proc_Kill, proc_Wait, proc_call, go_jsonDecodeLoop,
    send_Event, close_Event, make_chan_Event, receive_Event, getQuitting, getDelivering,
    goto_Quit, goto_deliver;
  repeat case_match; cbn; intros E; simplify_eq; repeat split.

Lemma msg_eq_getDisc : always msg_eq getDisc.
Proof. msg_kept. Qed.

Lemma msg_eq_modDisc (f : Client -> Client) :
  (forall c, incomingMessagesChan (f c) = incomingMessagesChan c
             /\ incomingMessagesError (f c) = incomingMessagesError c) ->
  always msg_eq (modDisc f).
Proof.
  intros Hf w w' E. unfold modDisc in E. cbn in E. simplify_eq.
  destruct (Hf (disc w)) as (E1 & E2). repeat split; assumption.
Qed.

Lemma msg_eq_Lock : always msg_eq Lock.
Proof. msg_kept. Qed.

Lemma msg_eq_Unlock : always msg_eq Unlock.
Proof. msg_kept. Qed.

Lemma msg_eq_sendCommand (cmd : string) : always msg_eq (sendCommand cmd).
Proof.
  intros w w' H. apply sendCommand_disc in H. destruct H as (Hd & _ & Hm & _).
  unfold msg_eq. rewrite Hd, Hm. repeat split.
Qed.

Lemma msg_eq_loop_head (outChan : nat) : always msg_eq (loop_head outChan).
Proof. msg_kept. Qed.

Lemma msg_eq_NewProcess (args : list string) : always msg_eq (NewProcess args).
Proof. msg_kept. Qed.

Lemma msg_eq_StdoutPipe (proc : nat) : always msg_eq (StdoutPipe proc).
Proof. msg_kept. Qed.

Lemma msg_eq_StdinPipe (proc : nat) : always msg_eq (StdinPipe proc).
Proof. msg_kept. Qed.

Lemma msg_eq_proc_call (call : ProcessCall) (r : OS -> option error) (proc : nat) :
  always msg_eq (proc_call call r proc).
Proof. msg_kept. Qed.

Lemma msg_eq_go_jsonDecodeLoop (proc outChan : nat) :
  always msg_eq (go_jsonDecodeLoop proc outChan).
Proof. msg_kept. Qed.

Lemma msg_eq_send_Event (ch : nat) (ev : Event) : always msg_eq (send_Event ch ev).
Proof. msg_kept. Qed.

Lemma msg_eq_close_Event (ch : nat) : always msg_eq (close_Event ch).
Proof. msg_kept. Qed.

Lemma msg_eq_make_chan_Event (size : Z) : always msg_eq (make_chan_Event size).
Proof. msg_kept. Qed.

Lemma msg_eq_receive_Event (ch : nat) : always msg_eq (receive_Event ch).
Proof. msg_kept. Qed.

Lemma msg_eq_getQuitting : always msg_eq getQuitting.
Proof. msg_kept. Qed.

Lemma msg_eq_getDelivering : always msg_eq getDelivering.
Proof. msg_kept. Qed.

Lemma msg_eq_goto_Quit (pc : QuitPC) : always msg_eq (goto_Quit pc).
Proof. msg_kept. Qed.

Lemma msg_eq_goto_deliver (pc : DeliverPC) : always msg_eq (goto_deliver pc).
Proof. msg_kept. Qed.

Lemma wired_insert (w : World) (ch : nat) (x : MsgChan) :
  x <> MClosed -> wired w -> wired (set_msgChans (<[ch := x]> (msgChans w)) w).
Proof.
  intros Hx (H1 & H2). split; cbn.
  - intros c Hc. rewrite length_insert. apply H1, Hc.
  - intros c Hc. destruct (decide (ch = c)) as [<-|Hne].
    + destruct (decide (ch < length (msgChans w))%nat) as [Hlt|Hge].
      * rewrite list_lookup_insert_eq in Hc by exact Hlt. congruence.
      * rewrite list_insert_ge in Hc by lia. apply (H2 ch Hc).
    + rewrite list_lookup_insert_ne in Hc by exact Hne. apply (H2 c Hc).
Qed.

Lemma wired_waitMessage (sc : SelectCase) : always keeps_wired (waitMessage sc).
Proof.
  intros w w'. destruct sc; unfold waitMessage, bind, getDisc, recv_Message, ret.
  - destruct (incomingMessagesChan (disc w)) as [ch|]; [|discriminate].
    destruct (msgChans w !! ch) as [[| |]|]; try discriminate;
      intros [= <-]; try apply keeps_wired_refl.
    intros H. apply wired_insert; [discriminate|exact H].
  - intros [= <-]. apply keeps_wired_refl.
Qed.

Lemma wired_send_Message (ch : nat) (m : discoveryMessage) :
  always keeps_wired (send_Message ch m).
Proof.
  intros w w'. unfold send_Message.
  destruct (msgChans w !! ch) as [[| |]|]; try discriminate;
    intros [= <-]; try apply keeps_wired_refl.
  intros H. apply wired_insert; [discriminate|exact H].
Qed.

Lemma wired_make_chan {B} (rest : nat -> M B) :
  (forall ch, always keeps_wired (rest ch)) ->
  always keeps_wired
    (bind make_chan_Message
       (fun ch => bind (modDisc (set_incomingMessagesChan (Some ch))) (fun _ => rest ch))).
Proof.
  intros Hr w w'. unfold bind at 1 2. unfold make_chan_Message, modDisc.
  intros H Hw. apply (Hr _ _ _ H). destruct Hw as (H1 & H2). split; cbn.
  - intros ch [= <-]. rewrite length_app. cbn. lia.
  - intros ch Hc. apply (H2 ch).
    destruct (decide (ch < length (msgChans w))%nat) as [Hlt|Hge].
    + rewrite lookup_app_l in Hc by exact Hlt. exact Hc.
    + rewrite lookup_app_r in Hc by lia.
      destruct (ch - length (msgChans w))%nat; cbn in Hc; discriminate.
Qed.

Lemma wired_recorded (w : World) (outChan : nat) (err : error) (l : list MsgChan) :
  length l = length (msgChans w) ->
  wired w ->
  wired (set_msgChans l
           (upd_disc (set_statusMutex false)
              (upd_disc (set_incomingMessagesError (Some err))
                 (upd_disc (set_state Dead) (upd_disc (set_statusMutex true) w))))).
Proof.
  intros Hl (H1 & _). split; cbn.
  - intros ch Hc. rewrite Hl. apply H1, Hc.
  - intros ch _. discriminate.
Qed.

Lemma wired_closeAndReportError (outChan : nat) (err : error) :
  always keeps_wired (closeAndReportError outChan err).
Proof.
  intros w w'. unfold closeAndReportError, bind, Lock.
  destruct (statusMutex (disc w)); [discriminate|].
  unfold modDisc, Unlock, modDisc, close_Message. cbn.
  destruct (msgChans w !! outChan) as [[| |]|]; intros [= <-] Hw.
  - apply (wired_recorded w outChan err); [apply length_insert|exact Hw].
  - apply (wired_recorded w outChan err); [apply length_insert|exact Hw].
  - apply (wired_recorded w outChan err (msgChans w)); [reflexivity|exact Hw].
  - apply (wired_recorded w outChan err (msgChans w)); [reflexivity|exact Hw].
Qed.

Lemma wired_end_of_stream (outChan : nat) (err : error) :
  always keeps_wired
    (Lock ;;
     modDisc (set_state Dead) ;;
     modDisc (set_incomingMessagesError (Some err)) ;;
     Unlock ;;
     close_Message outChan ;;
     ret Return).
Proof.
  intros w w'. unfold bind, Lock.
  destruct (statusMutex (disc w)); [discriminate|].
  unfold modDisc, Unlock, modDisc, close_Message, ret. cbn.
  destruct (msgChans w !! outChan) as [[| |]|]; intros [= <-] Hw.
  - apply (wired_recorded w outChan err); [apply length_insert|exact Hw].
  - apply (wired_recorded w outChan err); [apply length_insert|exact Hw].
  - apply (wired_recorded w outChan err (msgChans w)); [reflexivity|exact Hw].
  - apply (wired_recorded w outChan err (msgChans w)); [reflexivity|exact Hw].
Qed.

Create HintDb wired_db.

#[local] Hint Resolve msg_eq_getDisc msg_eq_Lock msg_eq_Unlock msg_eq_sendCommand
  msg_eq_loop_head msg_eq_NewProcess msg_eq_StdoutPipe msg_eq_StdinPipe msg_eq_proc_call
  msg_eq_go_jsonDecodeLoop msg_eq_send_Event msg_eq_close_Event msg_eq_make_chan_Event
  msg_eq_receive_Event msg_eq_getQuitting msg_eq_getDelivering msg_eq_goto_Quit
  msg_eq_goto_deliver
  wired_waitMessage wired_send_Message wired_closeAndReportError wired_end_of_stream
  : wired_db.

#[local] Hint Extern 1 (always msg_eq (modDisc _)) =>
  (apply msg_eq_modDisc; intros ?; split; reflexivity) : wired_db.
#[local] Hint Extern 1 (always msg_eq (proc_Start _)) => apply msg_eq_proc_call : wired_db.
#[local] Hint Extern 1 (always msg_eq (proc_Kill _)) => apply msg_eq_proc_call : wired_db.
#[local] Hint Extern 1 (always msg_eq (proc_Wait _)) => apply msg_eq_proc_call : wired_db.

Ltac wired_walk :=
  repeat (intros;
          try solve [auto with wired_db];
          lazymatch goal with
          | |- always keeps_wired (bind make_chan_Message _) => apply wired_make_chan
          | |- always _ (bind _ _) => apply (always_bind _ keeps_wired_trans)
          | |- always _ (ret _) => apply (always_ret _ keeps_wired_refl)
          | |- always _ (panic _) => apply (always_panic _ keeps_wired_refl)
          | |- always _ blocked => apply always_blocked
          | |- always _ (defer_ _ _) =>
              apply (always_defer _ keeps_wired_refl keeps_wired_trans)
          | |- always _ (on_panic _ _) =>
              apply (always_on_panic _ keeps_wired_refl keeps_wired_trans)
          | |- always _ (match ?x with _ => _ end) => destruct x
          | |- always keeps_wired _ =>
              first [ solve [auto with wired_db]
                    | apply always_keeps_wired; solve [auto with wired_db] ]
          end).

Lemma step_wired (s : Step) : always keeps_wired (step s).
Proof.
  destruct s; unfold step, SetUserAgent, State_, Run_begin, Run_end, Run_deferred,
    Start_begin, Start_end, Stop_begin, Stop_end, List_begin, List_end,
    StartSync_begin, StartSync_end, Quit_begin, Quit_wait, Quit_kill, stopSync_check,
    stopSync_send, stopSync_close, stopSync_nil, jsonDecodeLoop_iter, jsonDecodeLoop_check,
    deliver_check, deliver_eval, deliver_send, at_Quit, at_head,
    deliver, killProcess, stopSync, runProcess.
  all: wired_walk.
Qed.

Lemma reachable_wired (w : World) : reachable w -> wired w.
Proof.
  induction 1 as [id args o|s w w' _ IH Hs|o w _ IH].
  - split; cbn; [discriminate|]. intros ch H. rewrite lookup_nil in H. discriminate.
  - exact (step_wired s w w' Hs IH).
  - exact IH.
Qed.

Lemma wired_wait (w : World) (sc : SelectCase) :
  wired w ->
  waitMessage sc w = Blocked
  \/ (exists m w', waitMessage sc w = Ret (Some m, None) w' /\ offers w m /\ w' = taken w)
  \/ (exists e, waitMessage sc w = Ret (None, Some e) w).
Proof.
  intros (H1 & H2). destruct sc; [|right; right; eexists; reflexivity].
  unfold waitMessage, bind, getDisc, recv_Message, ret.
  destruct (incomingMessagesChan (disc w)) as [ch|] eqn:Hc; [|left; reflexivity].
  pose proof (H1 ch eq_refl) as Hlt. apply lookup_lt_is_Some_2 in Hlt.
  destruct Hlt as (x & Hx). rewrite Hx. destruct x as [|m|].
  - left. reflexivity.
  - right. left. exists m. eexists. split; [reflexivity|]. split.
    + exists ch. split; assumption.
    + unfold taken. rewrite Hc. reflexivity.
  - right. right. destruct (incomingMessagesError (disc w)) as [e|] eqn:He.
    + exists e. reflexivity.
    + exfalso. apply (H2 ch Hx). reflexivity.
Qed.

Section PanicsWith.

Variable P : string -> Prop.

Lemma panics_with_ret {A} (a : A) : panics_with P (ret a).
Proof. intros w why w' H. discriminate H. Qed.

Lemma panics_with_bind {A B} (c : M A) (k : A -> M B) :
  panics_with P c -> (forall a, panics_with P (k a)) -> panics_with P (bind c k).
Proof.
  intros Hc Hk w why w'. unfold bind. destruct (c w) as [a w1|why1 w1|] eqn:E.
  - apply Hk.
  - intros [= <- _]. apply (Hc w why1 w1 E).
  - discriminate.
Qed.

Lemma panics_with_defer {A} (d : M unit) (body : M A) :
  panics_with P d -> panics_with P body -> panics_with P (defer_ d body).
Proof.
  intros Hd Hb w why w'. unfold defer_, bind.
  destruct (body w) as [a w1|why1 w1|] eqn:E; [| |discriminate].
  - destruct (d w1) as [[] w2|why2 w2|] eqn:E2; try discriminate.
    intros [= <- _]. apply (Hd w1 why2 w2 E2).
  - destruct (d w1) as [[] w2|why2 w2|] eqn:E2; try discriminate.
    + intros [= <- _]. apply (Hb w why1 w1 E).
    + intros [= <- _]. apply (Hd w1 why2 w2 E2).
Qed.

Lemma panics_with_never {A} (c : M A) :
  (forall w why w', c w <> Panic why w') -> panics_with P c.
Proof. intros H w why w' E. destruct (H w why w' E). Qed.

End PanicsWith.

Ltac never_panics :=
  apply panics_with_never; intros w why w';
  unfold Lock, Unlock, modDisc, getDisc, proc_Kill, proc_Wait, proc_call;
  repeat case_match; discriminate.

Lemma not_nil_getDisc : panics_with not_nil getDisc.
Proof. never_panics. Qed.

Lemma not_nil_modDisc (f : Client -> Client) : panics_with not_nil (modDisc f).
Proof. never_panics. Qed.

Lemma not_nil_Lock : panics_with not_nil Lock.
Proof. never_panics. Qed.

Lemma not_nil_Unlock : panics_with not_nil Unlock.
Proof. never_panics. Qed.

Lemma not_nil_proc_call (call : ProcessCall) (r : OS -> option error) (proc : nat) :
  panics_with not_nil (proc_call call r proc).
Proof. never_panics. Qed.

Ltac panics_otherwise :=
  intros w why w';
  unfold send_Event, close_Event, make_chan_Event, panic;
  repeat case_match; intros E; simplify_eq; discriminate.

Lemma not_nil_send_Event (ch : nat) (ev : Event) : panics_with not_nil (send_Event ch ev).
Proof. panics_otherwise. Qed.

Lemma not_nil_close_Event (ch : nat) : panics_with not_nil (close_Event ch).
Proof. panics_otherwise. Qed.

Lemma not_nil_make_chan_Event (size : Z) : panics_with not_nil (make_chan_Event size).
Proof. panics_otherwise. Qed.

Create HintDb not_nil_db.

#[local] Hint Resolve not_nil_getDisc not_nil_modDisc not_nil_Lock not_nil_Unlock
  not_nil_proc_call not_nil_send_Event not_nil_close_Event not_nil_make_chan_Event
  : not_nil_db.
#[local] Hint Extern 1 (panics_with not_nil (proc_Kill _)) =>
  apply not_nil_proc_call : not_nil_db.
#[local] Hint Extern 1 (panics_with not_nil (proc_Wait _)) =>
  apply not_nil_proc_call : not_nil_db.

Ltac not_nil_walk :=
  repeat (intros;
          try solve [auto with not_nil_db];
          lazymatch goal with
          | |- panics_with _ (bind _ _) => apply panics_with_bind
          | |- panics_with _ (ret _) => apply panics_with_ret
          | |- panics_with _ (defer_ _ _) => apply panics_with_defer
          | |- panics_with _ (match ?x with _ => _ end) => destruct x
          | |- panics_with _ _ => solve [auto with not_nil_db]
          end).

Lemma not_nil_wait {B} (sc : SelectCase)
    (k : option discoveryMessage * option error -> M B) (w : World) :
  wired w ->
  (forall m, panics_with not_nil (k (Some m, None))) ->
  (forall e, panics_with not_nil (k (None, Some e))) ->
  forall why w', bind (waitMessage sc) k w = Panic why w' -> not_nil why.
Proof.
  intros Hw H1 H2 why w'. unfold bind.
  destruct (wired_wait w sc Hw) as [E|[(m & w1 & E & _)|(e & E)]]; rewrite E.
  - discriminate.
  - apply H1.
  - apply H2.
Qed.

(** X18.  In every world the client can get into, a wait that returns gives a
    message and no error, or no message and an error, never neither: the
    decode loop records its error before it closes its channel, and the
    error is never taken back.  So no command goes on to read a message
    that is not there: none of [Run], [Start], [Stop], [List] and
    [StartSync] panics on a nil message. *)
Theorem wait_gives_message_or_error (w : World) :
  reachable w ->
  (forall sc r w', waitMessage sc w = Ret r w' ->
     (exists m, r = (Some m, None)) \/ (exists e, r = (None, Some e)))
  /\ (forall sc size why w',
        Run_end sc w = Panic why w' \/ Start_end sc w = Panic why w'
        \/ Stop_end sc w = Panic why w' \/ List_end sc w = Panic why w'
        \/ StartSync_end size sc w = Panic why w' ->
        why <> "nil pointer dereference").
Proof.
  intros Hr. pose proof (reachable_wired w Hr) as Hw. split.
  - intros sc r w' E.
    destruct (wired_wait w sc Hw) as [E1|[(m & w1 & E1 & _)|(e & E1)]];
      rewrite E1 in E; simplify_eq; eauto.
  - intros sc size why w' H.
    assert (G : not_nil why); [|exact G].
    destruct H as [H|[H|[H|[H|H]]]].
    + revert H. unfold Run_end. apply (not_nil_wait sc _ w Hw); intros;
        unfold Run_deferred, killProcess, stopSync; not_nil_walk.
    + revert H. unfold Start_end. apply (not_nil_wait sc _ w Hw); intros; not_nil_walk.
    + revert H. unfold Stop_end. apply (not_nil_wait sc _ w Hw); intros;
        unfold stopSync; not_nil_walk.
    + revert H. unfold List_end. apply (not_nil_wait sc _ w Hw); intros; not_nil_walk.
    + revert H. unfold StartSync_end, defer_.
      destruct (bind (waitMessage sc) _ w) as [a w1|why1 w1|] eqn:E;
        unfold Unlock, modDisc, bind, ret, panic; try discriminate.
      intros [= <- _]. revert E. apply (not_nil_wait sc _ w Hw); intros;
        unfold stopSync; not_nil_walk.
Qed.

Lemma wait_gives_message_or_error_witness :
  (exists m, (@None discoveryMessage, Some EOF) = (Some m, None))
  \/ (exists e, (@None discoveryMessage, Some EOF) = (None, Some e)).
Proof.
  apply (proj1 (wait_gives_message_or_error (run_on OS_ok sync_then_EOF)
                  (reachable_steps sync_then_EOF fresh_world (run_on OS_ok sync_then_EOF)
                     ltac:(vm_compute; reflexivity)
                     (reachable_boot "dummy" ["dummy-discovery"] OS_ok)))
           CaseRecv (None, Some EOF) (run_on OS_ok sync_then_EOF)).
  vm_compute. reflexivity.
Defined.

(** ** Run when HELLO cannot be written *)

Lemma runProcess_runs (w : World) :
  runProcess_error (os w) = None ->
  statusMutex (disc w) = false ->
  exists w1,
    runProcess w = Ret None w1
    /\ os w1 = os w
    /\ eventChan (disc w1) = eventChan (disc w)
    /\ eventChans w1 = eventChans w
    /\ statusMutex (disc w1) = false
    /\ userAgent (disc w1) = userAgent (disc w).
Proof.
  unfold runProcess_error, runProcess, bind, getDisc, NewProcess, StdoutPipe, StdinPipe, ret.
  destruct (NewProcess_err (os w)); [discriminate|]. cbn [os set_procs].
  destruct (StdoutPipe_err (os w)); [discriminate|]. cbn [os set_procs].
  destruct (StdinPipe_err (os w)); [discriminate|].
  unfold modDisc, make_chan_Message, go_jsonDecodeLoop, proc_Start, proc_call, Lock, defer_,
    bind, Unlock, modDisc, ret.
  cbn [os set_procs upd_disc set_msgChans disc msgChans procs eventChans].
  intros -> Hm. cbn. rewrite Hm. eexists. split; [reflexivity|]. repeat split.
Qed.

Lemma Write_loop_os (pipe : nat) (script : list (nat * option error)) :
  forall (data : string) (w : World) (r : option error) (w' : World),
    Write_loop pipe script data w = Ret r w' ->
    Kill_err (os w') = Kill_err (os w) /\ Wait_err (os w') = Wait_err (os w).
Proof.
  induction script as [|[take err] script IH]; intros data w r w'; cbn [Write_loop].
  - intros [= _ <-]. split; reflexivity.
  - destruct err as [e|]; [intros [= _ <-]; split; reflexivity|].
    destruct (_ =? _)%nat; [intros [= _ <-]; split; reflexivity|].
    intros H. apply IH in H. exact H.
Qed.

(** X19.  When the process starts and the write of HELLO fails, and no event
    channel is registered or the registered one can take the "stop" event
    of [killProcess], [Run] returns the error of the [Write] as it is, after
    [killProcess]: the process it has just started received at most the
    first bytes of the line and got the calls [Start], [Kill] and, after a
    [Kill] without error, [Wait]; when both return no error the state is
    [Dead] and no event channel is registered. *)
Theorem Run_kills_when_HELLO_fails (w : World) :
  runProcess_error (os w) = None ->
  statusMutex (disc w) = false ->
  eventChan_ok w ->
  room 1 w ->
  exists r w',
    Run_begin w = Ret r w'
    /\ forall e, r = Some e ->
         (exists k, In (k, Some e) (Write_script (os w)))
         /\ (exists n : nat,
               (n <= String.length (HELLO_line (disc w)))%nat
               /\ procs w' !! length (procs w)
                  = Some {| p_args := processArgs (disc w);
                            p_stdin := str_take n (HELLO_line (disc w));
                            p_calls := (CallStart, None) :: kill_calls (os w);
                            p_decodeLoop := Some (length (msgChans w)) |})
         /\ (kill_result (os w) = None ->
             state (disc w') = Dead /\ eventChan (disc w') = None).
Proof.
  intros He Hm Hok Hr.
  destruct (runProcess_runs w He Hm) as (w1 & R & Hos & Hec & Hecs & Hm1 & Hua).
  destruct (runProcess_started w w1 R) as (Hp & Hpipe & _ & _ & _ & _ & Hps).
  unfold Run_begin. unfold bind at 1. rewrite R. cbn beta iota.
  unfold bind at 1. unfold getDisc at 1. unfold bind at 1.
  destruct (sendCommand_returns
              ("HELLO 1 " ++ dquote ++ "arduino-cli " ++ userAgent (disc w1)
                 ++ dquote ++ newline) w1 _ Hpipe) as (r & w2 & S).
  rewrite S.
  pose proof (sendCommand_disc _ w1 w2 ltac:(rewrite S; reflexivity)) as (Hd & Hev & _).
  destruct r as [e|]; [|eexists _, _; split; [reflexivity|discriminate]].
  assert (Hm2 : statusMutex (disc w2) = false) by (rewrite Hd; exact Hm1).
  assert (Hok2 : eventChan_ok w2).
  { unfold eventChan_ok. rewrite Hd, Hev, Hec, Hecs. exact Hok. }
  assert (Hr2 : room 1 w2).
  { unfold room. rewrite Hd, Hev, Hec, Hecs. exact Hr. }
  assert (Hp2 : process (disc w2) = Some (length (procs w))) by (rewrite Hd; exact Hp).
  rewrite (Run_deferred_kills e w2 _ Hm2 Hok2 Hr2 Hp2).
  eexists _, _. split; [reflexivity|]. intros e' [= <-].
  unfold sendCommand in S. rewrite Hpipe in S.
  destruct (Write_loop_os _ _ _ _ _ _ S) as (K1 & K2).
  assert (Kc : kill_calls (os w2) = kill_calls (os w)).
  { unfold kill_calls. rewrite K1, K2, Hos. reflexivity. }
  assert (Kr : kill_result (os w2) = kill_result (os w)).
  { unfold kill_result. rewrite K1, K2, Hos. reflexivity. }
  apply Write_loop_prefix in S. destruct S as (n & Hn & Hprocs & k & Hk).
  split; [exists k; rewrite <- Hos; exact Hk|]. split.
  - exists n. unfold HELLO_line. rewrite <- Hua. split; [exact Hn|].
    rewrite (killed_world_calls w2 _
               (add_stdin (str_take n ("HELLO 1 " ++ dquote ++ "arduino-cli "
                                         ++ userAgent (disc w1) ++ dquote ++ newline))
                  (started_Process w))).
    + rewrite Kc. reflexivity.
    + rewrite Hprocs, Hps, alter_last. apply list_lookup_middle. reflexivity.
  - intros Hk0. rewrite <- Kr in Hk0. split.
    + apply killed_world_Dead. exact Hk0.
    + unfold killed_world. rewrite Hk0. cbn.
      destruct (flush_frame (set_procs
                  (alter (add_calls (kill_calls (os w2))) (length (procs w)) (procs w2)) w2))
        as (_ & _ & _ & _ & _ & F).
      exact F.
Qed.

Lemma Run_kills_when_HELLO_fails_witness :
  exists w',
    Run_begin (boot client0
                 {| NewProcess_err := None; StdoutPipe_err := None; StdinPipe_err := None;
                    Start_err := None; Kill_err := None; Wait_err := None;
                    Write_script := [(5%nat, None); (0%nat, Some (Foreign "broken pipe"))] |})
    = Ret (Some (Foreign "broken pipe")) w'
    /\ p_calls <$> procs w' !! 0%nat
       = Some [(CallStart, None); (CallKill, None); (CallWait, None)]
    /\ p_stdin <$> procs w' !! 0%nat = Some "HELLO"
    /\ state (disc w') = Dead.
Proof.
  destruct (Run_kills_when_HELLO_fails
              (boot client0
                 {| NewProcess_err := None; StdoutPipe_err := None; StdinPipe_err := None;
                    Start_err := None; Kill_err := None; Wait_err := None;
                    Write_script := [(5%nat, None); (0%nat, Some (Foreign "broken pipe"))] |})
              eq_refl eq_refl) as (r & w' & E & H).
  - intros ch. cbn. discriminate.
  - intros ch c. cbn. discriminate.
  - assert (Er : r = Some (Foreign "broken pipe")).
    { revert E. vm_compute. intros [= <- _]. reflexivity. }
    subst r. exists w'. split; [exact E|].
    revert E. vm_compute. intros [= <-]. repeat split.
Defined.

(** ** Which transition moves the state where *)

Lemma state_moves_refl (S : list State) (w : World) : state_moves S w w.
Proof. left. reflexivity. Qed.

Lemma state_moves_trans (S : list State) (a b c : World) :
  state_moves S a b -> state_moves S b c -> state_moves S a c.
Proof.
  unfold state_moves. intros [H1|H1] [H2|H2]; try (right; assumption).
  - left. congruence.
  - right. rewrite H2. exact H1.
Qed.

Lemma state_moves_disc (S : list State) {A} (c : M A) :
  always disc_eq c -> always (state_moves S) c.
Proof. intros H w w' E. left. rewrite (H w w' E). reflexivity. Qed.

Lemma state_moves_modDisc (S : list State) (f : Client -> Client) :
  (forall c, state (f c) = state c) -> always (state_moves S) (modDisc f).
Proof. intros Hf w w' E. unfold modDisc in E. cbn in E. simplify_eq. left. apply Hf. Qed.

Lemma state_moves_set_state (S : list State) (x : State) :
  In x S -> always (state_moves S) (modDisc (set_state x)).
Proof. intros Hx w w' E. unfold modDisc in E. cbn in E. simplify_eq. right. exact Hx. Qed.

Lemma state_moves_Lock (S : list State) : always (state_moves S) Lock.
Proof.
  intros w w'. unfold Lock. destruct (statusMutex (disc w)); [discriminate|].
  intros [= <-]. left. reflexivity.
Qed.

Ltac disc_left :=
  intros w w';
  unfold getDisc, loop_head, send_Message, close_Message, NewProcess, StdoutPipe, StdinPipe,
    proc_Start, proc_Kill, proc_Wait, proc_call, make_chan_Message, go_jsonDecodeLoop,
    send_Event, close_Event, make_chan_Event, receive_Event, getQuitting, getDelivering,
    goto_Quit, goto_deliver;
  repeat case_match; cbn; intros E; simplify_eq; reflexivity.

Lemma disc_eq_getDisc : always disc_eq getDisc.
Proof. disc_left. Qed.

Lemma disc_eq_sendCommand (cmd : string) : always disc_eq (sendCommand cmd).
Proof. intros w w' H. apply sendCommand_disc in H. tauto. Qed.

Lemma disc_eq_waitMessage (sc : SelectCase) : always disc_eq (waitMessage sc).
Proof.
  intros w w'. destruct sc; unfold waitMessage, bind, getDisc, recv_Message, ret;
    repeat case_match; cbn; intros E; simplify_eq; reflexivity.
Qed.

Lemma disc_eq_loop_head (outChan : nat) : always disc_eq (loop_head outChan).
Proof. disc_left. Qed.

Lemma disc_eq_send_Message (ch : nat) (m : discoveryMessage) :
  always disc_eq (send_Message ch m).
Proof. disc_left. Qed.

Lemma disc_eq_close_Message (ch : nat) : always disc_eq (close_Message ch).
Proof. disc_left. Qed.

Lemma disc_eq_NewProcess (args : list string) : always disc_eq (NewProcess args).
Proof. disc_left. Qed.

Lemma disc_eq_StdoutPipe (proc : nat) : always disc_eq (StdoutPipe proc).
Proof. disc_left. Qed.

Lemma disc_eq_StdinPipe (proc : nat) : always disc_eq (StdinPipe proc).
Proof. disc_left. Qed.

Lemma disc_eq_proc_call (call : ProcessCall) (r : OS -> option error) (proc : nat) :
  always disc_eq (proc_call call r proc).
Proof. disc_left. Qed.

Lemma disc_eq_make_chan_Message : always disc_eq make_chan_Message.
Proof. disc_left. Qed.

Lemma disc_eq_go_jsonDecodeLoop (proc outChan : nat) :
  always disc_eq (go_jsonDecodeLoop proc outChan).
Proof. disc_left. Qed.

Lemma disc_eq_send_Event (ch : nat) (ev : Event) : always disc_eq (send_Event ch ev).
Proof. disc_left. Qed.

Lemma disc_eq_close_Event (ch : nat) : always disc_eq (close_Event ch).
Proof. disc_left. Qed.

Lemma disc_eq_make_chan_Event (size : Z) : always disc_eq (make_chan_Event size).
Proof. disc_left. Qed.

Lemma disc_eq_receive_Event (ch : nat) : always disc_eq (receive_Event ch).
Proof. disc_left. Qed.

Lemma disc_eq_getQuitting : always disc_eq getQuitting.
Proof. disc_left. Qed.

Lemma disc_eq_getDelivering : always disc_eq getDelivering.
Proof. disc_left. Qed.

Lemma disc_eq_goto_Quit (pc : QuitPC) : always disc_eq (goto_Quit pc).
Proof. disc_left. Qed.

Lemma disc_eq_goto_deliver (pc : DeliverPC) : always disc_eq (goto_deliver pc).
Proof. disc_left. Qed.

Create HintDb disc_db.

#[local] Hint Resolve disc_eq_getDisc disc_eq_sendCommand disc_eq_waitMessage
  disc_eq_loop_head disc_eq_send_Message disc_eq_close_Message disc_eq_NewProcess
  disc_eq_StdoutPipe disc_eq_StdinPipe disc_eq_proc_call disc_eq_make_chan_Message
  disc_eq_go_jsonDecodeLoop disc_eq_send_Event disc_eq_close_Event
  disc_eq_make_chan_Event disc_eq_receive_Event disc_eq_getQuitting disc_eq_getDelivering
  disc_eq_goto_Quit disc_eq_goto_deliver : disc_db.
#[local] Hint Extern 1 (always disc_eq (proc_Start _)) => apply disc_eq_proc_call : disc_db.
#[local] Hint Extern 1 (always disc_eq (proc_Kill _)) => apply disc_eq_proc_call : disc_db.
#[local] Hint Extern 1 (always disc_eq (proc_Wait _)) => apply disc_eq_proc_call : disc_db.

Ltac state_walk :=
  repeat (intros;
          lazymatch goal with
          | |- always (state_moves ?S) (bind _ _) =>
              apply (always_bind _ (state_moves_trans S))
          | |- always (state_moves ?S) (ret _) => apply (always_ret _ (state_moves_refl S))
          | |- always (state_moves ?S) (panic _) =>
              apply (always_panic _ (state_moves_refl S))
          | |- always (state_moves ?S) blocked => apply always_blocked
          | |- always (state_moves ?S) (defer_ _ _) =>
              apply (always_defer _ (state_moves_refl S) (state_moves_trans S))
          | |- always (state_moves ?S) (on_panic _ _) =>
              apply (always_on_panic _ (state_moves_refl S) (state_moves_trans S))
          | |- always _ (match ?x with _ => _ end) => destruct x
          | |- always _ Lock => apply state_moves_Lock
          | |- always _ Unlock => apply state_moves_modDisc; intros ?; reflexivity
          | |- always _ (modDisc (set_state _)) =>
              apply state_moves_set_state; cbn; tauto
          | |- always _ (modDisc _) => apply state_moves_modDisc; intros ?; reflexivity
          | |- always _ _ => apply state_moves_disc; solve [auto with disc_db]
          end).

(** X20.  The state machine as the client has it.  The state is set to [Alive]
    only by the first half of [Run], to [Idling] only by the second half of
    [Run] or of [Stop], to [Running] only by the second half of [Start], to
    [Syncing] only by the second half of [StartSync], and to [Dead] only by
    [Run], by the [killProcess] of [Quit] or by the decode loop.  No other
    transition changes the state: not [List], [State] or [SetUserAgent], not
    the first half of any command but [Run], not the statements of
    [stopSync] in [Quit], not the critical section of the loop taken apart
    and not the consumer. *)
Theorem state_changes_only_by (s : Step) (w w' : World) :
  world_of (step s w) = Some w' ->
  state (disc w') = state (disc w) \/ In (state (disc w')) (targets s).
Proof.
  revert w w'. change (always (state_moves (targets s)) (step s)).
  destruct s; unfold step, SetUserAgent, State_, Run_begin, Run_end, Run_deferred,
    Start_begin, Start_end, Stop_begin, Stop_end, List_begin, List_end,
    StartSync_begin, StartSync_end, Quit_begin, Quit_wait, Quit_kill, stopSync_check,
    stopSync_send, stopSync_close, stopSync_nil, jsonDecodeLoop_iter, jsonDecodeLoop_check,
    deliver_check, deliver_eval, deliver_send, at_Quit, at_head,
    closeAndReportError, deliver, killProcess, stopSync, runProcess, targets.
  all: state_walk.
Qed.

Lemma state_changes_only_by_witness :
  state (disc (run_on OS_ok (handshake ++ [StartBegin; Loop 0%nat (reply "start" 0);
                                           StartEnd CaseRecv])%list))
  = state (disc (run_on OS_ok (handshake ++ [StartBegin; Loop 0%nat (reply "start" 0)])%list))
  \/ In (state (disc (run_on OS_ok (handshake ++ [StartBegin; Loop 0%nat (reply "start" 0);
                                                  StartEnd CaseRecv])%list)))
        [Running].
Proof.
  apply (state_changes_only_by (StartEnd CaseRecv)
           (run_on OS_ok (handshake ++ [StartBegin; Loop 0%nat (reply "start" 0)])%list)).
  vm_compute. reflexivity.
Defined.

(** ** The events are well formed *)

Lemma keeps_events_ok_refl (w : World) : keeps_events_ok w w.
Proof. intros H. exact H. Qed.

Lemma keeps_events_ok_trans (a b c : World) :
  keeps_events_ok a b -> keeps_events_ok b c -> keeps_events_ok a c.
Proof. unfold keeps_events_ok. auto. Qed.

Lemma keeps_events_ok_frame (w w' : World) : ev_eq w w' -> keeps_events_ok w w'.
Proof.
  intros (_ & E2 & E3 & _). unfold keeps_events_ok, events_ok. rewrite E2, E3. auto.
Qed.

Lemma events_ok_insert (w w' : World) (ch : nat) (c c' : EventChan) (evs : list Event) :
  events_ok w ->
  eventChans w !! ch = Some c ->
  Forall (Event_ok (disc_id (disc w))) evs ->
  disc_id (disc w') = disc_id (disc w) ->
  sent c' = (sent c ++ evs)%list ->
  eventChans w' = <[ch := c']> (eventChans w) ->
  events_ok w'.
Proof.
  intros Hw Hc Hevs Hid Hs He ch0 c0. rewrite He, Hid.
  destruct (decide (ch = ch0)) as [<-|Hne].
  - rewrite list_lookup_insert_eq by (eapply lookup_lt_Some; exact Hc).
    intros [= <-]. rewrite Hs. apply Forall_app. split; [apply (Hw ch c Hc)|exact Hevs].
  - rewrite list_lookup_insert_ne by exact Hne. apply Hw.
Qed.

Lemma events_ok_same (w w' : World) :
  events_ok w -> disc_id (disc w') = disc_id (disc w) -> eventChans w' = eventChans w ->
  events_ok w'.
Proof. intros Hw Hid He. unfold events_ok. rewrite Hid, He. exact Hw. Qed.

(** A send keeps the events well formed when what is sent is. *)
Lemma events_ok_send_Event (ch : nat) (ev : Event) (w w' : World) :
  Event_ok (disc_id (disc w)) ev ->
  world_of (send_Event ch ev w) = Some w' -> events_ok w -> events_ok w'.
Proof.
  intros Hev. unfold send_Event.
  destruct (eventChans w !! ch) as [c|] eqn:Hc; [|intros [= <-] Hw; exact Hw].
  destruct (closed c); [intros [= <-] Hw; exact Hw|].
  destruct (has_room c); [|discriminate].
  intros [= <-] Hw.
  apply (events_ok_insert w _ ch c
           {| cap := cap c; sent := sent c ++ [ev]; wanted := wanted c; closed := false |}
           [ev] Hw Hc); try reflexivity.
  constructor; [exact Hev|constructor].
Qed.

Lemma events_ok_close_Event (ch : nat) : always keeps_events_ok (close_Event ch).
Proof.
  intros w w'. unfold close_Event.
  destruct (eventChans w !! ch) as [c|] eqn:Hc; [|intros [= <-] Hw; exact Hw].
  destruct (closed c); intros [= <-] Hw; [exact Hw|].
  apply (events_ok_insert w _ ch c
           {| cap := cap c; sent := sent c; wanted := wanted c; closed := true |}
           [] Hw Hc); try reflexivity.
  - constructor.
  - cbn. rewrite app_nil_r. reflexivity.
Qed.

Lemma events_ok_receive_Event (ch : nat) : always keeps_events_ok (receive_Event ch).
Proof.
  intros w w'. unfold receive_Event.
  destruct (eventChans w !! ch) as [c|] eqn:Hc; [|discriminate].
  intros [= <-] Hw.
  apply (events_ok_insert w _ ch c
           {| cap := cap c; sent := sent c; wanted := S (wanted c); closed := closed c |}
           [] Hw Hc); try reflexivity.
  - constructor.
  - cbn. rewrite app_nil_r. reflexivity.
Qed.

Lemma events_ok_stopSync_send : always keeps_events_ok stopSync_send.
Proof.
  intros w w'. unfold stopSync_send, bind, getDisc, GetID.
  destruct (eventChan (disc w)) as [ch|]; [|discriminate].
  intros H Hw. eapply events_ok_send_Event; [|exact H|exact Hw].
  split; [reflexivity|]. left. split; reflexivity.
Qed.

Lemma events_ok_modDisc (f : Client -> Client) :
  (forall c, disc_id (f c) = disc_id c) -> always keeps_events_ok (modDisc f).
Proof.
  intros Hf w w' E Hw. unfold modDisc in E. cbn in E. simplify_eq.
  apply (events_ok_same w); [exact Hw|apply Hf|reflexivity].
Qed.

Lemma events_ok_stopSync : always keeps_events_ok stopSync.
Proof.
  intros w w'. unfold stopSync, bind, getDisc, GetID.
  destruct (eventChan (disc w)) as [ch|]; [|unfold ret; intros [= <-] Hw; exact Hw].
  destruct (send_Event ch _ w) as [[] w1|why w1|] eqn:S; [| |discriminate].
  - intros H Hw.
    assert (H1 : events_ok w1).
    { eapply events_ok_send_Event; [|rewrite S; reflexivity|exact Hw].
      split; [reflexivity|]. left. split; reflexivity. }
    destruct (close_Event ch w1) as [[] w2|why w2|] eqn:C; [| |discriminate].
    + assert (H2 : events_ok w2).
      { apply (events_ok_close_Event ch w1 w2); [rewrite C; reflexivity|exact H1]. }
      revert H. unfold modDisc. intros [= <-].
      apply (events_ok_same w2); [exact H2|reflexivity|reflexivity].
    + injection H as <-.
      apply (events_ok_close_Event ch w1 w2); [rewrite C; reflexivity|exact H1].
  - intros [= <-] Hw.
    eapply events_ok_send_Event; [|rewrite S; reflexivity|exact Hw].
    split; [reflexivity|]. left. split; reflexivity.
Qed.

Lemma events_ok_deliver (type : string) (p : Port) :
  type = "add" \/ type = "remove" -> always keeps_events_ok (deliver type (Some p)).
Proof.
  intros Ht w w' H Hw. revert H.
  unfold deliver, bind, Lock, getDisc, GetID.
  destruct (statusMutex (disc w)); [intros H; discriminate H|].
  cbn [disc upd_disc eventChan set_statusMutex].
  destruct (eventChan (disc w)) as [ch|].
  2:{ unfold ret, Unlock, modDisc. cbn. intros E. simplify_eq.
      apply (events_ok_same w); [exact Hw|reflexivity|reflexivity]. }
  destruct (send_Event ch _ _) as [[] w1|why w1|] eqn:S; [| |discriminate].
  - unfold Unlock, modDisc. cbn. intros E. simplify_eq.
    assert (H1 : events_ok w1).
    { eapply events_ok_send_Event;
        [|rewrite S; reflexivity
         |apply (events_ok_same w); [exact Hw|reflexivity|reflexivity]].
      split; [reflexivity|]. right. cbn. split; [exact Ht|discriminate]. }
    apply (events_ok_same w1); [exact H1|reflexivity|reflexivity].
  - cbn. intros E. simplify_eq.
    eapply events_ok_send_Event;
      [|rewrite S; reflexivity
       |apply (events_ok_same w); [exact Hw|reflexivity|reflexivity]].
    split; [reflexivity|]. right. cbn. split; [exact Ht|discriminate].
Qed.

Lemma events_ok_make_chan_Event (size : Z) : always keeps_events_ok (make_chan_Event size).
Proof.
  intros w w'. unfold make_chan_Event. destruct (size <? 0)%Z; intros [= <-] Hw; [exact Hw|].
  intros ch c. cbn. intros Hc.
  destruct (decide (ch < length (eventChans w))%nat) as [Hlt|Hge].
  - rewrite lookup_app_l in Hc by exact Hlt. apply (Hw ch c Hc).
  - rewrite lookup_app_r in Hc by lia.
    destruct (ch - length (eventChans w))%nat; cbn in Hc; [|discriminate].
    injection Hc as <-. constructor.
Qed.

Lemma events_ok_goto_deliver (pc : DeliverPC) : always keeps_events_ok (goto_deliver pc).
Proof. intros w w' [= <-] Hw. exact Hw. Qed.

(** The send of the critical section, when what the loop is about to send
    is well formed. *)
Lemma events_ok_deliver_send (w w' : World) :
  world_of (deliver_send w) = Some w' ->
  pending_ok w -> events_ok w -> events_ok w'.
Proof.
  unfold deliver_send, pending_ok, bind, getDelivering.
  destruct (delivering w) as [|o t p|o [ch|] ev]; try discriminate.
  intros H (Hid & Ht & Hp) Hw.
  assert (Hev : Event_ok (disc_id (disc w)) ev).
  { split; [exact Hid|]. right. split; assumption. }
  destruct (send_Event ch ev w) as [[] w1|why w1|] eqn:S; [| |discriminate].
  - assert (H1 : events_ok w1).
    { apply (events_ok_send_Event ch ev w w1 Hev); [rewrite S; reflexivity|exact Hw]. }
    revert H. unfold Unlock, modDisc, goto_deliver. intros [= <-].
    apply (events_ok_same w1); [exact H1|reflexivity|reflexivity].
  - injection H as <-.
    apply (events_ok_send_Event ch ev w w1 Hev); [rewrite S; reflexivity|exact Hw].
Qed.

#[local] Hint Resolve events_ok_stopSync events_ok_make_chan_Event events_ok_close_Event
  events_ok_receive_Event events_ok_stopSync_send events_ok_goto_deliver : always_db.
#[local] Hint Extern 1 (always keeps_events_ok (deliver _ (Some _))) =>
  (apply events_ok_deliver; first [left; reflexivity | right; reflexivity]) : always_db.
#[local] Hint Extern 1 (always keeps_events_ok (modDisc _)) =>
  (apply events_ok_modDisc; intros ?; reflexivity) : always_db.

Lemma step_events_ok (s : Step) : s <> LoopSend -> always keeps_events_ok (step s).
Proof.
  destruct s; intros N; try contradiction;
    unfold step, SetUserAgent, State_, Run_begin, Run_end, Run_deferred,
    Start_begin, Start_end, Stop_begin, Stop_end, List_begin, List_end,
    StartSync_begin, StartSync_end, Quit_begin, Quit_wait, Quit_kill, stopSync_check,
    stopSync_close, stopSync_nil, jsonDecodeLoop_iter, jsonDecodeLoop_check,
    deliver_check, deliver_eval, at_Quit, at_head,
    closeAndReportError, killProcess, runProcess;
    walk keeps_events_ok_refl keeps_events_ok_trans keeps_events_ok_frame.
Qed.

Lemma reachable_events_ok (w : World) : reachable w -> events_ok w /\ pending_ok w.
Proof.
  induction 1 as [id args o|s w w' _ IH Hs|o w _ IH].
  - split; [|exact I]. intros ch c H. cbn in H. rewrite lookup_nil in H. discriminate.
  - destruct IH as (IH1 & IH2). split; [|exact (step_keeps_pending s w w' Hs IH2)].
    assert (D : s = LoopSend \/ s <> LoopSend)
      by (destruct s; first [left; reflexivity | right; discriminate]).
    destruct D as [->|N].
    + exact (events_ok_deliver_send w w' Hs IH2 IH1).
    + exact (step_events_ok s N w w' Hs IH1).
  - exact IH.
Qed.

(** X21.  In every world the client can get into, every event that was sent on
    an event channel has the identifier of the client, and it is a "stop"
    event without port or an "add" or "remove" event with a port: the
    decode loop hands on no event without port, and the client adds to the
    events of the subprocess none but its own "stop". *)
Theorem events_well_formed (w : World) (ch : nat) (c : EventChan) :
  reachable w ->
  eventChans w !! ch = Some c ->
  Forall (Event_ok (disc_id (disc w))) (sent c).
Proof. intros Hr. exact (proj1 (reachable_events_ok w Hr) ch c). Qed.

Lemma events_well_formed_witness :
  Forall (Event_ok "dummy")
    [ {| e_Type := "add"; e_Port := Some (aPort "1"); e_DiscoveryID := "dummy" |};
      {| e_Type := "add"; e_Port := Some (aPort "2"); e_DiscoveryID := "dummy" |};
      {| e_Type := "remove"; e_Port := Some (aPort "1"); e_DiscoveryID := "dummy" |};
      {| e_Type := "stop"; e_Port := None; e_DiscoveryID := "dummy" |} ].
Proof.
  apply (events_well_formed (run_on OS_ok scenario) 0%nat
           {| cap := 10;
              sent := [ {| e_Type := "add"; e_Port := Some (aPort "1");
                           e_DiscoveryID := "dummy" |};
                        {| e_Type := "add"; e_Port := Some (aPort "2");
                           e_DiscoveryID := "dummy" |};
                        {| e_Type := "remove"; e_Port := Some (aPort "1");
                           e_DiscoveryID := "dummy" |};
                        {| e_Type := "stop"; e_Port := None; e_DiscoveryID := "dummy" |} ];
              wanted := 0;
              closed := true |}).
  - apply (reachable_steps scenario fresh_world).
    + vm_compute. reflexivity.
    + apply reachable_boot.
  - vm_compute. reflexivity.
Defined.

(** ** A reply that comes late *)

Lemma iter_reply (w : World) (outChan : nat) (m : discoveryMessage) :
  msgChans w !! outChan = Some MEmpty ->
  ~ is_port_event m ->
  jsonDecodeLoop_iter outChan (Value m) w
  = Ret Continue (set_msgChans (<[outChan := MOffer m]> (msgChans w)) w).
Proof.
  intros He Hno.
  assert (E1 : (m_EventType m =? "add") = false).
  { apply String.eqb_neq. intros E. apply Hno. left. exact E. }
  assert (E2 : (m_EventType m =? "remove") = false).
  { apply String.eqb_neq. intros E. apply Hno. right. exact E. }
  unfold jsonDecodeLoop_iter, bind, loop_head. rewrite He, E1, E2.
  unfold send_Message. rewrite He. reflexivity.
Qed.

(** X22.  Replies are matched with commands by their order alone.  A reply that
    arrives while no command waits, such as the reply to a command that has
    timed out, stays on offer, and the next command takes it for its own:
    [Start] then fails with "event out of sync" when the reply is of another
    type, leaves the [Client] as it was, and leaves the channel empty for
    its own reply, which the command after it will take. *)
Theorem late_reply_goes_to_next_command (w : World) (outChan pipe : nat)
    (m : discoveryMessage) :
  incomingMessagesChan (disc w) = Some outChan ->
  msgChans w !! outChan = Some MEmpty ->
  outgoingCommandsPipe (disc w) = Some pipe ->
  ~ is_port_event m ->
  m_EventType m <> "start" ->
  exists w1 r w2,
    jsonDecodeLoop_iter outChan (Value m) w = Ret Continue w1
    /\ offers w1 m
    /\ Start_begin w1 = Ret r w2
    /\ (r = None ->
        exists w3,
          Start_end CaseRecv w2
          = Ret (Some (ErrorsNew ("event out of sync, expected 'start', received '"
                                    ++ m_EventType m ++ "'"))) w3
          /\ disc w3 = disc w
          /\ msgChans w3 = msgChans w).
Proof.
  intros Hc He Hp Hno Ht.
  pose proof (lookup_lt_Some _ _ _ He) as Hlt.
  rewrite (iter_reply w outChan m He Hno).
  set (w1 := set_msgChans _ w).
  assert (Hoff1 : offers w1 m).
  { exists outChan. split; [exact Hc|]. cbn. apply list_lookup_insert_eq. exact Hlt. }
  destruct (sendCommand_returns ("START" ++ newline) w1 pipe Hp) as (r & w2 & S).
  exists w1, r, w2. split; [reflexivity|]. split; [exact Hoff1|].
  split; [exact S|]. intros ->.
  pose proof (sendCommand_disc _ w1 w2 ltac:(rewrite S; reflexivity)) as (Hd & _ & Hm & _).
  assert (Hoff2 : offers w2 m).
  { exists outChan. rewrite Hd, Hm. split; [exact Hc|].
    cbn. apply list_lookup_insert_eq. exact Hlt. }
  unfold Start_end, bind. rewrite (waitMessage_recv w2 m Hoff2). cbn beta iota.
  apply String.eqb_neq in Ht. rewrite Ht. cbn [negb].
  eexists. split; [reflexivity|].
  destruct (taken_frame w2) as (Hd2 & _). split; [rewrite Hd2; exact Hd|].
  unfold taken. rewrite Hd. cbn [disc w1 set_msgChans]. rewrite Hc. cbn.
  rewrite Hm. cbn. apply insert_back. exact He.
Qed.

Lemma late_reply_goes_to_next_command_witness :
  exists w1 r w2,
    jsonDecodeLoop_iter 0%nat (Value list_reply) idle_world = Ret Continue w1
    /\ offers w1 list_reply
    /\ Start_begin w1 = Ret r w2
    /\ (r = None ->
        exists w3,
          Start_end CaseRecv w2
          = Ret (Some (ErrorsNew "event out of sync, expected 'start', received 'list'")) w3
          /\ disc w3 = disc idle_world
          /\ msgChans w3 = msgChans idle_world).
Proof.
  apply (late_reply_goes_to_next_command idle_world 0%nat 0%nat list_reply).
  - vm_compute. reflexivity.
  - vm_compute. reflexivity.
  - vm_compute. reflexivity.
  - intros [H|H]; vm_compute in H; discriminate H.
  - vm_compute. discriminate.
Defined.

(** ** Run on a client that runs a process *)

Section OutOfReach.

Variable i : nat.
Variable p : Process.

Lemma keeps_out_of_reach_refl (w : World) : keeps_out_of_reach i p w w.
Proof. intros H. exact H. Qed.

Lemma keeps_out_of_reach_trans (a b c : World) :
  keeps_out_of_reach i p a b -> keeps_out_of_reach i p b c -> keeps_out_of_reach i p a c.
Proof. unfold keeps_out_of_reach. auto. Qed.

Lemma keeps_out_of_reach_frame {A} (c : M A) :
  always proc_eq c -> always (keeps_out_of_reach i p) c.
Proof.
  intros H w w' E. destruct (H w w' E) as (E1 & E2 & E3).
  unfold keeps_out_of_reach, out_of_reach. rewrite E1, E2, E3. auto.
Qed.

Lemma out_of_reach_alter (f : Process -> Process) (j : nat) (w w' : World) :
  out_of_reach i p w ->
  process (disc w) = Some j \/ outgoingCommandsPipe (disc w) = Some j
  \/ (length (procs w) <= j)%nat ->
  procs w' = alter f j (procs w) ->
  disc w' = disc w ->
  out_of_reach i p w'.
Proof.
  intros (H1 & H2 & H3) Hj Hp Hd. unfold out_of_reach. rewrite Hp, Hd.
  split; [|split; assumption].
  rewrite list_lookup_alter_ne; [exact H1|].
  intros <-. destruct Hj as [Hj|[Hj|Hj]]; try congruence.
  apply lookup_lt_Some in H1. lia.
Qed.

Lemma out_of_reach_sendCommand (cmd : string) :
  always (keeps_out_of_reach i p) (sendCommand cmd).
Proof.
  intros w w' H Hw. pose proof (sendCommand_disc cmd w w' H) as (Hd & _).
  unfold sendCommand in H.
  destruct (outgoingCommandsPipe (disc w)) as [pipe|] eqn:Hp.
  2:{ cbn in H. simplify_eq. exact Hw. }
  assert (G : forall script data w0 w1,
             world_of (Write_loop pipe script data w0) = Some w1 ->
             exists s, procs w1 = alter (add_stdin s) pipe (procs w0)).
  { induction script as [|[take err] script IH]; intros data w0 w1; cbn [Write_loop].
    - cbn. intros [= <-]. eexists. reflexivity.
    - destruct err as [e|].
      + cbn. intros [= <-]. eexists. reflexivity.
      + destruct (_ =? _)%nat.
        * cbn. intros [= <-]. eexists. reflexivity.
        * intros H0. apply IH in H0. destruct H0 as (s & H0). cbn in H0.
          rewrite add_stdin_twice in H0. eexists. exact H0. }
  destruct (G _ _ _ _ H) as (s & Hs).
  apply (out_of_reach_alter (add_stdin s) pipe w w' Hw); auto.
Qed.

Lemma out_of_reach_killProcess : always (keeps_out_of_reach i p) killProcess.
Proof.
  intros w w' H Hw.
  assert (T : forall w0 w1, out_of_reach i p w0 ->
                world_of ((Lock ;; defer_ Unlock (stopSync ;; modDisc (set_state Dead) ;;
                                                  ret (@None error))) w0) = Some w1 ->
                out_of_reach i p w1).
  { clear. intros w0 w1 H0 H1. revert H0.
    refine (keeps_out_of_reach_frame _ _ w0 w1 H1).
    clear. intros w w'.
    unfold bind, Lock, defer_, stopSync, getDisc, send_Event, close_Event, modDisc, Unlock,
      modDisc, bind, ret.
    repeat case_match; cbn; intros E; simplify_eq; repeat split. }
  unfold killProcess in H. unfold bind at 1 in H. unfold getDisc at 1 in H.
  cbn beta iota in H. unfold bind at 1 in H.
  destruct (process (disc w)) as [proc|] eqn:Hproc.
  - set (wk := set_procs (alter (add_call CallKill (Kill_err (os w))) proc (procs w)) w).
    set (ww := set_procs (alter (add_call CallWait (Wait_err (os w))) proc (procs wk)) wk).
    assert (Hk : out_of_reach i p wk).
    { apply (out_of_reach_alter (add_call CallKill (Kill_err (os w))) proc w wk Hw); auto. }
    assert (Hk2 : out_of_reach i p ww).
    { apply (out_of_reach_alter (add_call CallWait (Wait_err (os w))) proc wk ww Hk); auto. }
    assert (E1 : proc_Kill proc w = Ret (Kill_err (os w)) wk) by reflexivity.
    assert (E2 : proc_Wait proc wk = Ret (Wait_err (os w)) ww) by reflexivity.
    unfold bind at 1 in H. rewrite E1 in H.
    destruct (Kill_err (os w)) as [e|].
    + cbn in H. simplify_eq. exact Hk.
    + cbn beta iota in H. rewrite E2 in H.
      destruct (Wait_err (os w)) as [e|].
      * cbn in H. simplify_eq. exact Hk2.
      * apply (T ww w' Hk2 H).
  - apply (T w w' Hw H).
Qed.

Lemma out_of_reach_runProcess : always (keeps_out_of_reach i p) runProcess.
Proof.
  intros w w' H Hw. revert H. pose proof Hw as (H1 & H2 & H3).
  pose proof (lookup_lt_Some _ _ _ H1) as Hlt.
  assert (N : forall x, (procs w ++ [x])%list !! i = Some p).
  { intros x. apply lookup_app_l_Some. exact H1. }
  assert (Hne : length (procs w) <> i) by lia.
  unfold runProcess, bind, getDisc, NewProcess, StdoutPipe, StdinPipe, ret.
  destruct (NewProcess_err (os w)); [cbn; intros E; simplify_eq; exact Hw|].
  cbn [os set_procs]. destruct (StdoutPipe_err (os w)); cbn beta iota.
  { cbn. intros E. simplify_eq. split; [apply N|split; assumption]. }
  cbn [os set_procs]. destruct (StdinPipe_err (os w)); cbn beta iota.
  { cbn. intros E. simplify_eq. split; [apply N|split; assumption]. }
  unfold modDisc, make_chan_Message, go_jsonDecodeLoop, proc_Start, proc_call, Lock, defer_,
    bind, Unlock, modDisc, ret.
  cbn [os set_procs upd_disc set_msgChans disc msgChans procs eventChans].
  rewrite list_alter_alter_eq, alter_last.
  destruct (Start_err (os w)); cbn beta iota.
  { cbn. intros E. simplify_eq. split; [apply N|]. split; [exact H2|]. cbn. congruence. }
  cbn. destruct (statusMutex (disc w)); cbn; intros E; simplify_eq.
  split; [apply N|]. cbn. split; congruence.
Qed.

End OutOfReach.

Ltac proc_left :=
  intros w w';
  unfold getDisc, Lock, Unlock, modDisc, loop_head, send_Message, close_Message,
    make_chan_Message, send_Event, close_Event, make_chan_Event, receive_Event,
    getQuitting, getDelivering, goto_Quit, goto_deliver;
  repeat case_match; cbn; intros E; simplify_eq; repeat split.

Lemma proc_eq_getDisc : always proc_eq getDisc.
Proof. proc_left. Qed.

Lemma proc_eq_Lock : always proc_eq Lock.
Proof. proc_left. Qed.

Lemma proc_eq_Unlock : always proc_eq Unlock.
Proof. proc_left. Qed.

Lemma proc_eq_modDisc (f : Client -> Client) :
  (forall c, process (f c) = process c
             /\ outgoingCommandsPipe (f c) = outgoingCommandsPipe c) ->
  always proc_eq (modDisc f).
Proof.
  intros Hf w w' E. unfold modDisc in E. cbn in E. simplify_eq.
  destruct (Hf (disc w)) as (E1 & E2). repeat split; assumption.
Qed.

Lemma proc_eq_waitMessage (sc : SelectCase) : always proc_eq (waitMessage sc).
Proof.
  intros w w'. destruct sc; unfold waitMessage, bind, getDisc, recv_Message, ret;
    repeat case_match; cbn; intros E; simplify_eq; repeat split.
Qed.

Lemma proc_eq_loop_head (outChan : nat) : always proc_eq (loop_head outChan).
Proof. proc_left. Qed.

Lemma proc_eq_send_Message (ch : nat) (m : discoveryMessage) :
  always proc_eq (send_Message ch m).
Proof. proc_left. Qed.

Lemma proc_eq_close_Message (ch : nat) : always proc_eq (close_Message ch).
Proof. proc_left. Qed.

Lemma proc_eq_send_Event (ch : nat) (ev : Event) : always proc_eq (send_Event ch ev).
Proof. proc_left. Qed.

Lemma proc_eq_close_Event (ch : nat) : always proc_eq (close_Event ch).
Proof. proc_left. Qed.

Lemma proc_eq_make_chan_Event (size : Z) : always proc_eq (make_chan_Event size).
Proof. proc_left. Qed.

Lemma proc_eq_receive_Event (ch : nat) : always proc_eq (receive_Event ch).
Proof. proc_left. Qed.

Lemma proc_eq_getQuitting : always proc_eq getQuitting.
Proof. proc_left. Qed.

Lemma proc_eq_getDelivering : always proc_eq getDelivering.
Proof. proc_left. Qed.

Lemma proc_eq_goto_Quit (pc : QuitPC) : always proc_eq (goto_Quit pc).
Proof. proc_left. Qed.

Lemma proc_eq_goto_deliver (pc : DeliverPC) : always proc_eq (goto_deliver pc).
Proof. proc_left. Qed.

Create HintDb proc_db.

#[local] Hint Resolve proc_eq_getDisc proc_eq_Lock proc_eq_Unlock proc_eq_waitMessage
  proc_eq_loop_head proc_eq_send_Message proc_eq_close_Message proc_eq_send_Event
  proc_eq_close_Event proc_eq_make_chan_Event proc_eq_receive_Event proc_eq_getQuitting
  proc_eq_getDelivering proc_eq_goto_Quit proc_eq_goto_deliver : proc_db.
#[local] Hint Extern 1 (always proc_eq (modDisc _)) =>
  (apply proc_eq_modDisc; intros ?; split; reflexivity) : proc_db.

Ltac reach_walk :=
  repeat (intros;
          lazymatch goal with
          | |- always (keeps_out_of_reach ?i ?p) (bind _ _) =>
              apply (always_bind _ (keeps_out_of_reach_trans i p))
          | |- always (keeps_out_of_reach ?i ?p) (ret _) =>
              apply (always_ret _ (keeps_out_of_reach_refl i p))
          | |- always (keeps_out_of_reach ?i ?p) (panic _) =>
              apply (always_panic _ (keeps_out_of_reach_refl i p))
          | |- always (keeps_out_of_reach ?i ?p) blocked => apply always_blocked
          | |- always (keeps_out_of_reach ?i ?p) (defer_ _ _) =>
              apply (always_defer _ (keeps_out_of_reach_refl i p)
                       (keeps_out_of_reach_trans i p))
          | |- always (keeps_out_of_reach ?i ?p) (on_panic _ _) =>
              apply (always_on_panic _ (keeps_out_of_reach_refl i p)
                       (keeps_out_of_reach_trans i p))
          | |- always _ (match ?x with _ => _ end) => destruct x
          | |- always _ (sendCommand _) => apply out_of_reach_sendCommand
          | |- always _ killProcess => apply out_of_reach_killProcess
          | |- always _ runProcess => apply out_of_reach_runProcess
          | |- always _ _ => apply keeps_out_of_reach_frame; solve [auto with proc_db]
          end).

Lemma step_out_of_reach (i : nat) (p : Process) (s : Step) :
  always (keeps_out_of_reach i p) (step s).
Proof.
  destruct s; unfold step, SetUserAgent, State_, Run_begin, Run_end, Run_deferred,
    Start_begin, Start_end, Stop_begin, Stop_end, List_begin, List_end,
    StartSync_begin, StartSync_end, Quit_begin, Quit_wait, Quit_kill, stopSync_check,
    stopSync_send, stopSync_close, stopSync_nil, jsonDecodeLoop_iter,
    jsonDecodeLoop_check, deliver_check, deliver_eval, deliver_send, at_Quit, at_head,
    closeAndReportError, deliver, stopSync.
  all: reach_walk.
Qed.

(** X23.  [Run] on a client that runs a process does not end that process.  When
    this [Run] gets as far as waiting for the reply to HELLO, the client has
    the handle and the pipe of the new process only, and whatever it does
    from then on, the earlier process gets no byte on its standard input
    and no call: it is never killed and never waited for. *)
Theorem Run_again_leaves_process_running (w w1 : World) (old : nat) (p : Process) :
  process (disc w) = Some old ->
  procs w !! old = Some p ->
  Run_begin w = Ret None w1 ->
  process (disc w1) = Some (length (procs w))
  /\ outgoingCommandsPipe (disc w1) = Some (length (procs w))
  /\ length (procs w) <> old
  /\ forall l w2, steps l w1 = Ret tt w2 -> procs w2 !! old = Some p.
Proof.
  intros Hold Hp HR.
  pose proof (lookup_lt_Some _ _ _ Hp) as Hlt.
  assert (R : exists w0, runProcess w = Ret None w0
                         /\ sendCommand (HELLO_line (disc w0)) w0 = Ret None w1).
  { revert HR. unfold Run_begin. unfold bind at 1.
    destruct (runProcess w) as [[e|] w0| |]; try discriminate.
    unfold bind, getDisc. unfold HELLO_line.
    destruct (sendCommand _ w0) as [[e|] w2| |] eqn:S0; try discriminate;
      unfold Run_deferred, bind, ret.
    - destruct (killProcess w2); intros E; discriminate E.
    - intros E. simplify_eq. exists w0. split; [reflexivity|exact S0]. }
  destruct R as (w0 & R & S).
  destruct (runProcess_started w w0 R) as (H1 & H2 & _ & _ & _ & _ & H3).
  pose proof (sendCommand_disc _ w0 w1 ltac:(rewrite S; reflexivity)) as (Hd & _).
  assert (O0 : out_of_reach old p w0).
  { split; [rewrite H3; apply lookup_app_l_Some; exact Hp|].
    rewrite H1, H2. split; intros [= E]; lia. }
  assert (O1 : out_of_reach old p w1).
  { apply (out_of_reach_sendCommand old p (HELLO_line (disc w0)) w0 w1);
      [rewrite S; reflexivity|exact O0]. }
  rewrite Hd, H1, H2. repeat split; [lia|].
  assert (G : forall l wa wb, out_of_reach old p wa -> steps l wa = Ret tt wb ->
                              procs wb !! old = Some p).
  { clear. induction l as [|s l IH]; intros wa wb Oa.
    - intros [= <-]. apply Oa.
    - cbn [steps]. unfold bind at 1.
      destruct (step s wa) as [[] wc| |] eqn:E; try discriminate.
      intros H. apply (IH wc wb); [|exact H].
      apply (step_out_of_reach old p s wa wc); [rewrite E; reflexivity|exact Oa]. }
  intros l w2. apply G. exact O1.
Qed.

Lemma Run_again_leaves_process_running_witness :
  exists w1 w2,
    Run_begin idle_world = Ret None w1
    /\ steps (QuitBegin :: Quit_rest CaseAfter false) w1 = Ret tt w2
    /\ procs w2 !! 0%nat = Some (proc0 idle_world)
    /\ p_calls (proc0 idle_world) = [(CallStart, None)].
Proof.
  exists (world_or idle_world (Run_begin idle_world)).
  exists (world_or idle_world
            (steps (QuitBegin :: Quit_rest CaseAfter false)
               (world_or idle_world (Run_begin idle_world)))).
  assert (E1 : Run_begin idle_world = Ret None (world_or idle_world (Run_begin idle_world)))
    by (vm_compute; reflexivity).
  assert (E2 : steps (QuitBegin :: Quit_rest CaseAfter false)
                 (world_or idle_world (Run_begin idle_world))
               = Ret tt (world_or idle_world
                           (steps (QuitBegin :: Quit_rest CaseAfter false)
                              (world_or idle_world (Run_begin idle_world)))))
    by (vm_compute; reflexivity).
  split; [exact E1|]. split; [exact E2|]. split; [|vm_compute; reflexivity].
  destruct (Run_again_leaves_process_running idle_world
              (world_or idle_world (Run_begin idle_world)) 0%nat (proc0 idle_world))
    as (_ & _ & _ & H).
  - vm_compute. reflexivity.
  - vm_compute. reflexivity.
  - exact E1.
  - apply (H _ _ E2).
Defined.

(** ** The handles stay *)

Lemma handles_stay_refl (w : World) : handles_stay w w.
Proof. split; auto. Qed.

Lemma handles_stay_trans (a b c : World) :
  handles_stay a b -> handles_stay b c -> handles_stay a c.
Proof. intros (H1 & H2) (H3 & H4). split; auto. Qed.

Lemma handles_stay_disc {A} (c : M A) : always disc_eq c -> always handles_stay c.
Proof.
  intros H w w' E. pose proof (H w w' E) as D. unfold disc_eq in D.
  unfold handles_stay. rewrite D. auto.
Qed.

Lemma handles_stay_modDisc (f : Client -> Client) :
  (forall c, (outgoingCommandsPipe c <> None -> outgoingCommandsPipe (f c) <> None)
             /\ (process c <> None -> process (f c) <> None)) ->
  always handles_stay (modDisc f).
Proof. intros Hf w w' E. unfold modDisc in E. cbn in E. simplify_eq. apply Hf. Qed.

Lemma handles_stay_Lock : always handles_stay Lock.
Proof.
  intros w w'. unfold Lock. destruct (statusMutex (disc w)); cbn; intros E; simplify_eq.
  split; auto.
Qed.

Ltac handles_walk :=
  repeat (intros;
          lazymatch goal with
          | |- always _ (bind _ _) => apply (always_bind _ handles_stay_trans)
          | |- always _ (ret _) => apply (always_ret _ handles_stay_refl)
          | |- always _ (panic _) => apply (always_panic _ handles_stay_refl)
          | |- always _ blocked => apply always_blocked
          | |- always _ (defer_ _ _) =>
              apply (always_defer _ handles_stay_refl handles_stay_trans)
          | |- always _ (on_panic _ _) =>
              apply (always_on_panic _ handles_stay_refl handles_stay_trans)
          | |- always _ (match ?x with _ => _ end) => destruct x
          | |- always _ Lock => apply handles_stay_Lock
          | |- always _ Unlock =>
              apply handles_stay_modDisc; intros ?; split; cbn; (auto || discriminate)
          | |- always _ (modDisc _) =>
              apply handles_stay_modDisc; intros ?; split; cbn; (auto || discriminate)
          | |- always _ _ => apply handles_stay_disc; solve [auto with disc_db]
          end).

(** X24.  The client never gives up its pipe or its process handle: a transition
    that finds a pipe leaves a pipe, and one that finds a process handle
    leaves one, also after [Quit] and after the process has ended.  So the
    panic of a command on the nil pipe can only happen before the first
    [Run] has got its pipes: after it, sending a command always returns,
    with [nil] or with the error of a write. *)
Theorem handles_are_kept (l : list Step) (w w' : World) :
  steps l w = Ret tt w' ->
  (outgoingCommandsPipe (disc w) <> None ->
   outgoingCommandsPipe (disc w') <> None
   /\ forall cmd, exists r w'', sendCommand cmd w' = Ret r w'')
  /\ (process (disc w) <> None -> process (disc w') <> None).
Proof.
  assert (S : forall s, always handles_stay (step s)).
  { intros s. destruct s; unfold step, SetUserAgent, State_, Run_begin, Run_end,
      Run_deferred, Start_begin, Start_end, Stop_begin, Stop_end, List_begin, List_end,
      StartSync_begin, StartSync_end, Quit_begin, Quit_wait, Quit_kill, stopSync_check,
      stopSync_send, stopSync_close, stopSync_nil, jsonDecodeLoop_iter,
      jsonDecodeLoop_check, deliver_check, deliver_eval, deliver_send, at_Quit, at_head,
      closeAndReportError, deliver, killProcess, stopSync, runProcess.
    all: handles_walk. }
  assert (G : forall l w w', steps l w = Ret tt w' -> handles_stay w w').
  { clear l w w'. induction l as [|s l IH]; intros w w'.
    - intros [= <-]. apply handles_stay_refl.
    - cbn [steps]. unfold bind at 1.
      destruct (step s w) as [[] w1| |] eqn:E; try discriminate.
      intros H. apply (handles_stay_trans w w1 w'); [|apply IH, H].
      apply (S s w w1). rewrite E. reflexivity. }
  intros H. destruct (G l w w' H) as (H1 & H2). split; [|exact H2].
  intros Hp. split; [apply H1, Hp|]. intros cmd.
  destruct (outgoingCommandsPipe (disc w')) as [pipe|] eqn:E; [|destruct (H1 Hp eq_refl)].
  apply (sendCommand_returns cmd w' pipe E).
Qed.

Lemma handles_are_kept_witness :
  outgoingCommandsPipe (disc (run_on OS_ok (handshake ++ (QuitBegin :: Quit_rest CaseAfter false))%list))
  <> None.
Proof.
  destruct (handles_are_kept (QuitBegin :: Quit_rest CaseAfter false) idle_world
              (run_on OS_ok (handshake ++ (QuitBegin :: Quit_rest CaseAfter false))%list))
    as (H & _).
  - vm_compute. reflexivity.
  - apply H. vm_compute. discriminate.
Defined.
